(** * LingoBlanks: the lesson session engine of [src/index.tsx]

    A shallow embedding of the WAV encoder ([pcmToWav]), the word-bank
    shuffle ([shuffleArray]), the lesson generation and audio handlers of
    the [App] component, and the article renderer, together with the
    properties its specification states about them. *)

From Stdlib Require Import ZArith QArith Qround Qabs Lia Ascii String Floats.
From stdpp Require Import base option list gmap strings.

Local Open Scope Z_scope.

(* ===================================================================== *)
(** * Numbers, DataView and typed arrays *)
(* ===================================================================== *)

(** A TypeScript [number] is a double: not a number, an infinity, or a
    finite value, given by the rational it stands for. The two zeros are
    one value here: the encoder never divides by zero, and a zero of
    either sign is written into a header field as 0. *)
Inductive number : Type :=
  | NaN
  | Infinity (negative : bool)
  | Finite (q : Q).

(** The integer nearest to [q], a tie going to the even one. *)
Definition round_half_even (q : Q) : Z :=
  let f := Qfloor q in
  match (q - inject_Z f ?= 1 # 2)%Q with
  | Lt => f
  | Gt => f + 1
  | Eq => if Z.even f then f else f + 1
  end.

(** The double nearest to the rational [x], a tie going to the even
    significand. The finite doubles are the multiples [m * 2^e] with
    [|m| < 2^53] and [-1074 <= e] that are below [2^1024] in magnitude.
    With [N] the integer part of [|x| * 2^1074], the doubles around [x]
    are [2^s / 2^1074] apart for [s = max 0 (log2 N - 52)]; [x] goes to
    the nearest multiple, and to an infinity when that multiple has
    magnitude [2^1024] or more. *)
Definition round_to_double (x : Q) : number :=
  let scaled := (x * inject_Z (2 ^ 1074))%Q in
  let s := Z.max 0 (Z.log2 (Qfloor (Qabs scaled)) - 52) in
  let m := round_half_even (scaled / inject_Z (2 ^ s)) in
  if 2 ^ 2098 <=? Z.abs m * 2 ^ s then Infinity (m <? 0)
  else Finite (Qred (m * 2 ^ s # 2 ^ 1074)).

(** The number that an integer literal or the length of an array
    denotes. *)
Definition num (z : Z) : number := round_to_double (inject_Z z).

(** [x * y], [x / y] and [x + y] on doubles: the exact result, rounded. *)
Definition number_mul (x y : number) : number :=
  match x, y with
  | NaN, _ | _, NaN => NaN
  | Infinity a, Infinity b => Infinity (xorb a b)
  | Infinity a, Finite q | Finite q, Infinity a =>
      if Qeq_bool q 0 then NaN else Infinity (xorb a (Qnum q <? 0))
  | Finite p, Finite q => round_to_double (p * q)
  end.

Definition number_div (x y : number) : number :=
  match x, y with
  | NaN, _ | _, NaN => NaN
  | Infinity _, Infinity _ => NaN
  | Infinity a, Finite q => Infinity (xorb a (Qnum q <? 0))
  | Finite _, Infinity _ => Finite 0
  | Finite p, Finite q =>
      if Qeq_bool q 0
      then if Qeq_bool p 0 then NaN else Infinity (Qnum p <? 0)
      else round_to_double (p / q)
  end.

Definition number_add (x y : number) : number :=
  match x, y with
  | NaN, _ | _, NaN => NaN
  | Infinity a, Infinity b => if Bool.eqb a b then Infinity a else NaN
  | Infinity a, Finite _ | Finite _, Infinity a => Infinity a
  | Finite p, Finite q => round_to_double (p + q)
  end.

Declare Scope number_scope.
Delimit Scope number_scope with number.
Bind Scope number_scope with number.
Infix "*" := number_mul : number_scope.
Infix "/" := number_div : number_scope.
Infix "+" := number_add : number_scope.

(** A double of the machine as a [number]: the arithmetic above can be
    run against the machine's. *)
Definition of_float (f : float) : number :=
  match Prim2SF f with
  | S754_zero _ => Finite 0
  | S754_infinity negative => Infinity negative
  | S754_nan => NaN
  | S754_finite negative m e =>
      Finite (Qred (inject_Z (if negative then Z.neg m else Z.pos m) * Qpower 2 e))
  end.

(** The integer that ToUint8, ToUint16 and ToUint32 reduce: the number
    truncated toward zero, and 0 for NaN and the infinities. *)
Definition ToInteger (x : number) : Z :=
  match x with
  | Finite q => Z.quot (Qnum q) (Z.pos (Qden q))
  | _ => 0
  end.

(** ToUint8 / ToUint16 / ToUint32: truncate, then reduce modulo 2^w. *)
Definition ToUint8 (x : number) : Z := ToInteger x mod 2 ^ 8.
Definition ToUint16 (x : number) : Z := ToInteger x mod 2 ^ 16.
Definition ToUint32 (x : number) : Z := ToInteger x mod 2 ^ 32.

(** [x] is the finite double that stands for the rational [q]. *)
Definition represents (x : number) (q : Q) : Prop :=
  ∃ y, x = Finite y ∧ (y == q)%Q.

(** The [k]-th byte of a non-negative integer, least significant first. *)
Definition byte_at (k : nat) (v : Z) : Z := (v / 256 ^ Z.of_nat k) mod 256.
Global Arguments byte_at : simpl never.

(** An [ArrayBuffer] or [Uint8Array] is the list of its bytes, each in
    [0, 256). *)
Abbreviation Uint8Array := (list Z) (only parsing).

Definition is_bytes (l : Uint8Array) : Prop := Forall (λ b, 0 <= b < 256) l.

(** [new ArrayBuffer(n)], [new Uint8Array(n)]: [n] zero bytes. *)
Definition new_bytes (n : nat) : Uint8Array := replicate n 0.

(** [DataView.prototype.setUint8/16/32] with [littleEndian = true]. A
    write that does not fit in the view throws a RangeError ([None]). *)
Definition setUint8 (view : Uint8Array) (byteOffset : nat) (value : number)
  : option Uint8Array :=
  if (byteOffset + 1 <=? length view)%nat
  then Some (<[byteOffset := ToUint8 value]> view)
  else None.

Definition setUint16 (view : Uint8Array) (byteOffset : nat) (value : number)
  : option Uint8Array :=
  if (byteOffset + 2 <=? length view)%nat
  then let v := ToUint16 value in
       Some (<[byteOffset + 1 := byte_at 1 v]>
            (<[byteOffset := byte_at 0 v]> view))%nat
  else None.

Definition setUint32 (view : Uint8Array) (byteOffset : nat) (value : number)
  : option Uint8Array :=
  if (byteOffset + 4 <=? length view)%nat
  then let v := ToUint32 value in
       Some (<[byteOffset + 3 := byte_at 3 v]>
            (<[byteOffset + 2 := byte_at 2 v]>
            (<[byteOffset + 1 := byte_at 1 v]>
            (<[byteOffset := byte_at 0 v]> view))))%nat
  else None.

(** [DataView.prototype.getUint16/32] with [littleEndian = true]; an
    absent byte reads as [None] (RangeError). *)
Definition getUint16 (view : Uint8Array) (byteOffset : nat) : option Z :=
  b0 ← view !! byteOffset;
  b1 ← view !! (byteOffset + 1)%nat;
  Some (b0 + 256 * b1).

Definition getUint32 (view : Uint8Array) (byteOffset : nat) : option Z :=
  b0 ← view !! byteOffset;
  b1 ← view !! (byteOffset + 1)%nat;
  b2 ← view !! (byteOffset + 2)%nat;
  b3 ← view !! (byteOffset + 3)%nat;
  Some (b0 + 256 * b1 + 65536 * b2 + 16777216 * b3).

(** [String.prototype.charCodeAt] on one code unit. *)
Definition charCode (c : ascii) : Z := Z.of_N (N_of_ascii c).

Definition charCodes (s : string) : list Z := charCode <$> list_ascii_of_string s.

(** [TypedArray.prototype.set(source, offset)]: copies [source] over the
    bytes from [offset] on; RangeError when it does not fit. *)
Definition typed_set (target source : Uint8Array) (offset : nat)
  : option Uint8Array :=
  if (offset + length source <=? length target)%nat
  then Some (take offset target ++ source
             ++ drop (offset + length source) target)
  else None.

(* ===================================================================== *)
(** * The WAV encoder, [pcmToWav] (index.tsx, lines 27-65) *)
(* ===================================================================== *)

(** The local closure [writeString]: one [setUint8] per character, at
    [offset + i]. *)
Fixpoint writeString (view : Uint8Array) (offset : nat) (s : string)
  : option Uint8Array :=
  match s with
  | EmptyString => Some view
  | String c s' =>
      view' ← setUint8 view offset (num (charCode c));
      writeString view' (S offset) s'
  end.

Definition blockAlign_of (numChannels bitsPerSample : number) : number :=
  (numChannels * bitsPerSample / num 8)%number.

Definition byteRate_of (sampleRate numChannels bitsPerSample : number) : number :=
  (sampleRate * blockAlign_of numChannels bitsPerSample)%number.

Definition pcmToWav (pcmData : Uint8Array)
    (sampleRate numChannels bitsPerSample : number) : option Uint8Array :=
  let header := new_bytes 44 in
  let dataSize := num (Z.of_nat (length pcmData)) in
  let blockAlign := (numChannels * bitsPerSample / num 8)%number in
  let byteRate := (sampleRate * blockAlign)%number in
  (* RIFF chunk descriptor *)
  view ← writeString header 0 "RIFF";
  view ← setUint32 view 4 (num 36 + dataSize)%number;
  view ← writeString view 8 "WAVE";
  (* "fmt " sub-chunk *)
  view ← writeString view 12 "fmt ";
  view ← setUint32 view 16 (num 16);
  view ← setUint16 view 20 (num 1);
  view ← setUint16 view 22 numChannels;
  view ← setUint32 view 24 sampleRate;
  view ← setUint32 view 28 byteRate;
  view ← setUint16 view 32 blockAlign;
  view ← setUint16 view 34 bitsPerSample;
  (* "data" sub-chunk *)
  view ← writeString view 36 "data";
  view ← setUint32 view 40 dataSize;
  let wavBytes := new_bytes (44 + length pcmData) in
  wavBytes ← typed_set wavBytes view 0;
  wavBytes ← typed_set wavBytes pcmData 44;
  Some wavBytes.

(** The header [pcmToWav] builds, written out byte by byte. *)
Definition le16 (v : Z) : list Z := [byte_at 0 v; byte_at 1 v].
Definition le32 (v : Z) : list Z :=
  [byte_at 0 v; byte_at 1 v; byte_at 2 v; byte_at 3 v].

(** The bytes that [writeString] writes for a text. *)
Definition text_bytes (s : string) : list Z :=
  (λ c, ToUint8 (num (charCode c))) <$> list_ascii_of_string s.

Definition wav_header (dataSize : Z)
    (sampleRate numChannels bitsPerSample : number) : list Z :=
  text_bytes "RIFF" ++ le32 (ToUint32 (num 36 + num dataSize)%number)
  ++ text_bytes "WAVE"
  ++ text_bytes "fmt " ++ le32 (ToUint32 (num 16)) ++ le16 (ToUint16 (num 1))
  ++ le16 (ToUint16 numChannels) ++ le32 (ToUint32 sampleRate)
  ++ le32 (ToUint32 (byteRate_of sampleRate numChannels bitsPerSample))
  ++ le16 (ToUint16 (blockAlign_of numChannels bitsPerSample))
  ++ le16 (ToUint16 bitsPerSample)
  ++ text_bytes "data" ++ le32 (ToUint32 (num dataSize)).

(** The field-by-field layout of the container: the four literals, each
    numeric field as the bytes at its offset, least significant first,
    and as the integer they read back as, and the samples. *)
Record WavLayout (out pcmData : list Z)
    (riff fmtSize fmt nc sr byteRate blockAlign bps dataSize : Z) : Prop := {
  wl_length : length out = (44 + length pcmData)%nat;
  wl_RIFF : take 4 out = charCodes "RIFF";
  wl_riff_size_bytes : take 4 (drop 4 out) = le32 riff;
  wl_riff_size : getUint32 out 4 = Some riff;
  wl_WAVE : take 4 (drop 8 out) = charCodes "WAVE";
  wl_fmt : take 4 (drop 12 out) = charCodes "fmt ";
  wl_fmt_size_bytes : take 4 (drop 16 out) = le32 fmtSize;
  wl_fmt_size : getUint32 out 16 = Some fmtSize;
  wl_format_bytes : take 2 (drop 20 out) = le16 fmt;
  wl_format : getUint16 out 20 = Some fmt;
  wl_channels_bytes : take 2 (drop 22 out) = le16 nc;
  wl_channels : getUint16 out 22 = Some nc;
  wl_rate_bytes : take 4 (drop 24 out) = le32 sr;
  wl_rate : getUint32 out 24 = Some sr;
  wl_byte_rate_bytes : take 4 (drop 28 out) = le32 byteRate;
  wl_byte_rate : getUint32 out 28 = Some byteRate;
  wl_block_align_bytes : take 2 (drop 32 out) = le16 blockAlign;
  wl_block_align : getUint16 out 32 = Some blockAlign;
  wl_bits_bytes : take 2 (drop 34 out) = le16 bps;
  wl_bits : getUint16 out 34 = Some bps;
  wl_data : take 4 (drop 36 out) = charCodes "data";
  wl_data_size_bytes : take 4 (drop 40 out) = le32 dataSize;
  wl_data_size : getUint32 out 40 = Some dataSize;
  wl_samples : drop 44 out = pcmData
}.

(** The layout for integer parameters with every field holding its value
    as it stands: the length [L] of the samples, the parameters, and the
    integer quotients [sampleRate * numChannels * bitsPerSample / 8] and
    [numChannels * bitsPerSample / 8]. *)
Definition pcmToWav_fields_exact (pcmData : list Z)
    (sampleRate numChannels bitsPerSample : Z) : Prop :=
  let L := Z.of_nat (length pcmData) in
  ∃ out,
    pcmToWav pcmData (num sampleRate) (num numChannels) (num bitsPerSample)
    = Some out
    ∧ WavLayout out pcmData (36 + L) 16 1 numChannels sampleRate
        (sampleRate * numChannels * bitsPerSample / 8)
        (numChannels * bitsPerSample / 8) bitsPerSample L.

(* ===================================================================== *)
(** * JavaScript arrays and the array heap *)
(* ===================================================================== *)

(** An array is the list of its elements at the indices below its
    length; [None] is an element that reads as [undefined]. An index is
    a number; a negative one names a property, not an element. This is
    the form of the arrays in which a hole and [undefined] are not told
    apart: the arrays of [shuffleArray], whose copy [[...array]] has no
    hole, and the results of the check, which are read by index only. *)
Section js_array.
Context {T : Type}.

(** [a[i]] *)
Definition js_get (a : list (option T)) (i : Z) : option T :=
  if i <? 0 then None else mjoin (a !! Z.to_nat i).

(** [a[i] = v]: in place below the length; at or past the length the
    array grows to length [i + 1], the gap left as holes. *)
Definition js_set (a : list (option T)) (i : Z) (v : option T)
  : list (option T) :=
  if i <? 0 then a
  else
    let n := Z.to_nat i in
    if (n <? length a)%nat then <[n := v]> a
    else a ++ replicate (n - length a) None ++ [v].
End js_array.

(** An array whose holes matter: an element is a hole, [undefined], or a
    value. A hole reads as [undefined]; [map] passes over it and leaves
    it a hole, and the copy [[...a]] makes it [undefined]. *)
Inductive slot (T : Type) : Type :=
  | Hole
  | Undefined
  | Value (v : T).
Global Arguments Hole {T}.
Global Arguments Undefined {T}.
Global Arguments Value {T} v.

Section sparse_array.
Context {T : Type}.

(** What an element reads as. *)
Definition slot_value (x : slot T) : option T :=
  match x with
  | Value v => Some v
  | _ => None
  end.

(** [a[i]] *)
Definition sparse_get (a : list (slot T)) (i : Z) : option T :=
  if i <? 0 then None else a !! Z.to_nat i ≫= slot_value.

(** [a[i] = v]: in place below the length; at or past the length the
    array grows to length [i + 1], the gap left as holes. *)
Definition sparse_set (a : list (slot T)) (i : Z) (v : slot T)
  : list (slot T) :=
  if i <? 0 then a
  else
    let n := Z.to_nat i in
    if (n <? length a)%nat then <[n := v]> a
    else a ++ replicate (n - length a) Hole ++ [v].

(** [[...a]]: the iterator reads every index below the length, so a
    hole is copied as [undefined]. *)
Definition spread (a : list (slot T)) : list (slot T) :=
  (λ x, match x with
        | Hole => Undefined
        | _ => x
        end) <$> a.
End sparse_array.

(** Arrays are objects: a variable holds a reference into a heap of
    arrays. *)
Definition loc := positive.

(* ===================================================================== *)
(** * The word-bank shuffle, [shuffleArray] (index.tsx, lines 68-75) *)
(* ===================================================================== *)


(** [Math.floor(Math.random() * (i + 1))] *)
Definition random_index (r : Q) (i : Z) : Z := Qfloor (r * inject_Z (i + 1)).

Section shuffle.
Context {T : Type}.

(** [[s[i], s[j]] = [s[j], s[i]]]: both reads, then the write to [s[i]],
    then the write to [s[j]]. *)
Definition swap_elements (s : list (option T)) (i j : Z) : list (option T) :=
  let xj := js_get s j in
  let xi := js_get s i in
  js_set (js_set s i xj) j xi.

(** The loop [for (i = length - 1; i > 0; i--)] on the array at
    [shuffled]; [k] counts the calls of [Math.random]. A reference to no
    array is [None]. *)
Fixpoint shuffle_loop (rand : nat → Q) (k i : nat) (shuffled : loc)
    (h : gmap loc (list (option T))) : option (gmap loc (list (option T))) :=
  match i with
  | O => Some h
  | S i' =>
      s ← h !! shuffled;
      let j := random_index (rand k) (Z.of_nat i) in
      shuffle_loop rand (S k) i' shuffled
        (<[shuffled := swap_elements s (Z.of_nat i) j]> h)
  end.

(** [shuffleArray(array)]: [[...array]] allocates the copy [shuffled],
    the loop permutes it in place, and its reference is returned. *)
Definition shuffleArray (rand : nat → Q) (h : gmap loc (list (option T)))
    (array : loc) : option (gmap loc (list (option T)) * loc) :=
  a ← h !! array;
  let shuffled := fresh (dom h) in
  h' ← shuffle_loop rand 0 (length a - 1) shuffled (<[shuffled := a]> h);
  Some (h', shuffled).

(** The same loop on the elements alone: the value of the array that
    [shuffleArray] returns. *)
Fixpoint shuffle_steps (rand : nat → Q) (k i : nat) (s : list (option T))
  : list (option T) :=
  match i with
  | O => s
  | S i' =>
      let j := random_index (rand k) (Z.of_nat i) in
      shuffle_steps rand (S k) i' (swap_elements s (Z.of_nat i) j)
  end.

Definition shuffleArray_value (rand : nat → Q) (a : list (option T))
  : list (option T) :=
  shuffle_steps rand 0 (length a - 1) a.
End shuffle.

(* ===================================================================== *)
(** * Strings *)
(* ===================================================================== *)

(** A string is represented by the bytes of its UTF-8 form (a lone
    surrogate by the three bytes that the same scheme gives it): an
    ASCII character is one byte below 128, and the bytes of every other
    character are 128 or more. Equality, concatenation and the search
    for a pattern of ASCII characters give the same on these bytes as on
    the code units of the string; [charCodeAt] is read on ASCII text
    only. *)

(** [String.prototype.trim] and [String.prototype.toLowerCase] are the
    engine's, with its tables of white space and of case: the handlers
    take them as given. *)
Class StringPrototype := {
  trim : string → string;
  toLowerCase : string → string
}.

Definition is_ascii (s : string) : bool :=
  forallb (λ c, (N_of_ascii c <? 128)%N) (list_ascii_of_string s).

(** The white space and line terminators of ASCII: TAB, LF, VT, FF, CR
    and SP. *)
Definition isWhiteSpace (c : ascii) : bool :=
  let n := N_of_ascii c in
  ((9 <=? n) && (n <=? 13) || (n =? 32))%N.

(** The ASCII letters with a lower-case form: A-Z. *)
Definition isUpper (c : ascii) : bool :=
  let n := N_of_ascii c in
  ((65 <=? n) && (n <=? 90))%N.

Definition lowerChar (c : ascii) : ascii :=
  if isUpper c then ascii_of_N (N_of_ascii c + 32) else c.

(** [toLowerCase] on ASCII text. *)
Fixpoint toLowerCase_ascii (s : string) : string :=
  match s with
  | EmptyString => EmptyString
  | String c s' => String (lowerChar c) (toLowerCase_ascii s')
  end.

Fixpoint trimStart (s : string) : string :=
  match s with
  | EmptyString => EmptyString
  | String c s' => if isWhiteSpace c then trimStart s' else s
  end.

Definition string_rev (s : string) : string :=
  string_of_list_ascii (reverse (list_ascii_of_string s)).

Definition trimEnd (s : string) : string := string_rev (trimStart (string_rev s)).

(** [trim] on ASCII text. *)
Definition trim_ascii (s : string) : string := trimEnd (trimStart s).

(** What every engine does on ASCII text. *)
Definition agrees_on_ascii (E : StringPrototype) : Prop :=
  ∀ s, is_ascii s = true →
       trim s = trim_ascii s ∧ toLowerCase s = toLowerCase_ascii s.

(** An engine for text that is ASCII throughout. *)
Definition ascii_strings : StringPrototype :=
  {| trim := trim_ascii; toLowerCase := toLowerCase_ascii |}.

(** [s.startsWith(search)] and [s.endsWith(search)] *)
Definition startsWith (s search : string) : bool := String.prefix search s.

Definition endsWith (s search : string) : bool :=
  let n := String.length s in
  let m := String.length search in
  if (n <? m)%nat then false
  else String.eqb (String.substring (n - m) m s) search.

(* ===================================================================== *)
(** * The placeholder pattern and [String.prototype.split] *)
(* ===================================================================== *)

(** The class [[^}]]. *)
Definition notClose (c : ascii) : bool := negb (Ascii.eqb c "}").

(** The rest of a greedy run [[^}]+] followed by the two closing braces:
    the text matched and what follows it. Giving characters of the run
    back cannot help, since the one given back is not a closing brace. *)
Fixpoint match_run_close (s : string) : option (string * string) :=
  match s with
  | EmptyString => None
  | String c s' =>
      if notClose c then
        match match_run_close s' with
        | Some (m, rest) => Some (String c m, rest)
        | None => None
        end
      else
        match s' with
        | String c' rest => if Ascii.eqb c' "}" then Some ("}}", rest) else None
        | EmptyString => None
        end
  end.

(** The first alternative, [\{\{[^}]+\}\}], at the start of [s]. *)
Definition match_braces (s : string) : option (string * string) :=
  match s with
  | String c1 (String c2 (String c s')) =>
      if Ascii.eqb c1 "{" && Ascii.eqb c2 "{" && notClose c then
        match match_run_close s' with
        | Some (m, rest) => Some (String c1 (String c2 (String c m)), rest)
        | None => None
        end
      else None
  | _ => None
  end.

Fixpoint string_drop (n : nat) (s : string) : string :=
  match n, s with
  | S n', String _ s' => string_drop n' s'
  | _, _ => s
  end.

(** The second alternative, the literal [\{\{word\}\}]. *)
Definition match_word (s : string) : option (string * string) :=
  if String.prefix "{{word}}" s then Some ("{{word}}", string_drop 8 s) else None.

(** [/(\{\{[^}]+\}\}|\{\{word\}\})/] at the start of [s]: the
    alternatives in order. *)
Definition match_placeholder (s : string) : option (string * string) :=
  match match_braces s with
  | Some r => Some r
  | None => match_word s
  end.

(** [s.split(re)] for this pattern, whose one capture group is the whole
    match: the text before each match, the match, ..., the text after the
    last match. [segment] is the text since the last match; after a match
    of length [n] at a position the search resumes [n] code units on, so
    the next [n - 1] are skipped. *)
Fixpoint split_from (s : string) (skip : nat) (segment : string) : list string :=
  match s with
  | EmptyString => [segment]
  | String c s' =>
      match skip with
      | S k => split_from s' k segment
      | O =>
          match match_placeholder s with
          | Some (m, _) =>
              segment :: m :: split_from s' (String.length m - 1) ""
          | None => split_from s' 0 (segment +:+ String c "")
          end
      end
  end.

Definition split_placeholders (s : string) : list string := split_from s 0 "".

(** A marker, as the pattern describes it: two opening braces, one or
    more characters none of which is a closing brace, and two closing
    braces. *)
Definition is_marker (m : string) : Prop :=
  ∃ body,
    body ≠ ""
    ∧ Forall (λ c, c ≠ "}"%char) (list_ascii_of_string body)
    ∧ m = "{{" +:+ body +:+ "}}".

(** The text [s] begins with the marker [m], and [rest] follows it. *)
Definition starts_with_marker (s m rest : string) : Prop :=
  is_marker m ∧ s = m +:+ rest.

(** What [String.prototype.split] returns for a pattern that matches
    the markers, the whole match captured: [splits s segment parts] when
    [parts] is the result for the text [s] still to scan and the text
    [segment] since the last match. Where a marker begins, the segment
    ends, the marker is a part of its own and the scan goes on after it;
    elsewhere the code unit joins the segment. *)
Inductive splits : string → string → list string → Prop :=
  | splits_end segment :
      splits "" segment [segment]
  | splits_match s segment m rest parts :
      starts_with_marker s m rest →
      splits rest "" parts →
      splits s segment (segment :: m :: parts)
  | splits_step c s segment parts :
      (∀ m rest, ¬ starts_with_marker (String c s) m rest) →
      splits s (segment +:+ String c "") parts →
      splits (String c s) segment parts.

(** The parts of a split at even positions are the text between the
    matches, those at odd positions are the matches. *)
Fixpoint text_parts (parts : list string) : list string :=
  match parts with
  | t :: _ :: parts' => t :: text_parts parts'
  | _ => parts
  end.

Definition marker_parts (parts : list string) : list string :=
  text_parts (tail parts).

(** The test [part.startsWith('{{') && part.endsWith('}}')] of
    [renderArticle]. *)
Definition isPlaceholder (part : string) : bool :=
  startsWith part "{{" && endsWith part "}}".

(* ===================================================================== *)
(** * The state of the [App] component (index.tsx, lines 78-107) *)
(* ===================================================================== *)

(** The [Lesson] interface, as [JSON.parse] delivers it: the cast
    [as Lesson] checks nothing, so [targetWords] may be absent. *)
Record Lesson := {
  title : string;
  languageCode : string;
  article : string;
  targetWords : option (list string);
  nextTopicSuggestion : string
}.

(** The [useState] cells. *)
Record AppState := {
  language : string;
  topic : string;
  difficulty : string;
  isLoading : bool;
  error : option string;
  lesson : option Lesson;
  lessonImage : option string;
  userAnswers : list (slot string);
  isCorrect : list (option bool);
  showResults : bool;
  shuffledWords : list (option string);
  isAudioLoading : bool;
  isAudioPlaying : bool;
  nextTopicCooldown : nat
}.

(** The state setters: one cell replaced, the others kept. *)
Definition with_topic (v : string) (st : AppState) : AppState :=
  {| language := language st;
     topic := v;
     difficulty := difficulty st;
     isLoading := isLoading st;
     error := error st;
     lesson := lesson st;
     lessonImage := lessonImage st;
     userAnswers := userAnswers st;
     isCorrect := isCorrect st;
     showResults := showResults st;
     shuffledWords := shuffledWords st;
     isAudioLoading := isAudioLoading st;
     isAudioPlaying := isAudioPlaying st;
     nextTopicCooldown := nextTopicCooldown st |}.

Definition with_isLoading (v : bool) (st : AppState) : AppState :=
  {| language := language st;
     topic := topic st;
     difficulty := difficulty st;
     isLoading := v;
     error := error st;
     lesson := lesson st;
     lessonImage := lessonImage st;
     userAnswers := userAnswers st;
     isCorrect := isCorrect st;
     showResults := showResults st;
     shuffledWords := shuffledWords st;
     isAudioLoading := isAudioLoading st;
     isAudioPlaying := isAudioPlaying st;
     nextTopicCooldown := nextTopicCooldown st |}.

Definition with_error (v : option string) (st : AppState) : AppState :=
  {| language := language st;
     topic := topic st;
     difficulty := difficulty st;
     isLoading := isLoading st;
     error := v;
     lesson := lesson st;
     lessonImage := lessonImage st;
     userAnswers := userAnswers st;
     isCorrect := isCorrect st;
     showResults := showResults st;
     shuffledWords := shuffledWords st;
     isAudioLoading := isAudioLoading st;
     isAudioPlaying := isAudioPlaying st;
     nextTopicCooldown := nextTopicCooldown st |}.

Definition with_lesson (v : option Lesson) (st : AppState) : AppState :=
  {| language := language st;
     topic := topic st;
     difficulty := difficulty st;
     isLoading := isLoading st;
     error := error st;
     lesson := v;
     lessonImage := lessonImage st;
     userAnswers := userAnswers st;
     isCorrect := isCorrect st;
     showResults := showResults st;
     shuffledWords := shuffledWords st;
     isAudioLoading := isAudioLoading st;
     isAudioPlaying := isAudioPlaying st;
     nextTopicCooldown := nextTopicCooldown st |}.

Definition with_lessonImage (v : option string) (st : AppState) : AppState :=
  {| language := language st;
     topic := topic st;
     difficulty := difficulty st;
     isLoading := isLoading st;
     error := error st;
     lesson := lesson st;
     lessonImage := v;
     userAnswers := userAnswers st;
     isCorrect := isCorrect st;
     showResults := showResults st;
     shuffledWords := shuffledWords st;
     isAudioLoading := isAudioLoading st;
     isAudioPlaying := isAudioPlaying st;
     nextTopicCooldown := nextTopicCooldown st |}.

Definition with_userAnswers (v : list (slot string)) (st : AppState) : AppState :=
  {| language := language st;
     topic := topic st;
     difficulty := difficulty st;
     isLoading := isLoading st;
     error := error st;
     lesson := lesson st;
     lessonImage := lessonImage st;
     userAnswers := v;
     isCorrect := isCorrect st;
     showResults := showResults st;
     shuffledWords := shuffledWords st;
     isAudioLoading := isAudioLoading st;
     isAudioPlaying := isAudioPlaying st;
     nextTopicCooldown := nextTopicCooldown st |}.

Definition with_isCorrect (v : list (option bool)) (st : AppState) : AppState :=
  {| language := language st;
     topic := topic st;
     difficulty := difficulty st;
     isLoading := isLoading st;
     error := error st;
     lesson := lesson st;
     lessonImage := lessonImage st;
     userAnswers := userAnswers st;
     isCorrect := v;
     showResults := showResults st;
     shuffledWords := shuffledWords st;
     isAudioLoading := isAudioLoading st;
     isAudioPlaying := isAudioPlaying st;
     nextTopicCooldown := nextTopicCooldown st |}.

Definition with_showResults (v : bool) (st : AppState) : AppState :=
  {| language := language st;
     topic := topic st;
     difficulty := difficulty st;
     isLoading := isLoading st;
     error := error st;
     lesson := lesson st;
     lessonImage := lessonImage st;
     userAnswers := userAnswers st;
     isCorrect := isCorrect st;
     showResults := v;
     shuffledWords := shuffledWords st;
     isAudioLoading := isAudioLoading st;
     isAudioPlaying := isAudioPlaying st;
     nextTopicCooldown := nextTopicCooldown st |}.

Definition with_shuffledWords (v : list (option string)) (st : AppState) : AppState :=
  {| language := language st;
     topic := topic st;
     difficulty := difficulty st;
     isLoading := isLoading st;
     error := error st;
     lesson := lesson st;
     lessonImage := lessonImage st;
     userAnswers := userAnswers st;
     isCorrect := isCorrect st;
     showResults := showResults st;
     shuffledWords := v;
     isAudioLoading := isAudioLoading st;
     isAudioPlaying := isAudioPlaying st;
     nextTopicCooldown := nextTopicCooldown st |}.

Definition with_isAudioLoading (v : bool) (st : AppState) : AppState :=
  {| language := language st;
     topic := topic st;
     difficulty := difficulty st;
     isLoading := isLoading st;
     error := error st;
     lesson := lesson st;
     lessonImage := lessonImage st;
     userAnswers := userAnswers st;
     isCorrect := isCorrect st;
     showResults := showResults st;
     shuffledWords := shuffledWords st;
     isAudioLoading := v;
     isAudioPlaying := isAudioPlaying st;
     nextTopicCooldown := nextTopicCooldown st |}.

Definition with_isAudioPlaying (v : bool) (st : AppState) : AppState :=
  {| language := language st;
     topic := topic st;
     difficulty := difficulty st;
     isLoading := isLoading st;
     error := error st;
     lesson := lesson st;
     lessonImage := lessonImage st;
     userAnswers := userAnswers st;
     isCorrect := isCorrect st;
     showResults := showResults st;
     shuffledWords := shuffledWords st;
     isAudioLoading := isAudioLoading st;
     isAudioPlaying := v;
     nextTopicCooldown := nextTopicCooldown st |}.

Definition with_nextTopicCooldown (v : nat) (st : AppState) : AppState :=
  {| language := language st;
     topic := topic st;
     difficulty := difficulty st;
     isLoading := isLoading st;
     error := error st;
     lesson := lesson st;
     lessonImage := lessonImage st;
     userAnswers := userAnswers st;
     isCorrect := isCorrect st;
     showResults := showResults st;
     shuffledWords := shuffledWords st;
     isAudioLoading := isAudioLoading st;
     isAudioPlaying := isAudioPlaying st;
     nextTopicCooldown := v |}.

(* ===================================================================== *)
(** * Handlers as state transformers *)
(* ===================================================================== *)

(** What a handler does outside the component state: the requests to the
    generative service, the console, and the audio output. The prompt of
    the content request is built from the language, the topic and the
    difficulty, which stand for it here. *)
Inductive AudioContextState := Running | Closed.

Inductive Effect :=
  | GenerateContent (language currentTopic difficulty : string)
  | GenerateImages (prompt : string)
  | GenerateSpeech (text languageCode : string)
  | ConsoleError (message : string)
  | NewAudioContext
  | DecodeAudioData (wav : list Z)
  | SourceStart (buffer : list Z)
  | SourceStop (buffer : list Z).

(** The state cells, the two [useRef] cells, and the effects so far.
    An [AudioBufferSourceNode] is identified by the buffer it plays. *)
Record World := {
  appState : AppState;
  audioContextRef : option AudioContextState;
  audioSourceRef : option (list Z);
  effects : list Effect
}.

(** A handler runs on the world; it returns a value or throws an [Error]
    with a message. *)
Definition M (A : Type) : Type := World → (string + A) * World.

Global Instance M_ret : MRet M := λ A a w, (inr a, w).

Global Instance M_bind : MBind M := λ A B f m w,
  match m w with
  | (inr a, w') => f a w'
  | (inl e, w') => (inl e, w')
  end.

Definition throw {A : Type} (message : string) : M A := λ w, (inl message, w).

(** [try { body } catch (err) { handler(err.message) } finally { final }] *)
Definition try_catch_finally (body : M unit) (handler : string → M unit)
    (final : M unit) : M unit := λ w,
  match body w with
  | (inr _, w1) => final w1
  | (inl message, w1) =>
      match handler message w1 with
      | (inr _, w2) => final w2
      | (inl e, w2) => match final w2 with
                       | (inr _, w3) => (inl e, w3)
                       | (inl e', w3) => (inl e', w3)
                       end
      end
  end.

(** The state as the handler's closure captured it. *)
Definition get_app : M AppState := λ w, (inr (appState w), w).

Definition modify_app (f : AppState → AppState) : M unit := λ w,
  (inr tt, {| appState := f (appState w); audioContextRef := audioContextRef w;
              audioSourceRef := audioSourceRef w; effects := effects w |}).

Definition emit (e : Effect) : M unit := λ w,
  (inr tt, {| appState := appState w; audioContextRef := audioContextRef w;
              audioSourceRef := audioSourceRef w; effects := effects w ++ [e] |}).

Definition get_audioContextRef : M (option AudioContextState) :=
  λ w, (inr (audioContextRef w), w).

Definition set_audioContextRef (v : option AudioContextState) : M unit := λ w,
  (inr tt, {| appState := appState w; audioContextRef := v;
              audioSourceRef := audioSourceRef w; effects := effects w |}).

Definition get_audioSourceRef : M (option (list Z)) :=
  λ w, (inr (audioSourceRef w), w).

Definition set_audioSourceRef (v : option (list Z)) : M unit := λ w,
  (inr tt, {| appState := appState w; audioContextRef := audioContextRef w;
              audioSourceRef := v; effects := effects w |}).

Definition setTopic (v : string) : M unit := modify_app (with_topic v).
Definition setIsLoading (v : bool) : M unit := modify_app (with_isLoading v).
Definition setError (v : option string) : M unit := modify_app (with_error v).
Definition setLesson (v : option Lesson) : M unit := modify_app (with_lesson v).
Definition setLessonImage (v : option string) : M unit :=
  modify_app (with_lessonImage v).
Definition setUserAnswers (v : list (slot string)) : M unit :=
  modify_app (with_userAnswers v).
Definition setIsCorrect (v : list (option bool)) : M unit :=
  modify_app (with_isCorrect v).
Definition setShowResults (v : bool) : M unit := modify_app (with_showResults v).
Definition setShuffledWords (v : list (option string)) : M unit :=
  modify_app (with_shuffledWords v).
Definition setIsAudioLoading (v : bool) : M unit :=
  modify_app (with_isAudioLoading v).
Definition setIsAudioPlaying (v : bool) : M unit :=
  modify_app (with_isAudioPlaying v).
Definition setNextTopicCooldown (v : nat) : M unit :=
  modify_app (with_nextTopicCooldown v).

(** The outcome of an awaited promise. *)
Inductive Settled (A : Type) :=
  | Rejects (message : string)
  | Resolves (value : A).
Global Arguments Rejects {A} message.
Global Arguments Resolves {A} value.

Definition await {A : Type} (p : Settled A) : M A :=
  match p with
  | Rejects message => throw message
  | Resolves value => mret value
  end.

(* ===================================================================== *)
(** * Lesson generation, [generateLesson] (index.tsx, lines 149-218) *)
(* ===================================================================== *)

(** The double-quote character of the prompts. *)
Definition dquote : string := String (ascii_of_nat 34) EmptyString.

Definition imagePrompt (lessonTitle : string) : string :=
  "A vibrant, minimalist, educational illustration for a language lesson titled "
  +:+ dquote +:+ lessonTitle +:+ dquote +:+ ".".

Definition invalid_lesson_message : string :=
  "API returned invalid lesson data (missing target words).".

(** The message [generateLesson] shows for a caught error. *)
Definition generation_error (message : string) : string :=
  "An error occurred: " +:+ message +:+ ". Please try again.".

(** [generateLesson(currentTopic)], run to its end. [content] is the
    outcome of the structured-content request with [JSON.parse] of its
    text, [image] that of the image request with the read of its first
    image, and [rand] the run of [Math.random] of the shuffle. The state
    holds the value of the array that [shuffleArray] returns. *)
Definition generateLesson (rand : nat → Q) (currentTopic : string)
    (content : Settled Lesson) (image : Settled string) : M unit :=
  st ← get_app;
  setIsLoading true;;
  setError None;;
  setLesson None;;
  setLessonImage None;;
  setShowResults false;;
  try_catch_finally
    ((* 1. Generate Lesson Content *)
     emit (GenerateContent (language st) currentTopic (difficulty st));;
     lessonData ← await content;
     words ← match targetWords lessonData with
             | None => throw invalid_lesson_message
             | Some words =>
                 if (length words =? 0)%nat then throw invalid_lesson_message
                 else mret words
             end;
     setLesson (Some lessonData);;
     setUserAnswers (replicate (length words) (Value ""));;
     setIsCorrect [];;
     setShuffledWords (shuffleArray_value rand (Some <$> words));;
     (* 2. Generate Header Image *)
     emit (GenerateImages (imagePrompt (title lessonData)));;
     base64ImageBytes ← await image;
     setLessonImage (Some ("data:image/jpeg;base64," +:+ base64ImageBytes)))
    (λ message,
       emit (ConsoleError "Failed to generate lesson:");;
       setError (Some (generation_error message)))
    (setIsLoading false;;
     setNextTopicCooldown 5).

(** The same run in the three stretches that its two [await]s cut it
    into; between two stretches other handlers may run. After the first
    [await] the function reads no state: it only sets cells. *)

(** [catch (err)] and [finally] of [generateLesson]. *)
Definition generateLesson_catch (message : string) : M unit :=
  emit (ConsoleError "Failed to generate lesson:");;
  setError (Some (generation_error message)).

Definition generateLesson_finally : M unit :=
  setIsLoading false;;
  setNextTopicCooldown 5.

(** From the call to the first [await]: what a caller that does not
    await the promise has seen when the call returns. *)
Definition generateLesson_start (currentTopic : string) : M unit :=
  st ← get_app;
  setIsLoading true;;
  setError None;;
  setLesson None;;
  setLessonImage None;;
  setShowResults false;;
  emit (GenerateContent (language st) currentTopic (difficulty st)).

(** From the settling of the content request to the second [await],
    where it returns [true], the image request pending; when it throws,
    through [catch] and [finally], where it returns [false], the run
    over. *)
Definition generateLesson_content (rand : nat → Q) (content : Settled Lesson)
  : M bool := λ w,
  match (lessonData ← await content;
         words ← match targetWords lessonData with
                 | None => throw invalid_lesson_message
                 | Some words =>
                     if (length words =? 0)%nat then throw invalid_lesson_message
                     else mret words
                 end;
         setLesson (Some lessonData);;
         setUserAnswers (replicate (length words) (Value ""));;
         setIsCorrect [];;
         setShuffledWords (shuffleArray_value rand (Some <$> words));;
         emit (GenerateImages (imagePrompt (title lessonData)))) w with
  | (inr _, w1) => (inr true, w1)
  | (inl message, w1) =>
      (generateLesson_catch message;; generateLesson_finally;; mret false) w1
  end.

(** From the settling of the image request to the end of the run. *)
Definition generateLesson_image (image : Settled string) : M unit :=
  try_catch_finally
    (base64ImageBytes ← await image;
     setLessonImage (Some ("data:image/jpeg;base64," +:+ base64ImageBytes)))
    generateLesson_catch
    generateLesson_finally.

(** The cooldown timer effect (lines 126-131): one second on, a positive
    counter goes down by one. *)
Definition cooldown_tick : M unit :=
  st ← get_app;
  if (0 <? nextTopicCooldown st)%nat
  then setNextTopicCooldown (nextTopicCooldown st - 1)
  else mret tt.

(* ===================================================================== *)
(** * Audio playback, [handleListen] (index.tsx, lines 220-278) *)
(* ===================================================================== *)

Section audio.
(** The browser: [Uint8Array.from(atob(b64), c => c.charCodeAt(0))],
    which throws on text that is not base64, and [decodeAudioData],
    which rejects what it cannot decode. *)
Variable atob : string → Settled (list Z).
Variable decodeAudioData : list Z → Settled (list Z).

Definition no_audio_message : string := "No audio data returned from API.".

(** [handleListen(textToListen)], run to the end of its [finally];
    [speech] is the outcome of the speech request: rejected, or resolved
    with the payload [candidates?.[0]?...?.inlineData?.data], if any. *)
Definition handleListen (textToListen : string)
    (speech : Settled (option string)) : M unit :=
  st ← get_app;
  match lesson st with
  | None => mret tt
  | Some lesson =>
      if isAudioLoading st || isAudioPlaying st then mret tt
      else
        setIsAudioLoading true;;
        setError None;;
        try_catch_finally
          (previous ← get_audioSourceRef;
           match previous with
           | Some source => emit (SourceStop source)
           | None => mret tt
           end;;
           emit (GenerateSpeech textToListen (languageCode lesson));;
           audioDataB64 ← await speech;
           b64 ← match audioDataB64 with
                 | None => throw no_audio_message
                 | Some b64 =>
                     if String.eqb b64 "" then throw no_audio_message
                     else mret b64
                 end;
           pcmData ← await (atob b64);
           wavBuffer ← match pcmToWav pcmData (num 24000) (num 1) (num 16) with
                       | Some wav => mret wav
                       | None => throw "RangeError"
                       end;
           context ← get_audioContextRef;
           match context with
           | Some Running => mret tt
           | _ => emit NewAudioContext;; set_audioContextRef (Some Running)
           end;;
           emit (DecodeAudioData wavBuffer);;
           audioBuffer ← await (decodeAudioData wavBuffer);
           emit (SourceStart audioBuffer);;
           set_audioSourceRef (Some audioBuffer);;
           setIsAudioPlaying true)
          (λ message,
             emit (ConsoleError "Failed to play audio.");;
             setError (Some ("Failed to play audio: " +:+ message)))
          (setIsAudioLoading false)
  end.

(** The ways a run of [handleListen] fails, with the message of the
    error thrown: the request is rejected, the response has no
    payload, the payload is not base64, the audio cannot be decoded. *)
Inductive listen_failure : Settled (option string) → string → Prop :=
  | request_fails message :
      listen_failure (Rejects message) message
  | payload_missing :
      listen_failure (Resolves None) no_audio_message
  | payload_empty :
      listen_failure (Resolves (Some "")) no_audio_message
  | base64_fails b64 message :
      b64 ≠ "" → atob b64 = Rejects message →
      listen_failure (Resolves (Some b64)) message
  | decode_fails b64 pcmData wav message :
      b64 ≠ "" → atob b64 = Resolves pcmData →
      pcmToWav pcmData (num 24000) (num 1) (num 16) = Some wav →
      decodeAudioData wav = Rejects message →
      listen_failure (Resolves (Some b64)) message.

(** [source.onended] *)
Definition source_onended : M unit :=
  setIsAudioPlaying false;;
  set_audioSourceRef None.
End audio.

(* ===================================================================== *)
(** * The exercise handlers (index.tsx, lines 281-302) *)
(* ===================================================================== *)

Definition handleAnswerChange (index : nat) (value : string) : M unit :=
  st ← get_app;
  if showResults st then mret tt
  else
    let newAnswers := spread (userAnswers st) in
    let newAnswers := sparse_set newAnswers (Z.of_nat index) (Value value) in
    setUserAnswers newAnswers.

Section check.
Context `{StringPrototype}.

(** The comparison of one answer with one target word. *)
Definition same_word (answer target : string) : bool :=
  String.eqb (toLowerCase (trim answer)) (toLowerCase (trim target)).

(** [userAnswers.map((answer, index) => ...)]: [map] leaves a hole a
    hole; reading [trim] of an answer that is [undefined], or of a target
    word that is not there, is a TypeError ([None]). *)
Fixpoint check_from (words : option (list string)) (index : nat)
    (answers : list (slot string)) : option (list (option bool)) :=
  match answers with
  | [] => Some []
  | Hole :: answers' => (None ::.) <$> check_from words (S index) answers'
  | Undefined :: _ => None
  | Value answer :: answers' =>
      target ← words ≫= (.!! index);
      (Some (same_word answer target) ::.) <$> check_from words (S index) answers'
  end.

Definition handleCheckAnswers : M unit :=
  st ← get_app;
  match lesson st with
  | None => mret tt
  | Some lesson =>
      match check_from (targetWords lesson) 0 (userAnswers st) with
      | None => throw "TypeError: Cannot read properties of undefined (reading 'trim')"
      | Some results => setIsCorrect results;; setShowResults true
      end
  end.
End check.

(** [handleNextTopic()]: the promise of [generateLesson] is not awaited,
    so the handler returns when that call reaches its first [await]. *)
Definition handleNextTopic : M unit :=
  st ← get_app;
  match lesson st with
  | None => mret tt
  | Some lesson =>
      (* a suggestion is truthy when it is not the empty string *)
      if negb (String.eqb (nextTopicSuggestion lesson) "")
         && (nextTopicCooldown st =? 0)%nat
      then
        setTopic (nextTopicSuggestion lesson);;
        generateLesson_start (nextTopicSuggestion lesson)
      else mret tt
  end.

(** The Next Topic button (lines 453-462): in the page only with a
    lesson and the results shown, and disabled while the cooldown runs. *)
Definition nextTopicButton_rendered (st : AppState) : bool :=
  bool_decide (is_Some (lesson st)) && showResults st.

Definition nextTopicButton_disabled (st : AppState) : bool :=
  (0 <? nextTopicCooldown st)%nat.

Definition nextTopicButton_clickable (st : AppState) : bool :=
  nextTopicButton_rendered st && negb (nextTopicButton_disabled st).

(** A click on the Next Topic button, the one place that calls
    [handleNextTopic] (line 457): a button that is not in the page or is
    disabled gives no click. *)
Definition nextTopicButton_onClick : M unit :=
  st ← get_app;
  if nextTopicButton_clickable st then handleNextTopic else mret tt.

(* ===================================================================== *)
(** * The article, [renderArticle] (index.tsx, lines 304-334) *)
(* ===================================================================== *)

(** The props of one blank: [onChange] is the index that the blank hands
    to [handleAnswerChange], [ariaLabel] the number in its label. *)
Record InputProps := {
  key : nat;
  className : string;
  value : string;
  onChange : nat;
  disabled : bool;
  ariaLabel : nat
}.

Inductive Node :=
  | Input (props : InputProps)
  | Fragment (fragmentKey : nat) (text : string)
  | Null.

(** [x || ''] on a string that may be [undefined]. *)
Definition or_empty (x : option string) : string := default "" x.

(** A boolean that may be [undefined], as a condition. *)
Definition truthy (x : option bool) : bool := default false x.

(** The [<input>] of the part with key [i] for the blank [currentIndex]. *)
Definition article_input (st : AppState) (i currentIndex : nat) : InputProps :=
  {| key := i;
     className :=
       "article-input " +:+
       (if showResults st
        then if truthy (js_get (isCorrect st) (Z.of_nat currentIndex))
             then "correct" else "incorrect"
        else "");
     value := or_empty (sparse_get (userAnswers st) (Z.of_nat currentIndex));
     onChange := currentIndex;
     disabled := showResults st;
     ariaLabel := currentIndex + 1 |}.

(** [parts.map((part, i) => ...)] with the counter [inputIndex] that the
    callback increments at each blank. *)
Fixpoint render_parts (st : AppState) (parts : list string)
    (i inputIndex : nat) : list Node :=
  match parts with
  | [] => []
  | part :: parts' =>
      if isPlaceholder part then
        let currentIndex := inputIndex in
        Input (article_input st i currentIndex)
        :: render_parts st parts' (S i) (S inputIndex)
      else
        (if String.eqb part "" then Null else Fragment i part)
        :: render_parts st parts' (S i) inputIndex
  end.

(** [renderArticle()]: [null] without a lesson, else the children of the
    paragraph. *)
Definition renderArticle (st : AppState) : option (list Node) :=
  match lesson st with
  | None => None
  | Some lesson =>
      let parts := split_placeholders (article lesson) in
      Some (render_parts st parts 0 0)
  end.

(** The blanks of a rendering, in document order: the index each one is
    bound to. *)
Fixpoint input_indices (nodes : list Node) : list nat :=
  match nodes with
  | [] => []
  | Input props :: nodes' => onChange props :: input_indices nodes'
  | _ :: nodes' => input_indices nodes'
  end.

(** The binding that the specification states: the marker number [K]
    (from 0) of the article, which is the part [2K + 1] of the split, is
    rendered as the blank bound to index [K]. *)
Definition markers_bound_in_order (st : AppState) (article : string) : Prop :=
  ∀ (K : nat) (marker : string),
    marker_parts (split_placeholders article) !! K = Some marker →
    render_parts st (split_placeholders article) 0 0 !! (2 * K + 1)%nat
    = Some (Input (article_input st (2 * K + 1) K)).

(* ===================================================================== *)
(** * The first render and a sample lesson *)
(* ===================================================================== *)

(** The [useState] initial values, with nothing in [localStorage]. *)
Definition initial_state : AppState :=
  {| language := "Spanish";
     topic := "ordering food at a restaurant";
     difficulty := "normal";
     isLoading := false;
     error := None;
     lesson := None;
     lessonImage := None;
     userAnswers := [];
     isCorrect := [];
     showResults := false;
     shuffledWords := [];
     isAudioLoading := false;
     isAudioPlaying := false;
     nextTopicCooldown := 0 |}.

Definition initial_world : World :=
  {| appState := initial_state;
     audioContextRef := None;
     audioSourceRef := None;
     effects := [] |}.

(** The lesson of the specification's scenario. *)
Definition bread_lesson : Lesson :=
  {| title := "Food";
     languageCode := "en-US";
     article := "I eat {{word}} every day.";
     targetWords := Some ["bread"];
     nextTopicSuggestion := "Drinks" |}.

(** The world once [bread_lesson] is on the page and its cooldown is
    over. *)
Definition bread_world : World :=
  {| appState :=
       with_lesson (Some bread_lesson)
         (with_userAnswers [Value ""]
            (with_shuffledWords [Some "bread"] initial_state));
     audioContextRef := None;
     audioSourceRef := None;
     effects := [] |}.


(* ===================================================================== *)
(** * The comparison of answers, in the specification's words *)
(* ===================================================================== *)

(** Two ASCII characters are the same letter when they are equal or one
    is the upper-case form of the other. *)
Definition same_letter (c d : ascii) : Prop :=
  c = d
  ∨ (isUpper c = true ∧ N_of_ascii d = (N_of_ascii c + 32)%N)
  ∨ (isUpper d = true ∧ N_of_ascii c = (N_of_ascii d + 32)%N).

(** Case-insensitive equality, letter by letter. *)
Inductive equal_ignoring_case : string → string → Prop :=
  | eic_empty : equal_ignoring_case "" ""
  | eic_letter c d s t :
      same_letter c d → equal_ignoring_case s t →
      equal_ignoring_case (String c s) (String d t).

Definition all_whitespace (s : string) : Prop :=
  Forall (λ c, isWhiteSpace c = true) (list_ascii_of_string s).

(** [core] is [s] without its surrounding white space. *)
Definition trimmed_form (s core : string) : Prop :=
  ∃ before after,
    s = before +:+ core +:+ after
    ∧ all_whitespace before ∧ all_whitespace after
    ∧ (∀ c rest, core = String c rest → isWhiteSpace c = false)
    ∧ (∀ c front, core = front +:+ String c "" → isWhiteSpace c = false).

(** The scenario of the specification: [bread_lesson] on the page and
    "Bread" typed into its blank. *)
Definition bread_answered : World :=
  {| appState := with_userAnswers [Value "Bread"] (appState bread_world);
     audioContextRef := None;
     audioSourceRef := None;
     effects := [] |}.

(** The same once the answer is checked: the results are shown and the
    cooldown is over. *)
Definition bread_checked : World :=
  (handleCheckAnswers (H := ascii_strings) bread_answered).2.

(** A lesson whose article has text in empty braces before its one
    marker. *)
Definition empty_braces_lesson : Lesson :=
  {| title := "Food";
     languageCode := "en-US";
     article := "{{}} or {{}}{{a}}";
     targetWords := Some ["apple"];
     nextTopicSuggestion := "Drinks" |}.

Definition empty_braces_state : AppState :=
  with_lesson (Some empty_braces_lesson)
    (with_userAnswers [Value ""] (with_shuffledWords [Some "apple"] initial_state)).

(* ===================================================================== *)
(** * The rest of the component *)
(* ===================================================================== *)

(** [n] ticks of the cooldown timer, one after the other. *)
Fixpoint cooldown_ticks (n : nat) : M unit :=
  match n with
  | O => mret tt
  | S n' => cooldown_tick;; cooldown_ticks n'
  end.

(** The text that the Listen button of the article hands to
    [handleListen] (line 429):
    [lesson.article.replace(/\{\{[^}]+\}\}/g, 'blank')]. Every match of
    the pattern, found from left to right, is replaced; [skip] counts the
    code units of the current match still to pass over. *)
Fixpoint replace_from (s : string) (skip : nat) : string :=
  match s with
  | EmptyString => EmptyString
  | String c s' =>
      match skip with
      | S k => replace_from s' k
      | O =>
          match match_braces s with
          | Some (m, _) => "blank" +:+ replace_from s' (String.length m - 1)
          | None => String c (replace_from s' 0)
          end
      end
  end.

Definition listenArticleText (article : string) : string :=
  replace_from article 0.

(** The same text from the parts of a split: the text parts as they
    are, each marker replaced by [blank]. *)
Fixpoint blanked (parts : list string) : string :=
  match parts with
  | [] => ""
  | [t] => t
  | t :: _ :: parts' => t +:+ "blank" +:+ blanked parts'
  end.

(** [localStorage]: the stored items by key. *)
(** [localStorage.getItem(key) || fallback]: the fallback also replaces
    a stored empty string, which is falsy. *)
Definition getItem_or (localStorage : gmap string string) (key fallback : string)
  : string :=
  match localStorage !! key with
  | Some item => if String.eqb item "" then fallback else item
  | None => fallback
  end.

(** The state of the first render (lines 80-103). *)
Definition mount_state (localStorage : gmap string string) : AppState :=
  {| language := getItem_or localStorage "lastLanguage" "Spanish";
     topic := getItem_or localStorage "lastTopic" "ordering food at a restaurant";
     difficulty := getItem_or localStorage "lastDifficulty" "normal";
     isLoading := false;
     error := None;
     lesson := None;
     lessonImage := None;
     userAnswers := [];
     isCorrect := [];
     showResults := false;
     shuffledWords := [];
     isAudioLoading := false;
     isAudioPlaying := false;
     nextTopicCooldown := 0 |}.

(** The three effects that save the preferences (lines 134-146), run
    after a render with the state [st]. *)
Definition save_preferences (st : AppState) (localStorage : gmap string string)
  : gmap string string :=
  <["lastDifficulty" := difficulty st]>
    (<["lastTopic" := topic st]>
       (<["lastLanguage" := language st]> localStorage)).

(** The effects with which a run of [handleListen] begins: the stop of
    the source that is still referenced, if any, and the one speech
    request. *)
Definition listen_prelude (w : World) (textToListen : string)
    (current : Lesson) : list Effect :=
  match audioSourceRef w with
  | Some source => [SourceStop source]
  | None => []
  end
  ++ [GenerateSpeech textToListen (languageCode current)].

(** The audio context is created when there is none or it is closed. *)
Definition context_effects (w : World) : list Effect :=
  match audioContextRef w with
  | Some Running => []
  | _ => [NewAudioContext]
  end.

Definition is_speech_request (e : Effect) : Prop :=
  match e with
  | GenerateSpeech _ _ => True
  | _ => False
  end.

(** The ways the content step fails, with the message thrown: the
    request or [JSON.parse] throws, or the words are absent or empty. *)
Definition content_failure (content : Settled Lesson) (message : string) : Prop :=
  content = Rejects message
  ∨ ∃ lessonData,
      content = Resolves lessonData
      ∧ (targetWords lessonData = None ∨ targetWords lessonData = Some [])
      ∧ message = invalid_lesson_message.

(* ===================================================================== *)
(** * Properties of numbers *)
(* ===================================================================== *)

Lemma round_half_even_Z (q : Q) (k : Z) :
  (q == inject_Z k)%Q → round_half_even q = k.
Proof.
  intros H. unfold round_half_even.
  rewrite (Qfloor_comp _ _ H), Qfloor_Z.
  assert ((q - inject_Z k ?= 1 # 2)%Q = Lt) as ->; [|done].
  rewrite H. apply Qlt_alt. unfold Qminus. rewrite Qplus_opp_r. reflexivity.
Qed.

Lemma pow2_1074 : 2 ^ 1074 = 8 * 2 ^ 1071.
Proof. change 8 with (2 ^ 3). by rewrite <- Z.pow_add_r. Qed.

(** A multiple of 1/8 with a numerator below 2^53 is a double: rounding
    leaves it as it is. *)
Lemma round_to_double_eighths (x : Q) (z : Z) :
  (x == z # 8)%Q → Z.abs z < 2 ^ 53 →
  ∃ y, round_to_double x = Finite y ∧ (y == x)%Q.
Proof.
  intros Hx Hz. unfold round_to_double.
  set (P := 2 ^ 1071).
  assert (0 < P) as HP by (apply Z.pow_pos_nonneg; lia).
  assert (Z.pos (2 ^ 1074)%positive = 8 * P) as Hden.
  { rewrite Pos2Z.inj_pow. apply pow2_1074. }
  assert ((x * inject_Z (2 ^ 1074) == inject_Z (z * P))%Q) as Hscaled.
  { rewrite Hx, pow2_1074. fold P. unfold Qeq, Qmult, inject_Z. cbn [Qnum Qden].
    lia. }
  set (scaled := (x * inject_Z (2 ^ 1074))%Q) in *.
  assert (Qfloor (Qabs scaled) = Z.abs z * P) as HN.
  { rewrite (Qfloor_comp _ _ (Qabs_wd _ _ Hscaled)).
    change (Qabs (inject_Z (z * P))) with (inject_Z (Z.abs (z * P))).
    rewrite Qfloor_Z, Z.abs_mul. by rewrite (Z.abs_eq P) by lia. }
  rewrite HN.
  destruct (decide (z = 0)) as [->|Hne].
  - cbn [Z.abs Z.mul Z.log2 Z.sub Z.max Z.opp Z.compare Pos.compare] .
    change (Z.max 0 (Z.log2 0 - 52)) with 0.
    rewrite (round_half_even_Z _ 0).
    + cbn [Z.abs Z.mul Z.leb Z.compare]. eexists. split; [reflexivity|].
      rewrite Qred_correct, Hx. reflexivity.
    + rewrite Hscaled. reflexivity.
  - set (L := Z.log2 (Z.abs z)).
    assert (0 <= L < 53) as HL.
    { split; [apply Z.log2_nonneg|]. apply Z.log2_lt_pow2; lia. }
    assert (Z.log2 (Z.abs z * P) = 1071 + L) as ->.
    { unfold P. apply Z.log2_mul_pow2; lia. }
    replace (Z.max 0 (1071 + L - 52)) with (L + 1019) by lia.
    assert (P = 2 ^ (52 - L) * 2 ^ (L + 1019)) as HPs.
    { unfold P. rewrite <- Z.pow_add_r by lia. f_equal. lia. }
    assert (0 < 2 ^ (L + 1019)) as Hs by (apply Z.pow_pos_nonneg; lia).
    rewrite (round_half_even_Z _ (z * 2 ^ (52 - L))).
    + assert (z * 2 ^ (52 - L) * 2 ^ (L + 1019) = z * P) as Hm by (rewrite HPs; lia).
      rewrite Z.abs_mul, (Z.abs_eq (2 ^ (52 - L))) by (apply Z.pow_nonneg; lia).
      replace (Z.abs z * 2 ^ (52 - L) * 2 ^ (L + 1019)) with (Z.abs z * P)
        by (rewrite HPs; lia).
      rewrite Hm.
      assert ((2 ^ 2098 <=? Z.abs z * P) = false) as ->.
      { apply Z.leb_gt.
        assert (Z.abs z * P < 2 ^ 53 * P) by (apply Z.mul_lt_mono_pos_r; lia).
        assert (2 ^ 53 * P = 2 ^ 1124)
          by (unfold P; rewrite <- Z.pow_add_r by lia; reflexivity).
        assert (2 ^ 1124 < 2 ^ 2098) by (apply Z.pow_lt_mono_r; lia).
        lia. }
      eexists. split; [reflexivity|].
      rewrite Qred_correct, Hx. unfold Qeq. cbn [Qnum Qden]. rewrite Hden. lia.
    + rewrite Hscaled. unfold Qeq, Qdiv, Qmult, Qinv, inject_Z. cbn [Qnum Qden].
      destruct (2 ^ (L + 1019)) as [|p|p] eqn:Hp; [lia| |lia].
      cbn [Qnum Qden]. rewrite HPs, Pos.mul_1_l. lia.
Qed.

Lemma num_represents (z : Z) :
  Z.abs z < 2 ^ 50 → represents (num z) (inject_Z z).
Proof.
  intros Hz. apply (round_to_double_eighths _ (8 * z)).
  - unfold Qeq, inject_Z. cbn [Qnum Qden]. lia.
  - change (2 ^ 53) with (8 * 2 ^ 50). lia.
Qed.

Lemma number_mul_represents (x y : number) (p q : Q) (z : Z) :
  represents x p → represents y q →
  (p * q == z # 8)%Q → Z.abs z < 2 ^ 53 →
  represents (number_mul x y) (p * q).
Proof.
  intros (a & -> & Ha) (b & -> & Hb) Hz Hlt. cbn [number_mul].
  destruct (round_to_double_eighths (a * b) z) as (c & Hc & Hcq); [|done|].
  - by rewrite Ha, Hb.
  - exists c. split; [done|]. by rewrite Hcq, Ha, Hb.
Qed.

Lemma number_div_represents (x y : number) (p q : Q) (z : Z) :
  represents x p → represents y q → ¬ (q == 0)%Q →
  (p / q == z # 8)%Q → Z.abs z < 2 ^ 53 →
  represents (number_div x y) (p / q).
Proof.
  intros (a & -> & Ha) (b & -> & Hb) Hq Hz Hlt. cbn [number_div].
  assert (Qeq_bool b 0 = false) as ->.
  { apply not_true_is_false. intros H. apply Qeq_bool_eq in H.
    apply Hq. by rewrite <- Hb. }
  destruct (round_to_double_eighths (a / b) z) as (c & Hc & Hcq); [|done|].
  - by rewrite Ha, Hb.
  - exists c. split; [done|]. by rewrite Hcq, Ha, Hb.
Qed.

Lemma number_add_represents (x y : number) (p q : Q) (z : Z) :
  represents x p → represents y q →
  (p + q == z # 8)%Q → Z.abs z < 2 ^ 53 →
  represents (number_add x y) (p + q).
Proof.
  intros (a & -> & Ha) (b & -> & Hb) Hz Hlt. cbn [number_add].
  destruct (round_to_double_eighths (a + b) z) as (c & Hc & Hcq); [|done|].
  - by rewrite Ha, Hb.
  - exists c. split; [done|]. by rewrite Hcq, Ha, Hb.
Qed.

(** Truncation does not depend on how the fraction is written. *)
Lemma Qtruncate_Qeq (x y : Q) :
  (x == y)%Q →
  Z.quot (Qnum x) (Z.pos (Qden x)) = Z.quot (Qnum y) (Z.pos (Qden y)).
Proof.
  destruct x as [a b], y as [c d]. unfold Qeq. cbn [Qnum Qden].
  intros H.
  rewrite <- (Z.quot_mul_cancel_r a (Z.pos b) (Z.pos d)) by lia.
  rewrite H. rewrite (Z.mul_comm (Z.pos b)).
  apply Z.quot_mul_cancel_r; lia.
Qed.

Lemma ToInteger_represents (x : number) (q : Q) (z : Z) :
  represents x q → (q == z # 8)%Q → 0 <= z → ToInteger x = z / 8.
Proof.
  intros (y & -> & Hy) Hq Hz. cbn [ToInteger].
  rewrite (Qtruncate_Qeq y (z # 8)) by (by rewrite Hy).
  cbn [Qnum Qden]. apply Z.quot_div_nonneg; lia.
Qed.

Lemma ToInteger_represents_Z (x : number) (z : Z) :
  represents x (inject_Z z) → ToInteger x = z.
Proof.
  intros (y & -> & Hy). cbn [ToInteger].
  rewrite (Qtruncate_Qeq y (inject_Z z)) by done.
  cbn [Qnum Qden inject_Z]. apply Z.quot_1_r.
Qed.

(** The arithmetic agrees with the doubles of the machine, also where a
    product is not exact, at a tie, below the normal range and past the
    largest double. *)
Example round_to_double_machine :
  [ (num 4294967295 * (num 65535 * num 65535 / num 8))%number;
    (num 1 / num 3)%number;
    (num (-3) * (num 1 / num 3))%number;
    (num (2 ^ 53) + num 1)%number;
    (num (2 ^ 53) + num 3)%number;
    (num 5 / num (2 ^ 1000) / num (2 ^ 75))%number;
    (num 3 / num (2 ^ 1000) / num (2 ^ 75))%number;
    (num 1 / num (2 ^ 1000) / num (2 ^ 75))%number;
    (num (2 ^ 1000) * num (2 ^ 24 - 1))%number;
    (num (2 ^ 1000) * num (2 ^ 24))%number;
    (num (2 ^ 971 * (2 ^ 53 - 1)) + num (2 ^ 970))%number;
    (num 1 / num 0)%number;
    (num 0 / num 0)%number;
    (num 0 * (num 1 / num 0))%number ]
  = of_float <$>
    [ (4294967295 * (65535 * 65535 / 8))%float;
      (1 / 3)%float;
      (-3 * (1 / 3))%float;
      (0x1p53 + 1)%float;
      (0x1p53 + 3)%float;
      (5 / 0x1p1000 / 0x1p75)%float;
      (3 / 0x1p1000 / 0x1p75)%float;
      (1 / 0x1p1000 / 0x1p75)%float;
      (0x1p1000 * 0xffffffp0)%float;
      (0x1p1000 * 0x1p24)%float;
      (0x1.fffffffffffffp1023 + 0x1p970)%float;
      (1 / 0)%float;
      (0 / 0)%float;
      (0 * (1 / 0))%float ].
Proof. vm_compute. reflexivity. Qed.

(* ===================================================================== *)
(** * Properties of the WAV encoder *)
(* ===================================================================== *)

Lemma typed_set_prefix (n : nat) (src rest : Uint8Array) :
  length src = n →
  typed_set (new_bytes (n + length rest)) src 0
  = Some (src ++ new_bytes (length rest)).
Proof.
  intros Hn. unfold typed_set, new_bytes. rewrite length_replicate.
  rewrite (proj2 (Nat.leb_le _ _)) by lia.
  f_equal. rewrite take_0. cbn [Nat.add app]. f_equal.
  rewrite drop_replicate. f_equal. lia.
Qed.

Lemma typed_set_suffix (hd src : Uint8Array) :
  typed_set (hd ++ new_bytes (length src)) src (length hd) = Some (hd ++ src).
Proof.
  unfold typed_set, new_bytes.
  rewrite length_app, length_replicate, Nat.leb_refl.
  f_equal. rewrite take_app_length. f_equal.
  rewrite drop_ge, app_nil_r; [done|].
  rewrite length_app, length_replicate. lia.
Qed.

Lemma charCode_byte (c : ascii) : ToUint8 (num (charCode c)) = charCode c.
Proof. destruct c as [[] [] [] [] [] [] [] []]; vm_compute; reflexivity. Qed.

Lemma text_bytes_charCodes (s : string) : text_bytes s = charCodes s.
Proof.
  unfold text_bytes, charCodes.
  induction (list_ascii_of_string s) as [|c l IH]; [done|].
  cbn [fmap list_fmap]. f_equal; [apply charCode_byte | exact IH].
Qed.

Lemma pcmToWav_header_view (dataSize : Z) (sr nc bps : number) :
  (view ← writeString (new_bytes 44) 0 "RIFF";
   view ← setUint32 view 4 (num 36 + num dataSize)%number;
   view ← writeString view 8 "WAVE";
   view ← writeString view 12 "fmt ";
   view ← setUint32 view 16 (num 16);
   view ← setUint16 view 20 (num 1);
   view ← setUint16 view 22 nc;
   view ← setUint32 view 24 sr;
   view ← setUint32 view 28 (sr * (nc * bps / num 8))%number;
   view ← setUint16 view 32 (nc * bps / num 8)%number;
   view ← setUint16 view 34 bps;
   view ← writeString view 36 "data";
   setUint32 view 40 (num dataSize))
  = Some (wav_header dataSize sr nc bps).
Proof. reflexivity. Qed.

Lemma wav_header_length (dataSize : Z) (sr nc bps : number) :
  length (wav_header dataSize sr nc bps) = 44%nat.
Proof. reflexivity. Qed.

(** [pcmToWav] never throws: it returns the header followed by the
    samples. *)
Lemma pcmToWav_eq (pcmData : Uint8Array) (sr nc bps : number) :
  pcmToWav pcmData sr nc bps
  = Some (wav_header (Z.of_nat (length pcmData)) sr nc bps ++ pcmData).
Proof.
  change (pcmToWav pcmData sr nc bps) with
    (view ← Some (wav_header (Z.of_nat (length pcmData)) sr nc bps);
     wavBytes ← typed_set (new_bytes (44 + length pcmData)) view 0;
     wavBytes ← typed_set wavBytes pcmData 44;
     Some wavBytes).
  cbn [mbind option_bind].
  rewrite typed_set_prefix by apply wav_header_length.
  cbn [mbind option_bind].
  change 44%nat with (length (wav_header (Z.of_nat (length pcmData)) sr nc bps)).
  rewrite typed_set_suffix. reflexivity.
Qed.

(** ** Little-endian fields read back *)

Lemma le16_decode (v : Z) :
  0 <= v < 2 ^ 16 → byte_at 0 v + 256 * byte_at 1 v = v.
Proof.
  intros Hv. unfold byte_at. change (256 ^ Z.of_nat 0) with 1.
  change (256 ^ Z.of_nat 1) with 256. change (2 ^ 16) with 65536 in Hv.
  rewrite Z.div_1_r. rewrite (Z.mod_small (v / 256) 256).
  - pose proof (Z.div_mod v 256). lia.
  - split; [apply Z.div_pos; lia | apply Z.div_lt_upper_bound; lia].
Qed.

Lemma le32_decode (v : Z) :
  0 <= v < 2 ^ 32 →
  byte_at 0 v + 256 * byte_at 1 v + 65536 * byte_at 2 v
  + 16777216 * byte_at 3 v = v.
Proof.
  intros Hv. unfold byte_at. change (256 ^ Z.of_nat 0) with 1.
  change (256 ^ Z.of_nat 1) with 256. change (256 ^ Z.of_nat 2) with (256 * 256).
  change (256 ^ Z.of_nat 3) with (256 * 256 * 256).
  change (2 ^ 32) with 4294967296 in Hv.
  rewrite Z.div_1_r, <- !Z.div_div by lia.
  set (q1 := v / 256). set (q2 := q1 / 256). set (q3 := q2 / 256).
  assert (0 <= q3 < 256) as H3.
  { subst q3 q2 q1.
    split; [repeat apply Z.div_pos; lia|].
    repeat (apply Z.div_lt_upper_bound; [lia|]). lia. }
  rewrite (Z.mod_small q3 256) by exact H3.
  pose proof (Z.div_mod v 256). pose proof (Z.div_mod q1 256).
  pose proof (Z.div_mod q2 256). fold q1 in H. fold q2 in H0. fold q3 in H1.
  lia.
Qed.

Lemma byte_at_range (k : nat) (v : Z) : 0 <= byte_at k v < 256.
Proof. unfold byte_at. apply Z.mod_pos_bound. lia. Qed.

Lemma ToUint16_range (x : number) : 0 <= ToUint16 x < 2 ^ 16.
Proof. unfold ToUint16. apply Z.mod_pos_bound. lia. Qed.

Lemma ToUint32_range (x : number) : 0 <= ToUint32 x < 2 ^ 32.
Proof. unfold ToUint32. apply Z.mod_pos_bound. lia. Qed.

Lemma wav_header_charCodes (dataSize : Z) (sr nc bps : number) :
  wav_header dataSize sr nc bps
  = charCodes "RIFF" ++ le32 (ToUint32 (num 36 + num dataSize)%number)
    ++ charCodes "WAVE"
    ++ charCodes "fmt " ++ le32 16 ++ le16 1
    ++ le16 (ToUint16 nc) ++ le32 (ToUint32 sr)
    ++ le32 (ToUint32 (sr * (nc * bps / num 8))%number)
    ++ le16 (ToUint16 (nc * bps / num 8)%number)
    ++ le16 (ToUint16 bps)
    ++ charCodes "data" ++ le32 (ToUint32 (num dataSize)).
Proof.
  unfold wav_header. rewrite !text_bytes_charCodes.
  assert (ToUint32 (num 16) = 16) as -> by (vm_compute; reflexivity).
  assert (ToUint16 (num 1) = 1) as -> by (vm_compute; reflexivity).
  reflexivity.
Qed.

(** The layout with every numeric field as the code computes it and
    [setUint16] or [setUint32] reduces it: for all samples and all
    numbers, in range or not. *)
Lemma wav_header_layout (pcmData : list Z) (sr nc bps : number) :
  let L := num (Z.of_nat (length pcmData)) in
  WavLayout (wav_header (Z.of_nat (length pcmData)) sr nc bps ++ pcmData) pcmData
    (ToUint32 (num 36 + L)%number) 16 1 (ToUint16 nc)
    (ToUint32 sr) (ToUint32 (sr * (nc * bps / num 8))%number)
    (ToUint16 (nc * bps / num 8)%number) (ToUint16 bps) (ToUint32 L).
Proof.
  intros L.
  pose proof (λ x, f_equal Some (le32_decode _ (ToUint32_range x))) as H32.
  pose proof (λ x, f_equal Some (le16_decode _ (ToUint16_range x))) as H16.
  rewrite wav_header_charCodes.
  split; try reflexivity; first [exact (H32 _) | exact (H16 _)].
Qed.

Lemma pcmToWav_fields_wrapped (pcmData : list Z) (sr nc bps : number) :
  let L := num (Z.of_nat (length pcmData)) in
  ∃ out,
    pcmToWav pcmData sr nc bps = Some out
    ∧ WavLayout out pcmData
        (ToUint32 (num 36 + L)%number) 16 1 (ToUint16 nc) (ToUint32 sr)
        (ToUint32 (sr * (nc * bps / num 8))%number)
        (ToUint16 (nc * bps / num 8)%number)
        (ToUint16 bps) (ToUint32 L).
Proof.
  intros L. eexists. split; [apply pcmToWav_eq | apply wav_header_layout].
Qed.

(** The encoder's output holds only bytes when the samples are bytes. *)
Lemma pcmToWav_is_bytes (pcmData out : list Z) (sr nc bps : number) :
  is_bytes pcmData → pcmToWav pcmData sr nc bps = Some out → is_bytes out.
Proof.
  intros Hpcm. rewrite pcmToWav_eq. intros H.
  assert (out = wav_header (Z.of_nat (length pcmData)) sr nc bps ++ pcmData)
    as -> by congruence.
  rewrite wav_header_charCodes.
  apply Forall_app_2; [|exact Hpcm].
  repeat (apply Forall_cons_2;
          [first [apply byte_at_range
                 | compute; split; [discriminate | reflexivity]]|]).
  apply Forall_nil_2.
Qed.

Lemma represents_Qeq (x : number) (p q : Q) :
  (p == q)%Q → represents x p → represents x q.
Proof. intros Hpq (y & -> & Hy). exists y. split; [done|]. by rewrite Hy. Qed.

(** In range, the two quotients that the code forms are exact. *)
Lemma blockAlign_represents (nc bps : Z) :
  0 <= nc < 2 ^ 16 → 0 <= bps < 2 ^ 16 →
  represents (num nc * num bps / num 8)%number (nc * bps # 8).
Proof.
  intros Hnc Hbps.
  apply (represents_Qeq _ (inject_Z nc * inject_Z bps / inject_Z 8)).
  { unfold Qeq, Qdiv, Qmult, Qinv, inject_Z. cbn [Qnum Qden]. lia. }
  apply (number_div_represents _ _ _ _ (nc * bps)).
  - apply (number_mul_represents _ _ _ _ (8 * (nc * bps)));
      [apply num_represents; lia | apply num_represents; lia | |].
    + unfold Qeq, Qmult, inject_Z. cbn [Qnum Qden]. lia.
    + assert (nc * bps < 2 ^ 16 * 2 ^ 16) by nia.
      assert (0 <= nc * bps) by nia. lia.
  - apply num_represents. lia.
  - discriminate.
  - unfold Qeq, Qdiv, Qmult, Qinv, inject_Z. cbn [Qnum Qden]. lia.
  - assert (nc * bps < 2 ^ 16 * 2 ^ 16) by nia.
    assert (0 <= nc * bps) by nia. lia.
Qed.

Lemma byteRate_represents (sr nc bps : Z) :
  0 <= sr < 2 ^ 32 → 0 <= nc < 2 ^ 16 → 0 <= bps < 2 ^ 16 →
  sr * nc * bps / 8 < 2 ^ 32 →
  represents (num sr * (num nc * num bps / num 8))%number (sr * nc * bps # 8).
Proof.
  intros Hsr Hnc Hbps Hbr.
  apply (represents_Qeq _ (inject_Z sr * (nc * bps # 8))).
  { unfold Qeq, Qmult, inject_Z. cbn [Qnum Qden]. lia. }
  assert (0 <= sr * nc * bps) as H0.
  { apply Z.mul_nonneg_nonneg; [apply Z.mul_nonneg_nonneg|]; lia. }
  assert (sr * nc * bps < 8 * 2 ^ 32) as H1.
  { pose proof (Z.div_mod (sr * nc * bps) 8 ltac:(lia)).
    pose proof (Z.mod_pos_bound (sr * nc * bps) 8 ltac:(lia)). lia. }
  apply (number_mul_represents _ _ _ _ (sr * nc * bps));
    [apply num_represents; lia | by apply blockAlign_represents | |].
  - unfold Qeq, Qmult, inject_Z. cbn [Qnum Qden]. lia.
  - lia.
Qed.

(** C1 (as amended). For samples of length [L] and integer parameters
    that fit their fields (numChannels, bitsPerSample and the block
    alignment below 2^16; sampleRate, the byte rate and [36 + L] below
    2^32; none negative), [pcmToWav] returns [44 + L] bytes: the literals
    RIFF, WAVE, fmt and data at offsets 0, 8, 12 and 36, the fields
    [36 + L], 16, 1, numChannels, sampleRate, byte rate, block alignment,
    bitsPerSample and [L] at offsets 4, 16, 20, 22, 24, 28, 32, 34 and
    40, each as its bytes least significant first, and the samples
    unchanged from offset 44 on. *)
Theorem pcmToWav_layout_in_range (pcmData : list Z) (sampleRate numChannels bitsPerSample : Z) :
  36 + Z.of_nat (length pcmData) < 2 ^ 32 →
  0 <= sampleRate < 2 ^ 32 →
  0 <= numChannels < 2 ^ 16 →
  0 <= bitsPerSample < 2 ^ 16 →
  sampleRate * numChannels * bitsPerSample / 8 < 2 ^ 32 →
  numChannels * bitsPerSample / 8 < 2 ^ 16 →
  pcmToWav_fields_exact pcmData sampleRate numChannels bitsPerSample.
Proof.
  intros HL Hsr Hnc Hbps Hbr Hba.
  destruct (pcmToWav_fields_wrapped pcmData (num sampleRate)
              (num numChannels) (num bitsPerSample)) as (out & Hout & W).
  exists out. split; [exact Hout|].
  set (L := Z.of_nat (length pcmData)) in *.
  assert (0 <= L) as HL0 by (subst L; lia).
  assert (0 <= numChannels * bitsPerSample) as Hnb by nia.
  assert (0 <= sampleRate * numChannels * bitsPerSample) as Hsnb.
  { apply Z.mul_nonneg_nonneg; [apply Z.mul_nonneg_nonneg|]; lia. }
  assert (ToUint32 (num 36 + num L)%number = 36 + L) as E1.
  { unfold ToUint32.
    rewrite (ToInteger_represents_Z _ (36 + L)); [apply Z.mod_small; lia|].
    apply (represents_Qeq _ (inject_Z 36 + inject_Z L)).
    { unfold Qeq, Qplus, inject_Z. cbn [Qnum Qden]. lia. }
    apply (number_add_represents _ _ _ _ (8 * (36 + L)));
      [apply num_represents; lia | apply num_represents; lia | |lia].
    unfold Qeq, Qplus, inject_Z. cbn [Qnum Qden]. lia. }
  assert (ToUint32
            (num sampleRate * (num numChannels * num bitsPerSample / num 8))%number
          = sampleRate * numChannels * bitsPerSample / 8) as E2.
  { unfold ToUint32.
    rewrite (ToInteger_represents _ _ (sampleRate * numChannels * bitsPerSample)
               (byteRate_represents _ _ _ Hsr Hnc Hbps Hbr)); [|done|done].
    apply Z.mod_small. split; [apply Z.div_pos; lia | exact Hbr]. }
  assert (ToUint16 (num numChannels * num bitsPerSample / num 8)%number
          = numChannels * bitsPerSample / 8) as E3.
  { unfold ToUint16.
    rewrite (ToInteger_represents _ _ (numChannels * bitsPerSample)
               (blockAlign_represents _ _ Hnc Hbps)); [|done|done].
    apply Z.mod_small. split; [apply Z.div_pos; lia | exact Hba]. }
  assert (∀ z, 0 <= z < 2 ^ 32 → ToUint32 (num z) = z) as E32.
  { intros z Hz. unfold ToUint32.
    rewrite (ToInteger_represents_Z _ z) by (apply num_represents; lia).
    by apply Z.mod_small. }
  assert (∀ z, 0 <= z < 2 ^ 16 → ToUint16 (num z) = z) as E16.
  { intros z Hz. unfold ToUint16.
    rewrite (ToInteger_represents_Z _ z) by (apply num_represents; lia).
    by apply Z.mod_small. }
  cbn zeta in W. fold L in W.
  rewrite E1, E2, E3, (E16 numChannels), (E16 bitsPerSample),
    (E32 sampleRate), (E32 L) in W by lia.
  exact W.
Qed.

Lemma pcmToWav_layout_in_range_witness :
  pcmToWav_fields_exact [1; 2; 3; 4] 24000 1 16.
Proof.
  apply (pcmToWav_layout_in_range [1; 2; 3; 4] 24000 1 16);
    compute; repeat split; (discriminate || reflexivity).
Defined.

(** C1 (as stated) fails where a parameter does not fit its field: with
    65536 channels the two bytes at offset 22 hold 0. *)
Lemma pcmToWav_channels_wrap :
  (pcmToWav [] (num 24000) (num 65536) (num 16) ≫= λ out, getUint16 out 22)
  = Some 0
  ∧ ¬ pcmToWav_fields_exact [] 24000 65536 16.
Proof.
  split; [vm_compute; reflexivity|].
  intros (out & Hout & W). apply wl_channels in W.
  assert ((pcmToWav [] (num 24000) (num 65536) (num 16)
             ≫= λ out, getUint16 out 22) = Some 65536) as H
    by (rewrite Hout; exact W).
  vm_compute in H. discriminate H.
Qed.

(** The header of the audio that [handleListen] plays: 24000 Hz, one
    channel, 16 bits, here for two bytes of samples. *)
Example wav_header_listen :
  wav_header 2 (num 24000) (num 1) (num 16)
  = [82; 73; 70; 70; 38; 0; 0; 0; 87; 65; 86; 69;
     102; 109; 116; 32; 16; 0; 0; 0; 1; 0; 1; 0;
     192; 93; 0; 0; 128; 187; 0; 0; 2; 0; 16; 0;
     100; 97; 116; 97; 2; 0; 0; 0].
Proof. vm_compute. reflexivity. Qed.

(** A byte rate that is not exact in a double is written as the double
    the product rounds to: 4294967295 * 536854528.125 rounds up, and the
    field holds 16384. *)
Example pcmToWav_byte_rate_rounds :
  (pcmToWav [] (num 4294967295) (num 65535) (num 65535)
     ≫= λ out, getUint32 out 28) = Some 16384
  ∧ (4294967295 * 65535 * 65535 / 8) mod 2 ^ 32 = 16383.
Proof. split; vm_compute; reflexivity. Qed.

(* ===================================================================== *)
(** * Properties of arrays and of the shuffle *)
(* ===================================================================== *)

Section js_array_facts.
Context {T : Type}.
Implicit Types (a s : list (option T)) (v : option T).



Lemma js_set_length a i v :
  0 <= i →
  length (js_set a i v) = Nat.max (length a) (S (Z.to_nat i)).
Proof.
  intros Hi. unfold js_set. rewrite (proj2 (Z.ltb_ge _ _) Hi).
  destruct (Nat.ltb_spec (Z.to_nat i) (length a)).
  - rewrite length_insert. lia.
  - rewrite !length_app, length_replicate. cbn. lia.
Qed.

(** Reading back the element just written. *)
Lemma js_get_set_eq a i v : 0 <= i → js_get (js_set a i v) i = v.
Proof.
  intros Hi. unfold js_get, js_set. rewrite (proj2 (Z.ltb_ge _ _) Hi).
  destruct (Nat.ltb_spec (Z.to_nat i) (length a)).
  - by rewrite list_lookup_insert_eq.
  - rewrite lookup_app_r by lia.
    rewrite lookup_app_r by (rewrite length_replicate; lia).
    rewrite length_replicate.
    by replace (Z.to_nat i - length a - (Z.to_nat i - length a))%nat
      with 0%nat by lia.
Qed.

(** Every other index reads as before the write. *)
Lemma js_get_set_ne a i k v : k ≠ i → js_get (js_set a i v) k = js_get a k.
Proof.
  intros Hne. unfold js_get, js_set.
  destruct (Z.ltb_spec k 0); [done|].
  destruct (Z.ltb_spec i 0); [done|].
  assert (Z.to_nat k ≠ Z.to_nat i) by lia.
  destruct (Nat.ltb_spec (Z.to_nat i) (length a)).
  - by rewrite list_lookup_insert_ne.
  - destruct (decide (Z.to_nat k < length a)%nat).
    + by rewrite lookup_app_l.
    + rewrite (lookup_ge_None_2 a) by lia.
      rewrite lookup_app_r by lia.
      destruct (decide (Z.to_nat k < Z.to_nat i)%nat).
      * rewrite lookup_app_l by (rewrite length_replicate; lia).
        by rewrite lookup_replicate_2 by lia.
      * rewrite lookup_ge_None_2; [done|].
        rewrite length_app, length_replicate. cbn. lia.
Qed.


End js_array_facts.

Section sparse_array_facts.
Context {T : Type}.
Implicit Types (a : list (slot T)) (v : slot T).

Lemma spread_length a : length (spread a) = length a.
Proof. unfold spread. apply length_fmap. Qed.

(** The copy reads as the array does. *)
Lemma sparse_get_spread a i : sparse_get (spread a) i = sparse_get a i.
Proof.
  unfold sparse_get, spread. destruct (i <? 0); [done|].
  rewrite list_lookup_fmap. by destruct (a !! Z.to_nat i) as [[]|].
Qed.

Lemma spread_idemp a : spread (spread a) = spread a.
Proof.
  unfold spread. rewrite <- list_fmap_compose. apply list_fmap_ext.
  by intros i [] _.
Qed.

Lemma spread_insert_value a (n : nat) (x : T) :
  spread (<[n := Value x]> (spread a)) = <[n := Value x]> (spread a).
Proof.
  unfold spread at 1. rewrite list_fmap_insert. f_equal. apply spread_idemp.
Qed.

Lemma sparse_set_in_range a i v :
  0 <= i < Z.of_nat (length a) → sparse_set a i v = <[Z.to_nat i := v]> a.
Proof.
  intros [Hi Hlen]. unfold sparse_set.
  rewrite (proj2 (Z.ltb_ge _ _) Hi).
  by rewrite (proj2 (Nat.ltb_lt _ _)) by lia.
Qed.

Lemma sparse_set_length a i v :
  0 <= i →
  length (sparse_set a i v) = Nat.max (length a) (S (Z.to_nat i)).
Proof.
  intros Hi. unfold sparse_set. rewrite (proj2 (Z.ltb_ge _ _) Hi).
  destruct (Nat.ltb_spec (Z.to_nat i) (length a)).
  - rewrite length_insert. lia.
  - rewrite !length_app, length_replicate. cbn. lia.
Qed.

(** Reading back the element just written. *)
Lemma sparse_get_set_eq a i v :
  0 <= i → sparse_get (sparse_set a i v) i = slot_value v.
Proof.
  intros Hi. unfold sparse_get, sparse_set. rewrite (proj2 (Z.ltb_ge _ _) Hi).
  destruct (Nat.ltb_spec (Z.to_nat i) (length a)).
  - by rewrite list_lookup_insert_eq.
  - rewrite lookup_app_r by lia.
    rewrite lookup_app_r by (rewrite length_replicate; lia).
    rewrite length_replicate.
    by replace (Z.to_nat i - length a - (Z.to_nat i - length a))%nat
      with 0%nat by lia.
Qed.

(** Every other index reads as before the write. *)
Lemma sparse_get_set_ne a i k v :
  k ≠ i → sparse_get (sparse_set a i v) k = sparse_get a k.
Proof.
  intros Hne. unfold sparse_get, sparse_set.
  destruct (Z.ltb_spec k 0); [done|].
  destruct (Z.ltb_spec i 0); [done|].
  assert (Z.to_nat k ≠ Z.to_nat i) by lia.
  destruct (Nat.ltb_spec (Z.to_nat i) (length a)).
  - by rewrite list_lookup_insert_ne.
  - destruct (decide (Z.to_nat k < length a)%nat).
    + by rewrite lookup_app_l.
    + rewrite (lookup_ge_None_2 a) by lia.
      rewrite lookup_app_r by lia.
      destruct (decide (Z.to_nat k < Z.to_nat i)%nat).
      * rewrite lookup_app_l by (rewrite length_replicate; lia).
        by rewrite lookup_replicate_2 by lia.
      * rewrite lookup_ge_None_2; [done|].
        rewrite length_app, length_replicate. cbn. lia.
Qed.
End sparse_array_facts.


Section shuffle_facts.
Context {T : Type}.
Implicit Types (a s : list (option T)) (h : gmap loc (list (option T))).



(** The loop touches the heap at [shuffled] only. *)
Lemma shuffle_loop_heap (rand : nat → Q) (k i : nat) (shuffled : loc) h s :
  h !! shuffled = Some s →
  shuffle_loop rand k i shuffled h
  = Some (<[shuffled := shuffle_steps rand k i s]> h).
Proof.
  revert k h s. induction i as [|i IH]; intros k h s Hs; cbn.
  - by rewrite insert_id.
  - rewrite Hs. cbn.
    erewrite IH by apply lookup_insert_eq.
    by rewrite insert_insert_eq.
Qed.

Lemma shuffleArray_eq (rand : nat → Q) h (array : loc) a :
  h !! array = Some a →
  shuffleArray rand h array
  = Some (<[fresh (dom h) := shuffleArray_value rand a]> h, fresh (dom h)).
Proof.
  intros Ha. unfold shuffleArray. rewrite Ha. cbn.
  erewrite shuffle_loop_heap by apply lookup_insert_eq.
  cbn. by rewrite insert_insert_eq.
Qed.
End shuffle_facts.



(** One run on three words, with every draw 1/2: the copy is reordered,
    the argument is not. *)
Example shuffleArray_run :
  shuffleArray_value (λ _, 1 # 2)%Q [Some "a"; Some "b"; Some "c"]
  = [Some "a"; Some "c"; Some "b"].
Proof. reflexivity. Qed.

(* ===================================================================== *)
(** * Properties of strings *)
(* ===================================================================== *)

Lemma N_of_ascii_inj (c d : ascii) : N_of_ascii c = N_of_ascii d → c = d.
Proof.
  intros H. rewrite <- (ascii_N_embedding c), <- (ascii_N_embedding d).
  by rewrite H.
Qed.

Lemma isUpper_spec (c : ascii) :
  isUpper c = true ↔ (65 <= N_of_ascii c <= 90)%N.
Proof.
  unfold isUpper. rewrite andb_true_iff, !N.leb_le. tauto.
Qed.

Lemma N_of_lowerChar (c : ascii) :
  N_of_ascii (lowerChar c)
  = if isUpper c then (N_of_ascii c + 32)%N else N_of_ascii c.
Proof.
  unfold lowerChar. destruct (isUpper c) eqn:Hu; [|done].
  apply isUpper_spec in Hu. apply N_ascii_embedding. lia.
Qed.

Lemma isUpper_cases (c : ascii) :
  (isUpper c = true ∧ (65 <= N_of_ascii c <= 90)%N)
  ∨ (isUpper c = false ∧ ¬ (65 <= N_of_ascii c <= 90)%N).
Proof.
  pose proof (isUpper_spec c) as H.
  destruct (isUpper c); [left | right]; split; try done.
  - by apply H.
  - intros Hr. apply H in Hr. discriminate Hr.
Qed.

(** Two characters have the same lower-case form exactly when they are
    the same letter. *)
Lemma lowerChar_eq_iff (c d : ascii) :
  lowerChar c = lowerChar d ↔ same_letter c d.
Proof.
  pose proof (N_ascii_bounded c) as Hc. pose proof (N_ascii_bounded d) as Hd.
  pose proof (N_of_lowerChar c) as Lc. pose proof (N_of_lowerChar d) as Ld.
  unfold same_letter.
  destruct (isUpper_cases c) as [[Uc Rc]|[Uc Rc]];
    destruct (isUpper_cases d) as [[Ud Rd]|[Ud Rd]];
    rewrite Uc in Lc; rewrite Ud in Ld; rewrite ?Uc, ?Ud; split.
  - intros H. left. apply N_of_ascii_inj. rewrite H in Lc. lia.
  - intros [->|[[_ H]|[_ H]]]; [done|lia|lia].
  - intros H. right. left. split; [done|]. rewrite H in Lc. lia.
  - intros H. apply N_of_ascii_inj. rewrite Lc, Ld.
    destruct H as [->|[[_ H]|[? _]]]; [lia|lia|done].
  - intros H. right. right. split; [done|]. rewrite H in Lc. lia.
  - intros H. apply N_of_ascii_inj. rewrite Lc, Ld.
    destruct H as [->|[[? _]|[_ H]]]; [lia|done|lia].
  - intros H. left. apply N_of_ascii_inj. rewrite H in Lc. lia.
  - intros H. apply N_of_ascii_inj. rewrite Lc, Ld.
    destruct H as [->|[[? _]|[? _]]]; done.
Qed.

(** On ASCII text, comparing the lower-case forms is comparing without
    case. *)
Lemma toLowerCase_ascii_eq_iff (s t : string) :
  toLowerCase_ascii s = toLowerCase_ascii t ↔ equal_ignoring_case s t.
Proof.
  split.
  - revert t. induction s as [|c s IH]; intros [|d t] H; try discriminate H.
    + constructor.
    + cbn in H. injection H as Hc Hs.
      constructor; [by apply lowerChar_eq_iff | by apply IH].
  - induction 1 as [|c d s t Hcd _ IH]; [done|].
    cbn. f_equal; [by apply lowerChar_eq_iff | done].
Qed.

Lemma same_word_true `{StringPrototype} (answer target : string) :
  same_word answer target = true
  ↔ toLowerCase (trim answer) = toLowerCase (trim target).
Proof. unfold same_word. apply String.eqb_eq. Qed.

(** ** [trim] removes the surrounding white space *)

Lemma append_cons (c : ascii) (s t : string) :
  String c s +:+ t = String c (s +:+ t).
Proof. reflexivity. Qed.

Lemma list_ascii_of_string_app (s t : string) :
  list_ascii_of_string (s +:+ t)
  = list_ascii_of_string s ++ list_ascii_of_string t.
Proof.
  induction s as [|c s IH]; [done|].
  rewrite append_cons. cbn [list_ascii_of_string app]. by rewrite IH.
Qed.

Lemma string_of_list_ascii_app (l k : list ascii) :
  string_of_list_ascii (l ++ k)
  = string_of_list_ascii l +:+ string_of_list_ascii k.
Proof.
  induction l as [|c l IH]; [done|].
  cbn [string_of_list_ascii app]. by rewrite append_cons, IH.
Qed.

Lemma string_rev_app (s t : string) :
  string_rev (s +:+ t) = string_rev t +:+ string_rev s.
Proof.
  unfold string_rev.
  by rewrite list_ascii_of_string_app, reverse_app, string_of_list_ascii_app.
Qed.

Lemma string_rev_involutive (s : string) : string_rev (string_rev s) = s.
Proof.
  unfold string_rev.
  by rewrite list_ascii_of_string_of_list_ascii, reverse_involutive,
    string_of_list_ascii_of_string.
Qed.

Lemma string_rev_whitespace (s : string) :
  all_whitespace s → all_whitespace (string_rev s).
Proof.
  unfold all_whitespace, string_rev.
  rewrite list_ascii_of_string_of_list_ascii. apply Forall_reverse.
Qed.

Lemma string_app_assoc (s t u : string) : (s +:+ t) +:+ u = s +:+ t +:+ u.
Proof. induction s as [|c s IH]; [done|]. by rewrite !append_cons, IH. Qed.

Lemma string_app_empty_r (s : string) : s +:+ "" = s.
Proof. induction s as [|c s IH]; [done|]. by rewrite append_cons, IH. Qed.

Lemma trimStart_split (s : string) :
  ∃ before,
    s = before +:+ trimStart s
    ∧ all_whitespace before
    ∧ ∀ c rest, trimStart s = String c rest → isWhiteSpace c = false.
Proof.
  induction s as [|c s (before & Hs & Hws & Hfirst)].
  - exists "". split; [done|]. split; [constructor|]. discriminate.
  - cbn [trimStart]. destruct (isWhiteSpace c) eqn:Hc.
    + exists (String c before). split; [by rewrite append_cons, <- Hs|].
      split; [by constructor | done].
    + exists "". split; [done|]. split; [constructor|].
      intros c' rest [= <- _]. done.
Qed.

Lemma trimEnd_split (s : string) :
  ∃ after,
    s = trimEnd s +:+ after
    ∧ all_whitespace after
    ∧ ∀ c front, trimEnd s = front +:+ String c "" → isWhiteSpace c = false.
Proof.
  destruct (trimStart_split (string_rev s)) as (before & Hs & Hws & Hfirst).
  exists (string_rev before). unfold trimEnd. split; [|split].
  - rewrite <- string_rev_app, <- Hs. by rewrite string_rev_involutive.
  - by apply string_rev_whitespace.
  - intros c front H. apply (f_equal string_rev) in H.
    rewrite string_rev_involutive, string_rev_app in H.
    by apply (Hfirst c (string_rev front)).
Qed.

(** [trim_ascii s] is [s] without its surrounding white space. *)
Lemma trim_trimmed_form (s : string) : trimmed_form s (trim_ascii s).
Proof.
  destruct (trimStart_split s) as (before & Hs & Hb & Hfirst).
  destruct (trimEnd_split (trimStart s)) as (after & Ht & Ha & Hlast).
  exists before, after. unfold trim_ascii. split; [|split; [done|split; [done|split]]].
  - by rewrite <- Ht.
  - intros c rest Hc. apply (Hfirst c (rest +:+ after)).
    rewrite Ht at 1. by rewrite Hc.
  - exact Hlast.
Qed.

Lemma is_ascii_app (s t : string) :
  is_ascii (s +:+ t) = is_ascii s && is_ascii t.
Proof.
  unfold is_ascii. rewrite list_ascii_of_string_app. apply forallb_app.
Qed.

(** Trimming ASCII text leaves ASCII text. *)
Lemma is_ascii_trim (s : string) :
  is_ascii s = true → is_ascii (trim_ascii s) = true.
Proof.
  destruct (trim_trimmed_form s) as (before & after & Hs & _).
  rewrite Hs at 1. rewrite !is_ascii_app, !andb_true_iff. tauto.
Qed.

(** What an engine's comparison comes to on ASCII text: letter by
    letter, up to case, on the texts without their surrounding white
    space. *)
Lemma same_word_ascii `{StringPrototype} (answer target : string) :
  agrees_on_ascii _ →
  is_ascii answer = true → is_ascii target = true →
  same_word answer target = true
  ↔ equal_ignoring_case (trim_ascii answer) (trim_ascii target).
Proof.
  intros HE Ha Ht. rewrite same_word_true.
  rewrite (proj1 (HE answer Ha)), (proj1 (HE target Ht)).
  rewrite (proj2 (HE _ (is_ascii_trim _ Ha))), (proj2 (HE _ (is_ascii_trim _ Ht))).
  apply toLowerCase_ascii_eq_iff.
Qed.

(* ===================================================================== *)
(** * Properties of the split *)
(* ===================================================================== *)

Example split_two_blanks :
  split_placeholders "I eat {{word}} and {{a pear}}."
  = ["I eat "; "{{word}}"; " and "; "{{a pear}}"; "."].
Proof. reflexivity. Qed.

Example split_trailing_blank :
  split_placeholders "a{{x}}" = ["a"; "{{x}}"; ""].
Proof. reflexivity. Qed.

Example split_empty_braces :
  split_placeholders "{{}}{{a}}" = ["{{}}"; "{{a}}"; ""].
Proof. reflexivity. Qed.

Example trim_Paris : toLowerCase_ascii (trim_ascii " Paris ") = "paris".
Proof. reflexivity. Qed.

Lemma string_length_app (s t : string) :
  String.length (s +:+ t) = (String.length s + String.length t)%nat.
Proof.
  induction s as [|c s IH]; [done|].
  rewrite append_cons. cbn [String.length]. by rewrite IH.
Qed.

Lemma substring_app_end (p q : string) :
  String.substring (String.length p) (String.length q) (p +:+ q) = q.
Proof.
  induction p as [|c p IH].
  - change ("" +:+ q) with q. cbn [String.length].
    induction q as [|d q IHq]; [done|]. cbn. by rewrite IHq.
  - rewrite append_cons. cbn [String.length String.substring]. exact IH.
Qed.

Lemma endsWith_app (p q : string) : endsWith (p +:+ q) q = true.
Proof.
  unfold endsWith. rewrite string_length_app.
  rewrite (proj2 (Nat.ltb_ge _ _)) by lia.
  replace (String.length p + String.length q - String.length q)%nat
    with (String.length p) by lia.
  rewrite substring_app_end. apply String.eqb_refl.
Qed.

(** A match of the run ends in the two closing braces. *)
Lemma match_run_close_ends (s m rest : string) :
  match_run_close s = Some (m, rest) → ∃ run, m = run +:+ "}}".
Proof.
  revert m. induction s as [|c s IH]; intros m H; [discriminate H|].
  cbn [match_run_close] in H. destruct (notClose c).
  - destruct (match_run_close s) as [[m' rest']|]; [|discriminate H].
    injection H as <- <-. destruct (IH m' eq_refl) as [run ->].
    by exists (String c run).
  - destruct s as [|c' s']; [discriminate H|].
    destruct (Ascii.eqb c' "}"); [|discriminate H].
    injection H as <- <-. by exists "".
Qed.

(** Every match of the pattern passes the test of [renderArticle]. *)
Lemma match_placeholder_isPlaceholder (s m rest : string) :
  match_placeholder s = Some (m, rest) → isPlaceholder m = true.
Proof.
  unfold match_placeholder, match_braces, match_word. intros H.
  destruct s as [|c1 [|c2 [|c s]]];
    try (destruct (String.prefix _ _); [by injection H as <- <- | discriminate H]).
  destruct (Ascii.eqb c1 "{") eqn:H1; cbn [andb] in H;
    [destruct (Ascii.eqb c2 "{") eqn:H2; cbn [andb] in H;
       [destruct (notClose c); cbn [andb] in H;
          [destruct (match_run_close s) as [[m' rest']|] eqn:Hrun|]|]|];
    try (destruct (String.prefix _ _); [by injection H as <- <- | discriminate H]).
  injection H as <- <-.
  apply Ascii.eqb_eq in H1, H2. subst c1 c2.
  destruct (match_run_close_ends _ _ _ Hrun) as [run ->].
  unfold isPlaceholder. apply andb_true_iff. split; [reflexivity|].
  change (String "{" (String "{" (String c (run +:+ "}}"))))
    with (String "{" (String "{" (String c run)) +:+ "}}").
  apply endsWith_app.
Qed.

Lemma split_from_cons (s : string) (skip : nat) (segment : string) :
  ∃ t rest, split_from s skip segment = t :: rest.
Proof.
  revert skip segment. induction s as [|c s IH]; intros skip segment.
  - by exists segment, [].
  - cbn [split_from]. destruct skip as [|k]; [|apply IH].
    destruct (match_placeholder (String c s)) as [[m ?]|]; [|apply IH].
    by exists segment, (m :: split_from s (String.length m - 1) "").
Qed.

Lemma marker_parts_cons (t m : string) (rest : list string) :
  marker_parts (t :: m :: rest) = m :: marker_parts rest.
Proof. by destruct rest. Qed.

Lemma text_parts_cons (t m : string) (rest : list string) :
  text_parts (t :: m :: rest) = t :: text_parts rest.
Proof. reflexivity. Qed.

(** The parts at odd positions of a split are matches of the pattern,
    so each passes the test of [renderArticle]. *)
Lemma split_from_markers (s : string) (skip : nat) (segment : string) :
  Forall (λ m, isPlaceholder m = true) (marker_parts (split_from s skip segment)).
Proof.
  revert skip segment. induction s as [|c s IH]; intros skip segment.
  - constructor.
  - cbn [split_from]. destruct skip as [|k]; [|apply IH].
    destruct (match_placeholder (String c s)) as [[m rest]|] eqn:Hm; [|apply IH].
    rewrite marker_parts_cons. constructor; [|apply IH].
    by apply match_placeholder_isPlaceholder in Hm.
Qed.

Lemma match_run_close_app (s m rest : string) :
  match_run_close s = Some (m, rest) → s = m +:+ rest.
Proof.
  revert m. induction s as [|c s IH]; intros m H; [discriminate H|].
  cbn [match_run_close] in H. destruct (notClose c) eqn:Hc.
  - destruct (match_run_close s) as [[m' rest']|]; [|discriminate H].
    injection H as <- <-. rewrite append_cons. f_equal. by apply IH.
  - destruct s as [|c' s']; [discriminate H|].
    destruct (Ascii.eqb c' "}") eqn:Hc'; [|discriminate H].
    injection H as <- <-. apply Ascii.eqb_eq in Hc'. subst c'.
    unfold notClose in Hc. apply negb_false_iff, Ascii.eqb_eq in Hc. by subst c.
Qed.

Lemma match_braces_app (s m rest : string) :
  match_braces s = Some (m, rest) → s = m +:+ rest.
Proof.
  unfold match_braces. destruct s as [|c1 [|c2 [|c s]]]; try discriminate.
  destruct (Ascii.eqb c1 "{" && Ascii.eqb c2 "{" && notClose c); [|discriminate].
  destruct (match_run_close s) as [[m' rest']|] eqn:Hrun; [|discriminate].
  intros [= <- <-]. rewrite !append_cons. do 3 f_equal.
  by apply match_run_close_app.
Qed.

Lemma prefix_app (p s : string) :
  String.prefix p s = true → s = p +:+ string_drop (String.length p) s.
Proof.
  revert s. induction p as [|a p IH]; intros s H; [done|].
  destruct s as [|b s]; [discriminate H|]. cbn [String.prefix] in H.
  destruct (ascii_dec a b) as [->|]; [|discriminate H].
  rewrite append_cons. cbn [String.length string_drop]. f_equal. by apply IH.
Qed.

(** The literal alternative matches only where the first alternative
    matches, with the same text. *)
Lemma match_word_braces (s m rest : string) :
  match_word s = Some (m, rest) → match_braces s = Some (m, rest).
Proof.
  unfold match_word. destruct (String.prefix "{{word}}" s) eqn:Hp; [|discriminate].
  intros [= <- <-]. apply prefix_app in Hp.
  set (rest := string_drop 8 s) in *.
  change (String.length "{{word}}") with 8%nat in Hp. fold rest in Hp.
  rewrite Hp at 1. reflexivity.
Qed.

Lemma match_placeholder_braces (s : string) :
  match_placeholder s = match_braces s.
Proof.
  unfold match_placeholder.
  destruct (match_braces s) as [r|] eqn:Hb; [done|].
  destruct (match_word s) as [[m rest]|] eqn:Hw; [|done].
  apply match_word_braces in Hw. congruence.
Qed.

Lemma string_drop_app (p s : string) :
  string_drop (String.length p) (p +:+ s) = s.
Proof. induction p as [|c p IH]; [by destruct s|]. by rewrite append_cons. Qed.

Lemma match_placeholder_app (s m rest : string) :
  match_placeholder s = Some (m, rest) → s = m +:+ rest.
Proof.
  rewrite match_placeholder_braces. apply match_braces_app.
Qed.

(** ** The pattern matches the markers, and nothing else *)

Lemma match_run_close_spec (s m rest : string) :
  match_run_close s = Some (m, rest)
  ↔ ∃ run,
      Forall (λ c, c ≠ "}"%char) (list_ascii_of_string run)
      ∧ m = run +:+ "}}" ∧ s = m +:+ rest.
Proof.
  split.
  - revert m. induction s as [|c s IH]; intros m Hm; [discriminate Hm|].
    cbn [match_run_close] in Hm. destruct (notClose c) eqn:Hc.
    + destruct (match_run_close s) as [[m' rest']|]; [|discriminate Hm].
      injection Hm as <- <-.
      destruct (IH m' eq_refl) as (run & Hrun & -> & ->).
      exists (String c run). split; [|done].
      cbn [list_ascii_of_string]. constructor; [|done].
      intros ->. discriminate Hc.
    + destruct s as [|c' s']; [discriminate Hm|].
      destruct (Ascii.eqb c' "}") eqn:Hc'; [|discriminate Hm].
      injection Hm as <- <-. apply Ascii.eqb_eq in Hc'. subst c'.
      unfold notClose in Hc. apply negb_false_iff, Ascii.eqb_eq in Hc. subst c.
      exists "". split; [constructor | done].
  - intros (run & Hrun & -> & ->).
    induction run as [|c run IH].
    + reflexivity.
    + cbn [list_ascii_of_string] in Hrun. apply Forall_cons_1 in Hrun as [Hc Hrun].
      rewrite !append_cons. cbn [match_run_close].
      assert (notClose c = true) as ->.
      { unfold notClose. apply negb_true_iff. by apply Ascii.eqb_neq. }
      by rewrite (IH Hrun).
Qed.

Lemma match_braces_spec (s m rest : string) :
  match_braces s = Some (m, rest) ↔ starts_with_marker s m rest.
Proof.
  split.
  - intros Hm. unfold match_braces in Hm.
    destruct s as [|c1 [|c2 [|c s]]]; try discriminate Hm.
    destruct (Ascii.eqb c1 "{") eqn:H1; [|discriminate Hm].
    destruct (Ascii.eqb c2 "{") eqn:H2; [|discriminate Hm].
    destruct (notClose c) eqn:Hc; [|discriminate Hm]. cbn [andb] in Hm.
    destruct (match_run_close s) as [[m' rest']|] eqn:Hrun; [|discriminate Hm].
    injection Hm as <- <-.
    apply Ascii.eqb_eq in H1, H2. subst c1 c2.
    apply match_run_close_spec in Hrun as (run & Hrun & -> & ->).
    split; [|done]. exists (String c run). split; [done|]. split; [|done].
    cbn [list_ascii_of_string]. constructor; [|done].
    intros ->. discriminate Hc.
  - intros [(body & Hne & Hbody & ->) ->].
    destruct body as [|c body]; [done|].
    cbn [list_ascii_of_string] in Hbody. apply Forall_cons_1 in Hbody as [Hc Hbody].
    change ("{{" +:+ String c body +:+ "}}")
      with (String "{" (String "{" (String c (body +:+ "}}")))).
    rewrite !append_cons. cbn [match_braces Ascii.eqb Bool.eqb andb].
    assert (notClose c = true) as ->.
    { unfold notClose. apply negb_true_iff. by apply Ascii.eqb_neq. }
    assert (match_run_close ((body +:+ "}}") +:+ rest) = Some (body +:+ "}}", rest))
      as ->; [|done].
    apply match_run_close_spec. by exists body.
Qed.

Lemma match_placeholder_spec (s m rest : string) :
  match_placeholder s = Some (m, rest) ↔ starts_with_marker s m rest.
Proof. rewrite match_placeholder_braces. apply match_braces_spec. Qed.

Lemma match_placeholder_none (s : string) :
  match_placeholder s = None → ∀ m rest, ¬ starts_with_marker s m rest.
Proof.
  intros Hnone m rest Hm. apply match_placeholder_spec in Hm. congruence.
Qed.

(** ** The split is the left-to-right scan for markers *)

Lemma split_from_splits (s : string) (skip : nat) (segment : string) :
  (skip ≤ String.length s)%nat →
  splits (string_drop skip s) segment (split_from s skip segment).
Proof.
  revert skip segment. induction s as [|c s IH]; intros skip segment Hskip.
  - cbn in Hskip. assert (skip = 0%nat) as -> by lia. constructor.
  - cbn [split_from]. destruct skip as [|k].
    + cbn [string_drop].
      destruct (match_placeholder (String c s)) as [[m rest]|] eqn:Hm.
      * pose proof (match_placeholder_app _ _ _ Hm) as Hs.
        apply match_placeholder_spec in Hm as Hmarker.
        destruct m as [|c' m'].
        { destruct Hmarker as [(body & _ & _ & Hb) _]. discriminate Hb. }
        rewrite append_cons in Hs. injection Hs as <- Hs.
        replace (String.length (String c m') - 1)%nat with (String.length m')
          by (cbn [String.length]; lia).
        apply (splits_match _ _ _ rest); [done|].
        assert (string_drop (String.length m') s = rest) as <-
          by (rewrite Hs; apply string_drop_app).
        apply IH. rewrite Hs, string_length_app. lia.
      * apply splits_step; [by apply match_placeholder_none|].
        apply (IH 0%nat). lia.
    + cbn [String.length] in Hskip. cbn [string_drop]. apply IH. lia.
Qed.

Lemma split_placeholders_splits (article : string) :
  splits article "" (split_placeholders article).
Proof.
  unfold split_placeholders.
  assert (article = string_drop 0 article) as Hd by (by destruct article).
  rewrite Hd at 1. apply split_from_splits. lia.
Qed.

(** Induction on a list two elements at a time. *)
Lemma list_pair_ind {A : Type} (P : list A → Prop) :
  P [] → (∀ x, P [x]) → (∀ x y l, P l → P (x :: y :: l)) → ∀ l, P l.
Proof.
  intros H0 H1 H2 l. enough (P l ∧ ∀ x, P (x :: l)) as [? _]; [done|].
  induction l as [|y l [IH1 IH2]]; [by split|].
  split; [apply IH2|]. intros x. by apply H2.
Qed.

(** ** The rendering *)

Section render_facts.
Variable st : AppState.

(** With text that fails the test and markers that pass it, the marker
    number [K] is the blank bound to index [K], and the blanks are
    numbered in order without a gap. *)
Lemma render_parts_markers (parts : list string) :
  Forall (λ t, isPlaceholder t = false) (text_parts parts) →
  Forall (λ m, isPlaceholder m = true) (marker_parts parts) →
  ∀ i inputIndex,
    (∀ K marker,
       marker_parts parts !! K = Some marker →
       render_parts st parts i inputIndex !! (2 * K + 1)%nat
       = Some (Input (article_input st (i + (2 * K + 1)) (inputIndex + K))))
    ∧ input_indices (render_parts st parts i inputIndex)
      = seq inputIndex (length (marker_parts parts)).
Proof.
  induction parts as [|t|t m parts IH] using list_pair_ind;
    intros Ht Hm i inputIndex.
  - split; [intros K marker H; by destruct K | done].
  - cbn in Ht. apply Forall_cons_1 in Ht as [Ht _].
    cbn [render_parts]. rewrite Ht.
    split; [intros K marker H; by destruct K|].
    by destruct (String.eqb t "").
  - rewrite text_parts_cons in Ht. rewrite marker_parts_cons in Hm.
    apply Forall_cons_1 in Ht as [Ht Hts]. apply Forall_cons_1 in Hm as [Hm Hms].
    destruct (IH Hts Hms (S (S i)) (S inputIndex)) as [IHK IHi].
    cbn [render_parts]. rewrite Ht, Hm. rewrite marker_parts_cons.
    split.
    + intros [|K] marker HK.
      * cbn. do 3 f_equal; lia.
      * cbn in HK. specialize (IHK K marker HK).
        replace (2 * S K + 1)%nat with (S (S (2 * K + 1))) by lia.
        replace (i + S (S (2 * K + 1)))%nat with (S (S i) + (2 * K + 1))%nat by lia.
        replace (inputIndex + S K)%nat with (S inputIndex + K)%nat by lia.
        exact IHK.
    + cbn [length seq]. destruct (String.eqb t ""); cbn; by rewrite IHi.
Qed.

(** Whatever the parts, the blanks are the parts that pass the test,
    numbered in order. *)
Lemma render_parts_input_indices (parts : list string) (i inputIndex : nat) :
  input_indices (render_parts st parts i inputIndex)
  = seq inputIndex (length (filter (λ p, isPlaceholder p = true) parts)).
Proof.
  revert i inputIndex. induction parts as [|p parts IH]; intros i inputIndex; [done|].
  cbn [render_parts]. rewrite filter_cons.
  destruct (isPlaceholder p) eqn:Hp.
  - rewrite decide_True by done. cbn. by rewrite IH.
  - rewrite decide_False by done.
    destruct (String.eqb p ""); cbn; by rewrite IH.
Qed.
End render_facts.

(* ===================================================================== *)
(** * Properties of the handlers *)
(* ===================================================================== *)

(** Runs a handler on a world given by its four components. *)
Ltac run_handler :=
  cbv [mbind mret M_bind M_ret get_app modify_app emit throw await
       try_catch_finally get_audioContextRef set_audioContextRef
       get_audioSourceRef set_audioSourceRef
       setTopic setIsLoading setError setLesson setLessonImage
       setUserAnswers setIsCorrect setShowResults setShuffledWords
       setIsAudioLoading setIsAudioPlaying setNextTopicCooldown
       appState audioContextRef audioSourceRef effects].

(** ** Audio playback *)

Section audio_facts.
Variable atob : string → Settled (list Z).
Variable decodeAudioData : list Z → Settled (list Z).

Lemma handleListen_guard (text : string) (speech : Settled (option string))
    (w : World) :
  isAudioLoading (appState w) = true ∨ isAudioPlaying (appState w) = true →
  handleListen atob decodeAudioData text speech w = (inr tt, w).
Proof.
  intros H. destruct w as [st ctx src eff]. unfold handleListen.
  run_handler. destruct (lesson st); [|done].
  destruct H as [H|H]; cbn in H; rewrite H; [done|].
  by destruct (isAudioLoading st).
Qed.

(** C10. Without a lesson, [handleListen] returns at once: it throws
    nothing and leaves the world as it was, so the error, the two audio
    flags and the two audio references keep their values and no request
    (no effect at all) is issued, whatever the text. *)
Theorem handleListen_no_lesson (textToListen : string)
    (speech : Settled (option string)) (w : World) :
  lesson (appState w) = None →
  handleListen atob decodeAudioData textToListen speech w = (inr tt, w).
Proof.
  intros H. destruct w as [st ctx src eff]. unfold handleListen.
  run_handler. cbn in H. by rewrite H.
Qed.

(** C7. A run of [handleListen] that passes the guard and fails, by a
    rejected request, a response without payload, a payload that is not
    base64 or audio that cannot be decoded, ends without throwing, with
    the error message shown, the loading flag false, the playing flag
    false, and the playing handle as it was before the run. *)
Theorem handleListen_failure (textToListen : string)
    (speech : Settled (option string)) (message : string)
    (w : World) (current : Lesson) :
  lesson (appState w) = Some current →
  isAudioLoading (appState w) = false →
  isAudioPlaying (appState w) = false →
  listen_failure atob decodeAudioData speech message →
  ∃ w',
    handleListen atob decodeAudioData textToListen speech w = (inr tt, w')
    ∧ error (appState w') = Some ("Failed to play audio: " +:+ message)
    ∧ isAudioLoading (appState w') = false
    ∧ isAudioPlaying (appState w') = false
    ∧ audioSourceRef w' = audioSourceRef w.
Proof.
  intros Hl Hload Hplay Hfail. destruct w as [st ctx src eff].
  cbn in Hl, Hload, Hplay. unfold handleListen. run_handler.
  rewrite Hl, Hload, Hplay. cbn [orb].
  destruct Hfail as [m| | |b64 m Hne Hatob|b64 pcm wav m Hne Hatob Hwav Hdec].
  - destruct src; eexists; (split; [reflexivity|]); by destruct st.
  - destruct src; eexists; (split; [reflexivity|]); by destruct st.
  - destruct src; eexists; (split; [reflexivity|]); by destruct st.
  - apply String.eqb_neq in Hne.
    destruct src; rewrite Hne, Hatob; eexists; (split; [reflexivity|]);
      by destruct st.
  - apply String.eqb_neq in Hne.
    destruct src; rewrite Hne, Hatob, Hwav; clear Hwav; destruct ctx as [[]|];
      rewrite Hdec; eexists; (split; [reflexivity|]); by destruct st.
Qed.

(** A run that passes the guard and meets no failure plays the audio:
    the container of [pcmToWav] goes to the decoder, and the source is
    recorded as playing. *)
Lemma handleListen_plays (textToListen b64 : string)
    (pcmData audioBuffer : list Z) (w : World) (current : Lesson) :
  lesson (appState w) = Some current →
  isAudioLoading (appState w) = false →
  isAudioPlaying (appState w) = false →
  b64 ≠ "" →
  atob b64 = Resolves pcmData →
  decodeAudioData (wav_header (Z.of_nat (length pcmData))
                     (num 24000) (num 1) (num 16) ++ pcmData)
  = Resolves audioBuffer →
  ∃ w',
    handleListen atob decodeAudioData textToListen (Resolves (Some b64)) w
    = (inr tt, w')
    ∧ error (appState w') = None
    ∧ isAudioLoading (appState w') = false
    ∧ isAudioPlaying (appState w') = true
    ∧ audioSourceRef w' = Some audioBuffer
    ∧ audioContextRef w' = Some Running.
Proof.
  intros Hl Hload Hplay Hne Hatob Hdec. destruct w as [st ctx src eff].
  cbn in Hl, Hload, Hplay. apply String.eqb_neq in Hne.
  unfold handleListen. run_handler.
  rewrite Hl, Hload, Hplay, Hne. cbn [orb].
  destruct src; rewrite Hatob, pcmToWav_eq; destruct ctx as [[]|];
    rewrite Hdec; eexists; (split; [reflexivity|]); by destruct st.
Qed.

(** Past the guard a run either fails in one of the listed ways or
    decodes its audio. *)
Lemma listen_failure_or_decoded (speech : Settled (option string)) :
  (∃ message, listen_failure atob decodeAudioData speech message)
  ∨ ∃ b64 pcmData audioBuffer,
      speech = Resolves (Some b64) ∧ b64 ≠ ""
      ∧ atob b64 = Resolves pcmData
      ∧ decodeAudioData (wav_header (Z.of_nat (length pcmData))
                           (num 24000) (num 1) (num 16)
                         ++ pcmData) = Resolves audioBuffer.
Proof.
  destruct speech as [message|[b64|]].
  - left. eexists. constructor.
  - destruct (decide (b64 = "")) as [->|Hne]; [left; eexists; constructor|].
    destruct (atob b64) as [message|pcmData] eqn:Hatob.
    + left. exists message. by apply base64_fails.
    + destruct (decodeAudioData
                  (wav_header (Z.of_nat (length pcmData))
                     (num 24000) (num 1) (num 16) ++ pcmData))
        as [message|audioBuffer] eqn:Hdec.
      * left. exists message.
        eapply decode_fails; [done..|apply pcmToWav_eq|done].
      * right. by exists b64, pcmData, audioBuffer.
  - left. eexists. constructor.
Qed.

(** When the audio ends, the playing flag and the handle are cleared. *)
Lemma source_onended_clears (w : World) :
  ∃ w',
    source_onended w = (inr tt, w')
    ∧ isAudioPlaying (appState w') = false
    ∧ audioSourceRef w' = None
    ∧ effects w' = effects w.
Proof.
  destruct w as [st ctx src eff]. unfold source_onended. run_handler.
  eexists. split; [reflexivity|]. done.
Qed.
End audio_facts.

Lemma handleListen_no_lesson_witness :
  handleListen (λ _, Rejects "not base64") (λ _, Rejects "not audio")
    "bread" (Resolves (Some "AAAA")) initial_world
  = (inr tt, initial_world).
Proof.
  apply (handleListen_no_lesson (λ _, Rejects "not base64")
           (λ _, Rejects "not audio") "bread" (Resolves (Some "AAAA"))
           initial_world).
  reflexivity.
Defined.

Lemma handleListen_failure_witness :
  ∃ w',
    handleListen (λ _, Rejects "not base64") (λ _, Rejects "not audio")
      "bread" (Resolves None) bread_world = (inr tt, w')
    ∧ error (appState w') = Some ("Failed to play audio: " +:+ no_audio_message)
    ∧ isAudioLoading (appState w') = false
    ∧ isAudioPlaying (appState w') = false
    ∧ audioSourceRef w' = audioSourceRef bread_world.
Proof.
  apply (handleListen_failure (λ _, Rejects "not base64")
           (λ _, Rejects "not audio") "bread" (Resolves None) no_audio_message
           bread_world bread_lesson);
    [reflexivity | reflexivity | reflexivity | constructor].
Defined.

(** ** Lesson generation *)

(** The four ways a run of [generateLesson] ends. *)
Lemma generateLesson_content_rejected (rand : nat → Q) (currentTopic message : string)
    (image : Settled string) (w : World) :
  ∃ w',
    generateLesson rand currentTopic (Rejects message) image w = (inr tt, w')
    ∧ lesson (appState w') = None
    ∧ error (appState w') = Some (generation_error message)
    ∧ isLoading (appState w') = false
    ∧ nextTopicCooldown (appState w') = 5%nat.
Proof.
  destruct w as [st ctx src eff]. unfold generateLesson. run_handler.
  eexists. split; [reflexivity|]. done.
Qed.

Lemma generateLesson_invalid (rand : nat → Q) (currentTopic : string)
    (lessonData : Lesson) (image : Settled string) (w : World) :
  targetWords lessonData = None ∨ targetWords lessonData = Some [] →
  ∃ w',
    generateLesson rand currentTopic (Resolves lessonData) image w = (inr tt, w')
    ∧ lesson (appState w') = None
    ∧ error (appState w') = Some (generation_error invalid_lesson_message)
    ∧ isLoading (appState w') = false
    ∧ nextTopicCooldown (appState w') = 5%nat
    ∧ effects w'
      = effects w
        ++ [GenerateContent (language (appState w)) currentTopic
                (difficulty (appState w));
            ConsoleError "Failed to generate lesson:"].
Proof.
  intros H. destruct w as [st ctx src eff]. unfold generateLesson. run_handler.
  destruct H as [-> | ->]; cbn [length Nat.eqb];
    (eexists; split; [reflexivity|]); cbn; by rewrite <- app_assoc.
Qed.

Lemma generateLesson_image_rejected (rand : nat → Q) (currentTopic message : string)
    (lessonData : Lesson) (words : list string) (w : World) :
  targetWords lessonData = Some words → words ≠ [] →
  ∃ w',
    generateLesson rand currentTopic (Resolves lessonData) (Rejects message) w
    = (inr tt, w')
    ∧ lesson (appState w') = Some lessonData
    ∧ userAnswers (appState w') = replicate (length words) (Value "")
    ∧ isCorrect (appState w') = []
    ∧ shuffledWords (appState w') = shuffleArray_value rand (Some <$> words)
    ∧ showResults (appState w') = false
    ∧ lessonImage (appState w') = None
    ∧ error (appState w') = Some (generation_error message)
    ∧ isLoading (appState w') = false
    ∧ nextTopicCooldown (appState w') = 5%nat.
Proof.
  intros Hw Hne. destruct w as [st ctx src eff]. unfold generateLesson.
  run_handler. rewrite Hw.
  destruct words as [|x words]; [done|]. cbn [length Nat.eqb].
  eexists. split; [reflexivity|]. done.
Qed.

Lemma generateLesson_complete (rand : nat → Q) (currentTopic base64 : string)
    (lessonData : Lesson) (words : list string) (w : World) :
  targetWords lessonData = Some words → words ≠ [] →
  ∃ w',
    generateLesson rand currentTopic (Resolves lessonData) (Resolves base64) w
    = (inr tt, w')
    ∧ lesson (appState w') = Some lessonData
    ∧ userAnswers (appState w') = replicate (length words) (Value "")
    ∧ isCorrect (appState w') = []
    ∧ shuffledWords (appState w') = shuffleArray_value rand (Some <$> words)
    ∧ showResults (appState w') = false
    ∧ lessonImage (appState w') = Some ("data:image/jpeg;base64," +:+ base64)
    ∧ error (appState w') = None
    ∧ isLoading (appState w') = false
    ∧ nextTopicCooldown (appState w') = 5%nat.
Proof.
  intros Hw Hne. destruct w as [st ctx src eff]. unfold generateLesson.
  run_handler. rewrite Hw.
  destruct words as [|x words]; [done|]. cbn [length Nat.eqb].
  eexists. split; [reflexivity|]. done.
Qed.

(** A lesson's words are absent, empty, or a non-empty list. *)
Lemma targetWords_cases (lessonData : Lesson) :
  (targetWords lessonData = None ∨ targetWords lessonData = Some [])
  ∨ ∃ words, targetWords lessonData = Some words ∧ words ≠ [].
Proof.
  destruct (targetWords lessonData) as [[|x words]|]; eauto.
Qed.

(** C2. For every parsed response, [generateLesson] ends without a
    lesson exactly when [targetWords] is absent or empty, and then the
    error shown is the one of the invalid lesson data; a response with a
    non-empty [targetWords] is stored as the lesson: the number of
    markers in its article is not looked at, so a response whose word
    count differs from it is accepted all the same. *)
Theorem generateLesson_rejects_exactly_missing_words (rand : nat → Q)
    (currentTopic : string) (lessonData : Lesson) (image : Settled string)
    (w : World) :
  ∃ w',
    generateLesson rand currentTopic (Resolves lessonData) image w = (inr tt, w')
    ∧ (lesson (appState w') = None
       ↔ targetWords lessonData = None ∨ targetWords lessonData = Some [])
    ∧ (lesson (appState w') = None
       → error (appState w') = Some (generation_error invalid_lesson_message))
    ∧ (∀ words,
         targetWords lessonData = Some words → words ≠ [] →
         lesson (appState w') = Some lessonData).
Proof.
  destruct (targetWords_cases lessonData) as [Hbad|(words & Hw & Hne)].
  - destruct (generateLesson_invalid rand currentTopic lessonData image w Hbad)
      as (w' & Hrun & Hl & He & _).
    exists w'. split; [done|]. split; [done|]. split; [done|].
    intros words Hw Hne. destruct Hbad; congruence.
  - assert (∃ w', generateLesson rand currentTopic (Resolves lessonData) image w
                  = (inr tt, w') ∧ lesson (appState w') = Some lessonData)
      as (w' & Hrun & Hl).
    { destruct image as [message|base64].
      - destruct (generateLesson_image_rejected rand currentTopic message
                    lessonData words w Hw Hne) as (w' & ? & ? & _). eauto.
      - destruct (generateLesson_complete rand currentTopic base64
                    lessonData words w Hw Hne) as (w' & ? & ? & _). eauto. }
    exists w'. split; [done|]. split; [|split; [congruence | done]].
    split; [congruence|]. intros [?|?]; congruence.
Qed.

(** A response with one word and no marker at all is stored as the
    lesson. *)
Example generateLesson_accepts_mismatch :
  let lessonData :=
    {| title := "Food"; languageCode := "en-US";
       article := "I eat bread every day.";
       targetWords := Some ["bread"]; nextTopicSuggestion := "Drinks" |} in
  length (marker_parts (split_placeholders (article lessonData))) = 0%nat
  ∧ lesson (appState (generateLesson (λ _, 0%Q) "food" (Resolves lessonData)
                        (Resolves "AAAA") initial_world).2)
    = Some lessonData.
Proof. split; reflexivity. Qed.




(** ** The exercise handlers *)

(** C8. With the results shown, [handleAnswerChange] changes nothing.
    Otherwise it replaces the answers by an array that reads [value] at
    [index] and reads at every other index as before, and leaves the
    other cells (among them [isCorrect], [showResults] and
    [shuffledWords]), the audio references and the effects as they
    were. *)
Theorem handleAnswerChange_frame (index : nat) (value : string) (w : World) :
  (showResults (appState w) = true →
   handleAnswerChange index value w = (inr tt, w))
  ∧ (showResults (appState w) = false →
     ∃ w',
       handleAnswerChange index value w = (inr tt, w')
       ∧ sparse_get (userAnswers (appState w')) (Z.of_nat index) = Some value
       ∧ (∀ k, k ≠ Z.of_nat index →
            sparse_get (userAnswers (appState w')) k
            = sparse_get (userAnswers (appState w)) k)
       ∧ isCorrect (appState w') = isCorrect (appState w)
       ∧ showResults (appState w') = showResults (appState w)
       ∧ shuffledWords (appState w') = shuffledWords (appState w)
       ∧ appState w' = with_userAnswers (userAnswers (appState w')) (appState w)
       ∧ audioContextRef w' = audioContextRef w
       ∧ audioSourceRef w' = audioSourceRef w
       ∧ effects w' = effects w).
Proof.
  destruct w as [st ctx src eff]. unfold handleAnswerChange. run_handler.
  split; intros H; cbn in H; rewrite H; [done|].
  eexists. split; [reflexivity|]. cbn.
  split; [by rewrite sparse_get_set_eq by lia|].
  split; [|done].
  intros k Hk. by rewrite sparse_get_set_ne, sparse_get_spread.
Qed.

Lemma handleAnswerChange_frame_witness :
  showResults (appState bread_world) = false
  ∧ ∃ w',
      handleAnswerChange 0 "Bread" bread_world = (inr tt, w')
      ∧ sparse_get (userAnswers (appState w')) 0 = Some "Bread"
      ∧ shuffledWords (appState w') = [Some "bread"].
Proof.
  split; [reflexivity|].
  destruct (proj2 (handleAnswerChange_frame 0 "Bread" bread_world) eq_refl)
    as (w' & Hrun & Hget & _ & _ & _ & Hbank & _).
  exists w'. split; [exact Hrun|]. split; [exact Hget|]. exact Hbank.
Defined.

(** A blank past the end of the answers makes the array grow; the blank
    between is a hole, which reads as [undefined]. *)
Example handleAnswerChange_grows :
  userAnswers (appState (handleAnswerChange 2 "x" bread_world).2)
  = [Value ""; Hole; Value "x"].
Proof. reflexivity. Qed.

(** The next edit copies the array, and the copy has [undefined] where
    the hole was: two edits give different arrays in their two orders
    when one of them makes the array grow. *)
Example handleAnswerChange_hole_copied :
  userAnswers (appState
    ((handleAnswerChange 2 "x";; handleAnswerChange 0 "y") bread_world).2)
  = [Value "y"; Undefined; Value "x"]
  ∧ userAnswers (appState
      ((handleAnswerChange 0 "y";; handleAnswerChange 2 "x") bread_world).2)
    = [Value "y"; Hole; Value "x"].
Proof. split; reflexivity. Qed.

Section check_facts.
Context `{StringPrototype}.

(** [map] over answers that are all strings, from index [k] on. *)
Lemma check_from_aligned (words : list string) (k : nat) (typed : list string) :
  (k + length typed ≤ length words)%nat →
  ∃ results,
    check_from (Some words) k (Value <$> typed) = Some results
    ∧ length results = length typed
    ∧ ∀ i answer target,
        typed !! i = Some answer → words !! (k + i)%nat = Some target →
        results !! i = Some (Some (same_word answer target)).
Proof.
  revert k. induction typed as [|answer typed IH]; intros k Hlen.
  - exists []. split; [done|]. split; [done|]. intros i ? ? Hi. by destruct i.
  - cbn [length] in Hlen.
    destruct (IH (S k)) as (results & Hrs & Hl & Hi); [lia|].
    destruct (lookup_lt_is_Some_2 words k) as [target Ht]; [lia|].
    exists (Some (same_word answer target) :: results).
    cbn [fmap list_fmap check_from mbind option_bind]. rewrite Ht. cbn.
    fold (fmap (M := list) (@Value string) typed). rewrite Hrs. cbn.
    split; [done|]. split; [by rewrite Hl|].
    intros [|i] answer' target' Ha Hw; cbn in Ha.
    + rewrite Nat.add_0_r in Hw. cbn. congruence.
    + cbn. apply Hi; [done|]. by rewrite <- Nat.add_succ_comm in Hw.
Qed.

Lemma handleCheckAnswers_aligned (w : World) (current : Lesson)
    (words answers : list string) :
  lesson (appState w) = Some current →
  targetWords current = Some words →
  userAnswers (appState w) = Value <$> answers →
  length answers = length words →
  ∃ results,
    handleCheckAnswers w
    = (inr tt,
       {| appState := with_showResults true (with_isCorrect results (appState w));
          audioContextRef := audioContextRef w;
          audioSourceRef := audioSourceRef w;
          effects := effects w |})
    ∧ length results = length words
    ∧ ∀ i answer target,
        answers !! i = Some answer → words !! i = Some target →
        results !! i = Some (Some (same_word answer target)).
Proof.
  destruct w as [st ctx src eff]. intros Hl Hw Ha Hlen. cbn in Hl, Hw, Ha.
  destruct (check_from_aligned words 0 answers) as (results & Hr & Hn & Hi);
    [cbn; lia|].
  exists results. unfold handleCheckAnswers. run_handler.
  rewrite Hl, Hw, Ha, Hr. split; [reflexivity|]. split; [congruence|]. exact Hi.
Qed.

(** C4. With a lesson on the page and one answer, a string, for each
    target word, [handleCheckAnswers] throws nothing, shows the results,
    and fills [isCorrect] index by index: the entry at [i] is [true]
    exactly when the answer and the target word at [i] are equal after
    [trim] and [toLowerCase], which on ASCII text is equality letter by
    letter, up to case, of the two without their surrounding white space.
    So [" Paris "] matches ["paris"], and in the scenario of the word
    [bread] the answer ["Bread"] gives [isCorrect = [true]]. *)
Theorem handleCheckAnswers_compares :
  (∀ (w : World) (current : Lesson) (words answers : list string),
     lesson (appState w) = Some current →
     targetWords current = Some words →
     userAnswers (appState w) = Value <$> answers →
     length answers = length words →
     ∃ results,
       handleCheckAnswers w
       = (inr tt,
          {| appState := with_showResults true (with_isCorrect results (appState w));
             audioContextRef := audioContextRef w;
             audioSourceRef := audioSourceRef w;
             effects := effects w |})
       ∧ length results = length words
       ∧ ∀ i answer target,
           answers !! i = Some answer →
           words !! i = Some target →
           ∃ b : bool,
             results !! i = Some (Some b)
             ∧ (b = true ↔ toLowerCase (trim answer) = toLowerCase (trim target))
             ∧ (agrees_on_ascii _ →
                is_ascii answer = true → is_ascii target = true →
                (b = true
                 ↔ equal_ignoring_case (trim_ascii answer) (trim_ascii target))))
  ∧ (agrees_on_ascii _ →
     same_word " Paris " "paris" = true
     ∧ isCorrect (appState (handleCheckAnswers bread_answered).2) = [Some true]
     ∧ showResults (appState (handleCheckAnswers bread_answered).2) = true).
Proof.
  split.
  - intros w current words answers Hl Hw Ha Hlen.
    destruct (handleCheckAnswers_aligned w current words answers Hl Hw Ha Hlen)
      as (results & Hrun & Hn & Hi).
    exists results. split; [done|]. split; [done|].
    intros i answer target Hai Ht. exists (same_word answer target).
    split; [by apply Hi|]. split; [apply same_word_true|].
    intros HE ? ?. by apply same_word_ascii.
  - intros HE.
    assert (same_word " Paris " "paris" = true) as HParis.
    { apply same_word_ascii; [exact HE | reflexivity | reflexivity |].
      apply toLowerCase_ascii_eq_iff. vm_compute. reflexivity. }
    assert (same_word "Bread" "bread" = true) as HBread.
    { apply same_word_ascii; [exact HE | reflexivity | reflexivity |].
      apply toLowerCase_ascii_eq_iff. vm_compute. reflexivity. }
    split; [exact HParis|].
    unfold handleCheckAnswers, bread_answered. run_handler.
    cbn [lesson with_userAnswers with_lesson userAnswers targetWords bread_lesson
         bread_world appState check_from mbind option_bind fmap option_fmap
         option_map lookup list_lookup].
    rewrite HBread. split; reflexivity.
Qed.

(** A successful check leaves the lesson and the answers as they were. *)
Lemma handleCheckAnswers_inv (w w' : World) :
  handleCheckAnswers w = (inr tt, w') →
  (lesson (appState w) = None ∧ w' = w)
  ∨ ∃ current results,
      lesson (appState w) = Some current
      ∧ check_from (targetWords current) 0 (userAnswers (appState w)) = Some results
      ∧ w' = {| appState := with_showResults true
                              (with_isCorrect results (appState w));
                audioContextRef := audioContextRef w;
                audioSourceRef := audioSourceRef w;
                effects := effects w |}.
Proof.
  destruct w as [st ctx src eff]. unfold handleCheckAnswers. run_handler.
  destruct (lesson st) as [current|] eqn:Hl.
  - destruct (check_from (targetWords current) 0 (userAnswers st))
      as [results|] eqn:Hc; [|discriminate].
    intros [= <-]. right. by exists current, results.
  - intros [= <-]. by left.
Qed.
End check_facts.

Lemma handleCheckAnswers_compares_witness :
  agrees_on_ascii ascii_strings
  ∧ same_word (H := ascii_strings) " Paris " "paris" = true
  ∧ isCorrect (appState (handleCheckAnswers (H := ascii_strings) bread_answered).2)
    = [Some true].
Proof.
  assert (agrees_on_ascii ascii_strings) as HE by (intros s _; split; reflexivity).
  split; [exact HE|].
  destruct (proj2 (handleCheckAnswers_compares (H := ascii_strings)) HE)
    as (HP & HB & _).
  split; [exact HP | exact HB].
Defined.

(** A blank filled past the last target word makes the check throw: the
    results stay hidden. *)
Example handleCheckAnswers_throws :
  let w := (handleAnswerChange 1 "x" bread_world).2 in
  handleCheckAnswers (H := ascii_strings) w
  = (inl "TypeError: Cannot read properties of undefined (reading 'trim')", w).
Proof. vm_compute. reflexivity. Qed.

(** ** The next topic *)

Lemma handleNextTopic_noop (w : World) :
  (∀ current, lesson (appState w) = Some current →
              nextTopicSuggestion current = ""
              ∨ nextTopicCooldown (appState w) ≠ 0%nat) →
  handleNextTopic w = (inr tt, w).
Proof.
  intros H. destruct w as [st ctx src eff]. unfold handleNextTopic.
  run_handler. cbn in H. destruct (lesson st) as [current|]; [|done].
  destruct (H current eq_refl) as [-> | Hc]; [done|].
  apply Nat.eqb_neq in Hc. rewrite Hc. by rewrite andb_false_r.
Qed.

(** What the handler has done when it returns: the topic is the
    suggestion, and the run of [generateLesson] for it has cleared the
    page and issued its content request. *)
Lemma handleNextTopic_advances (w : World) (current : Lesson) :
  lesson (appState w) = Some current →
  nextTopicSuggestion current ≠ "" →
  nextTopicCooldown (appState w) = 0%nat →
  ∃ w',
    handleNextTopic w = (inr tt, w')
    ∧ topic (appState w') = nextTopicSuggestion current
    ∧ effects w'
      = effects w
        ++ [GenerateContent (language (appState w)) (nextTopicSuggestion current)
              (difficulty (appState w))]
    ∧ isLoading (appState w') = true
    ∧ lesson (appState w') = None
    ∧ showResults (appState w') = false
    ∧ nextTopicCooldown (appState w') = 0%nat
    ∧ w' = (generateLesson_start (nextTopicSuggestion current)
              (setTopic (nextTopicSuggestion current) w).2).2.
Proof.
  intros Hl Hs Hc. destruct w as [st ctx src eff]. cbn in Hl, Hc.
  apply String.eqb_neq in Hs.
  unfold handleNextTopic, generateLesson_start. run_handler.
  rewrite Hl, Hs, Hc. cbn [negb andb Nat.eqb].
  eexists. split; [reflexivity|]. cbn. done.
Qed.

(** A run of [generateLesson] is its three stretches, one after the
    other. *)
Lemma generateLesson_stretches (rand : nat → Q) (currentTopic : string)
    (content : Settled Lesson) (image : Settled string) (w : World) :
  generateLesson rand currentTopic content image w
  = (generateLesson_start currentTopic;;
     pending ← generateLesson_content rand content;
     if pending : bool then generateLesson_image image else mret tt) w.
Proof.
  destruct w as [st ctx src eff].
  unfold generateLesson, generateLesson_start, generateLesson_content,
    generateLesson_image, generateLesson_catch, generateLesson_finally.
  run_handler.
  destruct content as [message|lessonData]; [reflexivity|].
  destruct (targetWords lessonData) as [[|x words]|]; cbn [length Nat.eqb];
    [reflexivity| |reflexivity].
  destruct image; reflexivity.
Qed.

(** Each stretch that ends the run ends it with the cooldown at 5,
    whatever has happened to the state since the run began. *)
Lemma generateLesson_content_end (rand : nat → Q) (content : Settled Lesson)
    (w : World) :
  ∃ pending w',
    generateLesson_content rand content w = (inr pending, w')
    ∧ (pending = false →
       nextTopicCooldown (appState w') = 5%nat
       ∧ isLoading (appState w') = false).
Proof.
  destruct w as [st ctx src eff].
  unfold generateLesson_content, generateLesson_catch, generateLesson_finally.
  run_handler.
  destruct content as [message|lessonData];
    [eexists _, _; split; [reflexivity|done]|].
  destruct (targetWords lessonData) as [[|x words]|]; cbn [length Nat.eqb];
    eexists _, _; (split; [reflexivity|done]).
Qed.

Lemma generateLesson_image_end (image : Settled string) (w : World) :
  ∃ w',
    generateLesson_image image w = (inr tt, w')
    ∧ nextTopicCooldown (appState w') = 5%nat
    ∧ isLoading (appState w') = false.
Proof.
  destruct w as [st ctx src eff].
  unfold generateLesson_image, generateLesson_catch, generateLesson_finally.
  run_handler. destruct image; eexists; (split; [reflexivity|done]).
Qed.

(** The stretch after the content request, when it brings a lesson:
    the exercise is set up and the image request issued; the cooldown is
    not touched. *)
Lemma generateLesson_content_lesson (rand : nat → Q) (lessonData : Lesson)
    (words : list string) (w : World) :
  targetWords lessonData = Some words → words ≠ [] →
  ∃ w',
    generateLesson_content rand (Resolves lessonData) w = (inr true, w')
    ∧ lesson (appState w') = Some lessonData
    ∧ userAnswers (appState w') = replicate (length words) (Value "")
    ∧ nextTopicCooldown (appState w') = nextTopicCooldown (appState w)
    ∧ language (appState w') = language (appState w)
    ∧ difficulty (appState w') = difficulty (appState w)
    ∧ effects w' = effects w ++ [GenerateImages (imagePrompt (title lessonData))].
Proof.
  intros Hw Hne. destruct w as [st ctx src eff].
  unfold generateLesson_content. run_handler. rewrite Hw.
  destruct words as [|x words]; [done|]. cbn [length Nat.eqb].
  eexists. split; [reflexivity|]. done.
Qed.

Lemma generateLesson_cooldown (rand : nat → Q) (currentTopic : string)
    (content : Settled Lesson) (image : Settled string) (w : World) :
  ∃ w',
    generateLesson rand currentTopic content image w = (inr tt, w')
    ∧ nextTopicCooldown (appState w') = 5%nat.
Proof.
  destruct content as [message|lessonData].
  - destruct (generateLesson_content_rejected rand currentTopic message image w)
      as (w' & ? & _ & _ & _ & ?). eauto.
  - destruct (targetWords_cases lessonData) as [Hbad|(words & Hw & Hne)].
    + destruct (generateLesson_invalid rand currentTopic lessonData image w Hbad)
        as (w' & ? & _ & _ & _ & ? & _). eauto.
    + destruct image as [message|base64].
      * destruct (generateLesson_image_rejected rand currentTopic message
                    lessonData words w Hw Hne) as (w' & ? & H).
        exists w'. split; [done|]. apply H.
      * destruct (generateLesson_complete rand currentTopic base64
                    lessonData words w Hw Hne) as (w' & ? & H).
        exists w'. split; [done|]. apply H.
Qed.

(** The cooldown that a run of [generateLesson] starts is over after
    five ticks of the timer, and not before. *)
Lemma cooldown_five_ticks (w : World) :
  nextTopicCooldown (appState w) = 5%nat →
  ∃ w4 w5,
    (cooldown_tick;; cooldown_tick;; cooldown_tick;; cooldown_tick) w = (inr tt, w4)
    ∧ nextTopicCooldown (appState w4) = 1%nat
    ∧ cooldown_tick w4 = (inr tt, w5)
    ∧ nextTopicCooldown (appState w5) = 0%nat
    ∧ cooldown_tick w5 = (inr tt, w5).
Proof.
  intros H. destruct w as [st ctx src eff]. cbn in H.
  unfold cooldown_tick. run_handler. cbn. rewrite H. cbn.
  eexists _, _. split; [reflexivity|]. cbn. done.
Qed.

Lemma nextTopicButton_gate (st : AppState) :
  nextTopicButton_clickable st = true
  ↔ is_Some (lesson st) ∧ showResults st = true ∧ nextTopicCooldown st = 0%nat.
Proof.
  unfold nextTopicButton_clickable, nextTopicButton_rendered,
    nextTopicButton_disabled.
  rewrite !andb_true_iff, negb_true_iff, bool_decide_eq_true, Nat.ltb_ge.
  split; [intros [[? ?] ?] | intros (? & ? & ?)]; repeat split; try done; lia.
Qed.

Lemma nextTopicButton_onClick_eq (w : World) :
  nextTopicButton_onClick w
  = if nextTopicButton_clickable (appState w) then handleNextTopic w
    else (inr tt, w).
Proof.
  destruct w as [st ctx src eff]. unfold nextTopicButton_onClick. run_handler.
  by destruct (nextTopicButton_clickable st).
Qed.

(** C6. A call of [handleNextTopic] comes from a click on the Next
    Topic button, which is in the page only with the results shown and
    gives no click while the cooldown runs. With the results hidden or
    the cooldown above 0 a click changes nothing; a click that changes
    something finds the results shown and the cooldown at 0, and with
    these and a suggested topic it sets the topic to the suggestion and
    starts a run of [generateLesson] for it, which issues its content
    request. The handler by itself changes nothing while the cooldown
    runs. Every run of [generateLesson] ends with the cooldown at 5,
    whatever its outcome: this holds of the run as a whole and of each
    stretch that ends it, whatever else has run in between. *)
Theorem handleNextTopic_gate (w : World) :
  (showResults (appState w) = false ∨ (0 < nextTopicCooldown (appState w))%nat →
   nextTopicButton_onClick w = (inr tt, w))
  ∧ (nextTopicButton_onClick w ≠ (inr tt, w) →
     showResults (appState w) = true
     ∧ nextTopicCooldown (appState w) = 0%nat
     ∧ ∃ current,
         lesson (appState w) = Some current ∧ nextTopicSuggestion current ≠ "")
  ∧ (∀ current,
       lesson (appState w) = Some current →
       nextTopicSuggestion current ≠ "" →
       showResults (appState w) = true →
       nextTopicCooldown (appState w) = 0%nat →
       ∃ w',
         nextTopicButton_onClick w = (inr tt, w')
         ∧ topic (appState w') = nextTopicSuggestion current
         ∧ effects w'
           = effects w
             ++ [GenerateContent (language (appState w))
                   (nextTopicSuggestion current) (difficulty (appState w))]
         ∧ w' = (generateLesson_start (nextTopicSuggestion current)
                   (setTopic (nextTopicSuggestion current) w).2).2)
  ∧ ((0 < nextTopicCooldown (appState w))%nat → handleNextTopic w = (inr tt, w))
  ∧ (∀ rand currentTopic content image,
       ∃ w',
         generateLesson rand currentTopic content image w = (inr tt, w')
         ∧ nextTopicCooldown (appState w') = 5%nat)
  ∧ (∀ rand content,
       ∃ pending w',
         generateLesson_content rand content w = (inr pending, w')
         ∧ (pending = false → nextTopicCooldown (appState w') = 5%nat))
  ∧ (∀ image,
       ∃ w',
         generateLesson_image image w = (inr tt, w')
         ∧ nextTopicCooldown (appState w') = 5%nat).
Proof.
  split; [|split; [|split; [|split; [|split; [|split]]]]].
  - intros Hc. rewrite nextTopicButton_onClick_eq.
    destruct (nextTopicButton_clickable (appState w)) eqn:Hb; [|done].
    apply nextTopicButton_gate in Hb as (_ & Hs & H0).
    destruct Hc as [Hc|Hc]; [congruence | lia].
  - intros Hrun. rewrite nextTopicButton_onClick_eq in Hrun.
    destruct (nextTopicButton_clickable (appState w)) eqn:Hb; [|done].
    apply nextTopicButton_gate in Hb as ([current Hl] & Hs & H0).
    split; [done|]. split; [done|]. exists current. split; [done|].
    intros Hempty. apply Hrun, handleNextTopic_noop.
    intros c Hc. left. congruence.
  - intros current Hl Hsug Hs H0.
    rewrite nextTopicButton_onClick_eq.
    rewrite (proj2 (nextTopicButton_gate (appState w))) by eauto.
    destruct (handleNextTopic_advances w current Hl Hsug H0)
      as (w' & Hrun & Ht & He & _ & _ & _ & _ & Hw').
    by exists w'.
  - intros Hc. apply handleNextTopic_noop. intros current _. right. lia.
  - intros rand currentTopic content image. apply generateLesson_cooldown.
  - intros rand content.
    destruct (generateLesson_content_end rand content w) as (p & w' & Hrun & Hp).
    exists p, w'. split; [done|]. intros Hf. by apply Hp.
  - intros image.
    destruct (generateLesson_image_end image w) as (w' & Hrun & H5 & _). eauto.
Qed.

Lemma handleNextTopic_gate_witness :
  ∃ w',
    nextTopicButton_onClick bread_checked = (inr tt, w')
    ∧ topic (appState w') = "Drinks"
    ∧ effects w' = [GenerateContent "Spanish" "Drinks" "normal"]
    ∧ nextTopicButton_onClick bread_world = (inr tt, bread_world).
Proof.
  destruct (proj1 (proj2 (proj2 (handleNextTopic_gate bread_checked)))
              bread_lesson eq_refl ltac:(discriminate) eq_refl eq_refl)
    as (w' & Hrun & Ht & He & _).
  exists w'. split; [exact Hrun|]. split; [exact Ht|]. split; [exact He|].
  apply (proj1 (handleNextTopic_gate bread_world)). left. reflexivity.
Defined.

(** ** The article *)

(** The scenario's article: one blank, bound to index 0. *)
Example renderArticle_bread :
  renderArticle (appState bread_answered)
  = Some [Fragment 0 "I eat ";
          Input {| key := 1; className := "article-input "; value := "Bread";
                   onChange := 0; disabled := false; ariaLabel := 1 |};
          Fragment 2 " every day."].
Proof. reflexivity. Qed.

(** C5. The code does not bind the markers as stated. On the article
    [{{}} or {{}}{{a}}], which has one marker, [{{a}}], the split gives
    the text before the marker, the marker and the empty text after it,
    as the code's comment says; but the text before the marker starts
    with two opening and ends with two closing braces, so [renderArticle]
    takes it for a blank and binds it to index 0, and the one marker of
    the article is bound to index 1, not to index 0. *)
Theorem renderArticle_text_taken_for_blank :
  split_placeholders (article empty_braces_lesson)
  = ["{{}} or {{}}"; "{{a}}"; ""]
  ∧ splits (article empty_braces_lesson) "" ["{{}} or {{}}"; "{{a}}"; ""]
  ∧ renderArticle empty_braces_state
    = Some [Input (article_input empty_braces_state 0 0);
            Input (article_input empty_braces_state 1 1);
            Null]
  ∧ (input_indices <$> renderArticle empty_braces_state) = Some [0; 1]%nat
  ∧ ¬ markers_bound_in_order empty_braces_state (article empty_braces_lesson).
Proof.
  split; [reflexivity|]. split; [|split; [reflexivity|split; [reflexivity|]]].
  - apply (split_placeholders_splits (article empty_braces_lesson)).
  - intros H. specialize (H 0%nat "{{a}}" eq_refl).
    vm_compute in H. discriminate H.
Qed.

(* ===================================================================== *)
(** * Further properties of lesson generation *)
(* ===================================================================== *)

(** X1. Every run of [generateLesson], whatever the outcomes of its two
    requests, ends without throwing, with loading over and the results
    hidden, and leaves the language, the topic, the difficulty, the two
    audio flags and the two audio references as they were. *)
Theorem generateLesson_frame (rand : nat → Q) (currentTopic : string)
    (content : Settled Lesson) (image : Settled string) (w : World) :
  ∃ w',
    generateLesson rand currentTopic content image w = (inr tt, w')
    ∧ isLoading (appState w') = false
    ∧ showResults (appState w') = false
    ∧ language (appState w') = language (appState w)
    ∧ topic (appState w') = topic (appState w)
    ∧ difficulty (appState w') = difficulty (appState w)
    ∧ isAudioLoading (appState w') = isAudioLoading (appState w)
    ∧ isAudioPlaying (appState w') = isAudioPlaying (appState w)
    ∧ audioContextRef w' = audioContextRef w
    ∧ audioSourceRef w' = audioSourceRef w.
Proof.
  destruct w as [st ctx src eff]. unfold generateLesson. run_handler.
  destruct content as [message|lessonData]; [eexists; split; [reflexivity|done]|].
  destruct (targetWords lessonData) as [[|x words]|]; cbn [length Nat.eqb];
    [eexists; split; [reflexivity|done]| |eexists; split; [reflexivity|done]].
  destruct image; eexists; (split; [reflexivity|done]).
Qed.

(** X2. When the content step fails, the run shows the error, leaves
    lesson and image empty, and issues no image request: its effects are
    the content request and the console line only. The answers, the
    results and the word bank of the lesson before are not reset. *)
Theorem generateLesson_content_failure (rand : nat → Q)
    (currentTopic message : string) (content : Settled Lesson)
    (image : Settled string) (w : World) :
  content_failure content message →
  ∃ w',
    generateLesson rand currentTopic content image w = (inr tt, w')
    ∧ lesson (appState w') = None
    ∧ lessonImage (appState w') = None
    ∧ error (appState w') = Some (generation_error message)
    ∧ effects w'
      = effects w
        ++ [GenerateContent (language (appState w)) currentTopic
                (difficulty (appState w));
            ConsoleError "Failed to generate lesson:"]
    ∧ userAnswers (appState w') = userAnswers (appState w)
    ∧ isCorrect (appState w') = isCorrect (appState w)
    ∧ shuffledWords (appState w') = shuffledWords (appState w).
Proof.
  intros H. destruct w as [st ctx src eff]. unfold generateLesson. run_handler.
  destruct H as [->|(lessonData & -> & Hbad & ->)].
  - eexists. split; [reflexivity|]. cbn. by rewrite <- app_assoc.
  - destruct Hbad as [-> | ->]; cbn [length Nat.eqb];
      (eexists; split; [reflexivity|]); cbn; by rewrite <- app_assoc.
Qed.

Lemma generateLesson_content_failure_witness :
  ∃ w',
    generateLesson (λ _, 0%Q) "food" (Rejects "offline") (Resolves "AAAA")
      bread_world = (inr tt, w')
    ∧ lesson (appState w') = None
    ∧ lessonImage (appState w') = None
    ∧ error (appState w') = Some (generation_error "offline")
    ∧ effects w'
      = effects bread_world
        ++ [GenerateContent (language (appState bread_world)) "food"
                (difficulty (appState bread_world));
            ConsoleError "Failed to generate lesson:"]
    ∧ userAnswers (appState w') = userAnswers (appState bread_world)
    ∧ isCorrect (appState w') = isCorrect (appState bread_world)
    ∧ shuffledWords (appState w') = shuffledWords (appState bread_world).
Proof.
  apply (generateLesson_content_failure (λ _, 0%Q) "food" "offline"
           (Rejects "offline") (Resolves "AAAA") bread_world).
  by left.
Defined.

(** X3. A run in which both steps succeed issues exactly two requests,
    the content request and then the image request, whose prompt carries
    the title of the lesson just parsed; it ends with no error, also when
    one was shown before, and with the image as a JPEG data URI. *)
Theorem generateLesson_success_requests (rand : nat → Q)
    (currentTopic base64 : string) (lessonData : Lesson) (words : list string)
    (w : World) :
  targetWords lessonData = Some words → words ≠ [] →
  ∃ w',
    generateLesson rand currentTopic (Resolves lessonData) (Resolves base64) w
    = (inr tt, w')
    ∧ effects w'
      = effects w
        ++ [GenerateContent (language (appState w)) currentTopic
                (difficulty (appState w));
            GenerateImages (imagePrompt (title lessonData))]
    ∧ error (appState w') = None
    ∧ lessonImage (appState w') = Some ("data:image/jpeg;base64," +:+ base64)
    ∧ lesson (appState w') = Some lessonData.
Proof.
  intros Hw Hne. destruct w as [st ctx src eff]. unfold generateLesson.
  run_handler. rewrite Hw.
  destruct words as [|x words]; [done|]. cbn [length Nat.eqb].
  eexists. split; [reflexivity|]. cbn. by rewrite <- app_assoc.
Qed.

Lemma generateLesson_success_requests_witness :
  ∃ w',
    generateLesson (λ _, 0%Q) "food" (Resolves bread_lesson) (Resolves "AAAA")
      initial_world = (inr tt, w')
    ∧ effects w'
      = effects initial_world
        ++ [GenerateContent (language (appState initial_world)) "food"
                (difficulty (appState initial_world));
            GenerateImages (imagePrompt (title bread_lesson))]
    ∧ error (appState w') = None
    ∧ lessonImage (appState w') = Some ("data:image/jpeg;base64," +:+ "AAAA")
    ∧ lesson (appState w') = Some bread_lesson.
Proof.
  apply (generateLesson_success_requests (λ _, 0%Q) "food" "AAAA" bread_lesson
           ["bread"] initial_world); [reflexivity | discriminate].
Defined.

(** The exercise state that the content step sets up, whatever becomes
    of the image. *)
Lemma generateLesson_exercise (rand : nat → Q) (currentTopic : string)
    (lessonData : Lesson) (words : list string) (image : Settled string)
    (w : World) :
  targetWords lessonData = Some words → words ≠ [] →
  ∃ w',
    generateLesson rand currentTopic (Resolves lessonData) image w = (inr tt, w')
    ∧ lesson (appState w') = Some lessonData
    ∧ userAnswers (appState w') = replicate (length words) (Value "")
    ∧ isCorrect (appState w') = []
    ∧ shuffledWords (appState w') = shuffleArray_value rand (Some <$> words)
    ∧ showResults (appState w') = false.
Proof.
  intros Hw Hne. destruct w as [st ctx src eff]. unfold generateLesson.
  run_handler. rewrite Hw.
  destruct words as [|x words]; [done|]. cbn [length Nat.eqb].
  destruct image; eexists; (split; [reflexivity|done]).
Qed.



(* ===================================================================== *)
(** * Further properties of the exercise *)
(* ===================================================================== *)

Section exercise_facts.
Context `{StringPrototype}.

(** X5. Checking twice gives what checking once gives: a second check
    right after a successful one leaves the whole world, the results
    among it, as the first left it. *)
Theorem handleCheckAnswers_idempotent (w w' : World) :
  handleCheckAnswers w = (inr tt, w') →
  handleCheckAnswers w' = (inr tt, w').
Proof.
  intros H0. pose proof H0 as H1.
  apply handleCheckAnswers_inv in H1 as [[Hl ->]|(current & results & Hl & Hc & ->)];
    [done|].
  destruct w as [st ctx src eff]. cbn in Hl, Hc |- *.
  unfold handleCheckAnswers. run_handler. cbn.
  rewrite Hl, Hc. by destruct st.
Qed.

(** X6. Once a check has shown the results of a lesson, the answers are
    frozen: [handleAnswerChange] changes nothing, at whatever index and
    with whatever value. *)
Theorem handleAnswerChange_after_check (w w' : World) (index : nat)
    (value : string) :
  lesson (appState w) ≠ None →
  handleCheckAnswers w = (inr tt, w') →
  handleAnswerChange index value w' = (inr tt, w').
Proof.
  intros Hne H0.
  apply handleCheckAnswers_inv in H0 as [[Hl _]|(current & results & _ & _ & ->)];
    [done|].
  unfold handleAnswerChange. run_handler. done.
Qed.

Lemma check_from_excess (words : list string) (k : nat)
    (answers : list (slot string)) (i : nat) (answer : string) :
  answers !! i = Some (Value answer) → (length words ≤ k + i)%nat →
  check_from (Some words) k answers = None.
Proof.
  revert k i. induction answers as [|a answers IH]; intros k i Ha Hlen;
    [by destruct i|].
  destruct i as [|i]; cbn in Ha.
  - injection Ha as ->. cbn [check_from mbind option_bind].
    by rewrite lookup_ge_None_2 by lia.
  - assert (check_from (Some words) (S k) answers = None) as Hrest.
    { apply (IH (S k) i); [done | lia]. }
    cbn [check_from]. rewrite Hrest.
    destruct a as [| |a]; [done | done |].
    cbn [mbind option_bind]. by destruct (words !! k).
Qed.

(** X7. An answer at an index that has no target word makes
    [handleCheckAnswers] throw a TypeError: nothing is stored, so the
    results stay hidden and the world is as before the call. *)
Theorem handleCheckAnswers_excess_answer (w : World) (current : Lesson)
    (words : list string) (i : nat) (answer : string) :
  lesson (appState w) = Some current →
  targetWords current = Some words →
  userAnswers (appState w) !! i = Some (Value answer) →
  (length words ≤ i)%nat →
  handleCheckAnswers w
  = (inl "TypeError: Cannot read properties of undefined (reading 'trim')", w).
Proof.
  intros Hl Hw Ha Hlen. destruct w as [st ctx src eff]. cbn in Hl, Ha.
  unfold handleCheckAnswers. run_handler. rewrite Hl, Hw.
  by rewrite (check_from_excess words 0 (userAnswers st) i answer) by done.
Qed.

Lemma same_word_refl (word : string) : same_word word word = true.
Proof. unfold same_word. apply String.eqb_refl. Qed.

Lemma check_from_exact (words : list string) (k : nat) (typed : list string) :
  typed = drop k words →
  check_from (Some words) k (Value <$> typed)
  = Some (replicate (length typed) (Some true)).
Proof.
  revert k. induction typed as [|a typed IH]; intros k Hd; [done|].
  assert (words !! k = Some a) as Hk.
  { assert (drop k words !! 0%nat = Some a) as H0 by (by rewrite <- Hd).
    by rewrite lookup_drop, Nat.add_0_r in H0. }
  cbn [fmap list_fmap check_from mbind option_bind]. rewrite Hk. cbn.
  fold (fmap (M := list) (@Value string) typed).
  rewrite (IH (S k)).
  - by rewrite same_word_refl.
  - rewrite (drop_S _ _ _ Hk) in Hd. by injection Hd.
Qed.

(** X8. When every blank holds its target word as it stands, the check
    marks every blank correct. *)
Theorem handleCheckAnswers_exact_words (w : World) (current : Lesson)
    (words : list string) :
  lesson (appState w) = Some current →
  targetWords current = Some words →
  userAnswers (appState w) = Value <$> words →
  ∃ w',
    handleCheckAnswers w = (inr tt, w')
    ∧ isCorrect (appState w') = replicate (length words) (Some true)
    ∧ showResults (appState w') = true.
Proof.
  intros Hl Hw Ha. destruct w as [st ctx src eff]. cbn in Hl, Ha.
  unfold handleCheckAnswers. run_handler. rewrite Hl, Hw, Ha.
  rewrite (check_from_exact words 0 words) by done.
  eexists. split; [reflexivity|]. done.
Qed.

(** X9. Right after the content step has produced a lesson, a check does
    not throw: there is one answer per target word, so it shows the
    results, one per target word. *)
Theorem generateLesson_then_check (rand : nat → Q) (currentTopic : string)
    (lessonData : Lesson) (words : list string) (image : Settled string)
    (w : World) :
  targetWords lessonData = Some words → words ≠ [] →
  ∃ w' w'',
    generateLesson rand currentTopic (Resolves lessonData) image w = (inr tt, w')
    ∧ handleCheckAnswers w' = (inr tt, w'')
    ∧ showResults (appState w'') = true
    ∧ length (isCorrect (appState w'')) = length words.
Proof.
  intros Hw Hne.
  destruct (generateLesson_exercise rand currentTopic lessonData words image w Hw Hne)
    as (w' & Hrun & Hl & Hua & _).
  destruct (check_from_aligned words 0 (replicate (length words) ""))
    as (results & Hr & Hn & _).
  { rewrite length_replicate. cbn. lia. }
  rewrite fmap_replicate in Hr.
  exists w'. destruct w' as [st ctx src eff]. cbn in Hl, Hua.
  eexists. split; [done|].
  unfold handleCheckAnswers. run_handler. rewrite Hl, Hw, Hua, Hr.
  split; [reflexivity|]. cbn. split; [done|].
  by rewrite Hn, length_replicate.
Qed.
End exercise_facts.

Lemma handleCheckAnswers_idempotent_witness :
  handleCheckAnswers (H := ascii_strings) bread_checked = (inr tt, bread_checked).
Proof.
  apply (handleCheckAnswers_idempotent (H := ascii_strings) bread_answered).
  vm_compute. reflexivity.
Defined.

Lemma handleAnswerChange_after_check_witness :
  handleAnswerChange 0 "bread" bread_checked = (inr tt, bread_checked).
Proof.
  apply (handleAnswerChange_after_check (H := ascii_strings) bread_answered _
           0 "bread");
    [discriminate | vm_compute; reflexivity].
Defined.

Lemma handleCheckAnswers_excess_answer_witness :
  handleCheckAnswers (H := ascii_strings) (handleAnswerChange 1 "x" bread_world).2
  = (inl "TypeError: Cannot read properties of undefined (reading 'trim')",
     (handleAnswerChange 1 "x" bread_world).2).
Proof.
  apply (handleCheckAnswers_excess_answer (H := ascii_strings)
           (handleAnswerChange 1 "x" bread_world).2 bread_lesson ["bread"] 1 "x");
    [reflexivity..|cbn; lia].
Defined.

Lemma handleCheckAnswers_exact_words_witness :
  ∃ w',
    handleCheckAnswers (H := ascii_strings)
      (handleAnswerChange 0 "bread" bread_world).2 = (inr tt, w')
    ∧ isCorrect (appState w') = replicate (length ["bread"]) (Some true)
    ∧ showResults (appState w') = true.
Proof.
  apply (handleCheckAnswers_exact_words (H := ascii_strings)
           (handleAnswerChange 0 "bread" bread_world).2 bread_lesson ["bread"]);
    reflexivity.
Defined.

Lemma generateLesson_then_check_witness :
  ∃ w' w'',
    generateLesson (λ _, 0%Q) "food" (Resolves bread_lesson) (Resolves "AAAA")
      initial_world = (inr tt, w')
    ∧ handleCheckAnswers (H := ascii_strings) w' = (inr tt, w'')
    ∧ showResults (appState w'') = true
    ∧ length (isCorrect (appState w'')) = length ["bread"].
Proof.
  apply (generateLesson_then_check (H := ascii_strings) (λ _, 0%Q) "food"
           bread_lesson ["bread"] (Resolves "AAAA") initial_world);
    [reflexivity | discriminate].
Defined.

(* ===================================================================== *)
(** * Further properties of the cooldown and the next topic *)
(* ===================================================================== *)

Lemma with_nextTopicCooldown_same (st : AppState) :
  with_nextTopicCooldown (nextTopicCooldown st) st = st.
Proof. by destruct st. Qed.

Lemma cooldown_tick_eq (w : World) :
  cooldown_tick w
  = (inr tt,
     {| appState := with_nextTopicCooldown (nextTopicCooldown (appState w) - 1)
                      (appState w);
        audioContextRef := audioContextRef w;
        audioSourceRef := audioSourceRef w;
        effects := effects w |}).
Proof.
  destruct w as [st ctx src eff]. unfold cooldown_tick. run_handler.
  destruct (Nat.ltb_spec 0 (nextTopicCooldown st)) as [H|H]; [done|].
  replace (nextTopicCooldown st - 1)%nat with (nextTopicCooldown st) by lia.
  by rewrite with_nextTopicCooldown_same.
Qed.

Lemma cooldown_ticks_eq (n : nat) (w : World) :
  cooldown_ticks n w
  = (inr tt,
     {| appState := with_nextTopicCooldown (nextTopicCooldown (appState w) - n)
                      (appState w);
        audioContextRef := audioContextRef w;
        audioSourceRef := audioSourceRef w;
        effects := effects w |}).
Proof.
  revert w. induction n as [|n IH]; intros w.
  - destruct w as [st ctx src eff]. cbn.
    by rewrite Nat.sub_0_r, with_nextTopicCooldown_same.
  - cbn [cooldown_ticks]. unfold mbind, M_bind.
    rewrite cooldown_tick_eq, IH. destruct w as [st ctx src eff].
    cbn [appState audioContextRef audioSourceRef effects].
    change (nextTopicCooldown (with_nextTopicCooldown ?a st)) with a.
    change (with_nextTopicCooldown ?a (with_nextTopicCooldown ?b st))
      with (with_nextTopicCooldown a st).
    by replace (nextTopicCooldown st - 1 - n)%nat
      with (nextTopicCooldown st - S n)%nat by lia.
Qed.

(** X10. [n] ticks of the timer take [n] off the cooldown, stopping at
    0, and change nothing else: no other cell, no reference, no
    effect. *)
Theorem cooldown_ticks_count (n : nat) (w : World) :
  cooldown_ticks n w
  = (inr tt,
     {| appState := with_nextTopicCooldown (nextTopicCooldown (appState w) - n)
                      (appState w);
        audioContextRef := audioContextRef w;
        audioSourceRef := audioSourceRef w;
        effects := effects w |}).
Proof. apply cooldown_ticks_eq. Qed.

(** X11. Once a run of [generateLesson] has ended, [handleNextTopic]
    and the click on its button change nothing until five ticks of the
    timer have passed, whatever the outcome of the run. *)
Theorem handleNextTopic_cooldown (rand : nat → Q) (currentTopic : string)
    (content : Settled Lesson) (image : Settled string) (w : World) :
  ∃ w',
    generateLesson rand currentTopic content image w = (inr tt, w')
    ∧ ∀ n, (n < 5)%nat →
        ∃ w'',
          cooldown_ticks n w' = (inr tt, w'')
          ∧ handleNextTopic w'' = (inr tt, w'')
          ∧ nextTopicButton_onClick w'' = (inr tt, w'').
Proof.
  destruct (generateLesson_cooldown rand currentTopic content image w)
    as (w' & Hrun & H5).
  exists w'. split; [done|]. intros n Hn.
  eexists. split; [apply cooldown_ticks_eq|].
  assert (∀ w0, nextTopicCooldown (appState w0) ≠ 0%nat →
                handleNextTopic w0 = (inr tt, w0)) as Hnoop.
  { intros w0 H0. apply handleNextTopic_noop. intros c _. by right. }
  rewrite nextTopicButton_onClick_eq.
  rewrite Hnoop by (cbn; rewrite H5; lia).
  split; [done|]. by destruct (nextTopicButton_clickable _).
Qed.

(** X12. Five ticks after a run of [generateLesson] the cooldown is
    over, whatever the run's outcome; with a lesson that suggests a next
    topic on the page, [handleNextTopic] then advances to it. *)
Theorem generateLesson_then_five_ticks (rand : nat → Q) (currentTopic : string)
    (content : Settled Lesson) (image : Settled string) (w : World) :
  ∃ w' w'',
    generateLesson rand currentTopic content image w = (inr tt, w')
    ∧ cooldown_ticks 5 w' = (inr tt, w'')
    ∧ nextTopicCooldown (appState w'') = 0%nat
    ∧ lesson (appState w'') = lesson (appState w')
    ∧ ∀ current,
        lesson (appState w') = Some current →
        nextTopicSuggestion current ≠ "" →
        ∃ w3,
          handleNextTopic w'' = (inr tt, w3)
          ∧ topic (appState w3) = nextTopicSuggestion current.
Proof.
  destruct (generateLesson_cooldown rand currentTopic content image w)
    as (w' & Hrun & H5).
  pose proof (cooldown_ticks_eq 5 w') as Hticks.
  set (w'' := {| appState := _ |}) in Hticks.
  assert (nextTopicCooldown (appState w'') = 0%nat) as H0.
  { subst w''. cbn [appState].
    change (nextTopicCooldown (with_nextTopicCooldown ?a ?s)) with a.
    by rewrite H5. }
  assert (lesson (appState w'') = lesson (appState w')) as Hsame by done.
  exists w', w''. split; [done|]. split; [done|]. split; [done|]. split; [done|].
  intros current Hl Hs.
  rewrite <- Hsame in Hl.
  destruct (handleNextTopic_advances w'' current Hl Hs H0)
    as (w3 & H3 & Ht & _).
  exists w3. split; [exact H3 | exact Ht].
Qed.

Section pending_image.
Context `{StringPrototype}.

(** X30. The cooldown does not cover the time in which the image
    request is pending. After a click on Next Topic, once the content
    request has brought a lesson, the cooldown is still at 0: the
    answers of the new lesson can be checked and Next Topic clicked
    again, which starts the run for the topic after the next with no
    tick of the timer in between. *)
Theorem nextTopic_while_image_pending (rand : nat → Q) (w : World)
    (current lessonData : Lesson) (words : list string) :
  lesson (appState w) = Some current →
  nextTopicSuggestion current ≠ "" →
  showResults (appState w) = true →
  nextTopicCooldown (appState w) = 0%nat →
  targetWords lessonData = Some words → words ≠ [] →
  nextTopicSuggestion lessonData ≠ "" →
  ∃ w1 w2 w3 w4,
    nextTopicButton_onClick w = (inr tt, w1)
    ∧ generateLesson_content rand (Resolves lessonData) w1 = (inr true, w2)
    ∧ lesson (appState w2) = Some lessonData
    ∧ nextTopicCooldown (appState w2) = 0%nat
    ∧ handleCheckAnswers w2 = (inr tt, w3)
    ∧ nextTopicButton_onClick w3 = (inr tt, w4)
    ∧ topic (appState w4) = nextTopicSuggestion lessonData
    ∧ effects w4
      = effects w
        ++ [GenerateContent (language (appState w)) (nextTopicSuggestion current)
              (difficulty (appState w));
            GenerateImages (imagePrompt (title lessonData));
            GenerateContent (language (appState w))
              (nextTopicSuggestion lessonData) (difficulty (appState w))].
Proof.
  intros Hl Hs Hshow Hc Hw Hne Hs2.
  destruct (handleNextTopic_advances w current Hl Hs Hc)
    as (w1 & Hrun1 & _ & He1 & _ & _ & _ & Hc1 & Hw1).
  assert (language (appState w1) = language (appState w)
          ∧ difficulty (appState w1) = difficulty (appState w)) as [Hlang1 Hdiff1].
  { rewrite Hw1. by destruct w. }
  destruct (generateLesson_content_lesson rand lessonData words w1 Hw Hne)
    as (w2 & Hrun2 & Hl2 & Hua2 & Hc2 & Hlang2 & Hdiff2 & He2).
  destruct (handleCheckAnswers_aligned w2 lessonData words
              (replicate (length words) "") Hl2 Hw)
    as (results & Hrun3 & _);
    [by rewrite fmap_replicate | by rewrite length_replicate |].
  set (w3 := {| appState := _ |}) in Hrun3.
  destruct (handleNextTopic_advances w3 lessonData Hl2 Hs2)
    as (w4 & Hrun4 & Ht4 & He4 & _); [cbn; congruence|].
  exists w1, w2, w3, w4.
  split.
  { rewrite nextTopicButton_onClick_eq.
    by rewrite (proj2 (nextTopicButton_gate (appState w))) by eauto. }
  split; [done|]. split; [done|]. split; [congruence|]. split; [done|].
  split.
  { rewrite nextTopicButton_onClick_eq.
    rewrite (proj2 (nextTopicButton_gate (appState w3))); [done|].
    split; [by exists lessonData|]. split; [done|]. cbn. congruence. }
  split; [done|].
  rewrite He4. cbn [effects appState w3].
  change (language (with_showResults true (with_isCorrect results ?s)))
    with (language s).
  change (difficulty (with_showResults true (with_isCorrect results ?s)))
    with (difficulty s).
  rewrite He2, He1, Hlang2, Hdiff2, Hlang1, Hdiff1.
  by rewrite <- !app_assoc.
Qed.
End pending_image.

Lemma nextTopic_while_image_pending_witness :
  ∃ w1 w2 w3 w4,
    nextTopicButton_onClick bread_checked = (inr tt, w1)
    ∧ generateLesson_content (λ _, 0%Q) (Resolves bread_lesson) w1 = (inr true, w2)
    ∧ lesson (appState w2) = Some bread_lesson
    ∧ nextTopicCooldown (appState w2) = 0%nat
    ∧ handleCheckAnswers (H := ascii_strings) w2 = (inr tt, w3)
    ∧ nextTopicButton_onClick w3 = (inr tt, w4)
    ∧ topic (appState w4) = nextTopicSuggestion bread_lesson
    ∧ effects w4
      = effects bread_checked
        ++ [GenerateContent (language (appState bread_checked))
              (nextTopicSuggestion bread_lesson)
              (difficulty (appState bread_checked));
            GenerateImages (imagePrompt (title bread_lesson));
            GenerateContent (language (appState bread_checked))
              (nextTopicSuggestion bread_lesson)
              (difficulty (appState bread_checked))].
Proof.
  apply (nextTopic_while_image_pending (H := ascii_strings) (λ _, 0%Q)
           bread_checked bread_lesson bread_lesson ["bread"]);
    first [reflexivity | discriminate].
Defined.

(* ===================================================================== *)
(** * Further properties of audio playback *)
(* ===================================================================== *)

Section listen_facts.
Variable atob : string → Settled (list Z).
Variable decodeAudioData : list Z → Settled (list Z).

(** Splits a run of [handleListen] that is past the guard into its
    outcomes. *)
Ltac listen_cases st ctx src speech :=
  unfold handleListen; run_handler;
  repeat match goal with
         | H : lesson st = _ |- _ => rewrite H
         | H : isAudioLoading st = _ |- _ => rewrite H
         | H : isAudioPlaying st = _ |- _ => rewrite H
         end;
  cbn [orb];
  destruct speech as [?message|[?b64|]];
  [ | destruct (String.eqb _ "");
      [ | destruct (atob _) as [?message|?pcmData];
          [ | rewrite pcmToWav_eq;
              destruct (decodeAudioData _) as [?message|?audioBuffer] ] ] | ];
  destruct src as [?source|]; destruct ctx as [[]|].

(** X13. Every run of [handleListen] past its guard ends without
    throwing and with the loading flag down, in one of two ways: with an
    error shown, nothing playing and the handle as before, or with no
    error, the playing flag up and the handle on the new source. *)
Theorem handleListen_outcomes (textToListen : string)
    (speech : Settled (option string)) (w : World) (current : Lesson) :
  lesson (appState w) = Some current →
  isAudioLoading (appState w) = false →
  isAudioPlaying (appState w) = false →
  ∃ w',
    handleListen atob decodeAudioData textToListen speech w = (inr tt, w')
    ∧ isAudioLoading (appState w') = false
    ∧ ((∃ message,
          error (appState w') = Some ("Failed to play audio: " +:+ message)
          ∧ isAudioPlaying (appState w') = false
          ∧ audioSourceRef w' = audioSourceRef w)
       ∨ (error (appState w') = None
          ∧ isAudioPlaying (appState w') = true
          ∧ ∃ audioBuffer earlier,
              audioSourceRef w' = Some audioBuffer
              ∧ effects w' = earlier ++ [SourceStart audioBuffer])).
Proof.
  intros Hl Hload Hplay. destruct w as [st ctx src eff].
  cbn in Hl, Hload, Hplay.
  listen_cases st ctx src speech;
    (eexists; split; [reflexivity|]; split; [done|]);
    first [ left; eexists; split; [reflexivity|]; done
          | right; split; [done|]; split; [done|];
            eexists _, _; split; [reflexivity|]; cbn;
            rewrite ?app_assoc; reflexivity ].
Qed.

(** X14. A run of [handleListen] that decodes its audio does, in this
    order: stop the source still referenced, if any; request the speech
    for the text in the language of the lesson; create an audio context
    only when there is none or it is closed; hand the container that
    [pcmToWav] builds from the payload (24000 Hz, one channel, 16 bits)
    to the decoder; start the new source. The context is running
    afterwards. *)
Theorem handleListen_success_effects (textToListen b64 : string)
    (pcmData audioBuffer : list Z) (w : World) (current : Lesson) :
  lesson (appState w) = Some current →
  isAudioLoading (appState w) = false →
  isAudioPlaying (appState w) = false →
  b64 ≠ "" →
  atob b64 = Resolves pcmData →
  decodeAudioData (wav_header (Z.of_nat (length pcmData))
                     (num 24000) (num 1) (num 16) ++ pcmData)
  = Resolves audioBuffer →
  ∃ w',
    handleListen atob decodeAudioData textToListen (Resolves (Some b64)) w
    = (inr tt, w')
    ∧ effects w'
      = effects w
        ++ listen_prelude w textToListen current
        ++ context_effects w
        ++ [DecodeAudioData
              (wav_header (Z.of_nat (length pcmData))
                 (num 24000) (num 1) (num 16) ++ pcmData);
            SourceStart audioBuffer]
    ∧ audioContextRef w' = Some Running
    ∧ audioSourceRef w' = Some audioBuffer.
Proof.
  intros Hl Hload Hplay Hne Hatob Hdec. destruct w as [st ctx src eff].
  cbn in Hl, Hload, Hplay. apply String.eqb_neq in Hne.
  unfold handleListen, listen_prelude, context_effects. run_handler.
  rewrite Hl, Hload, Hplay, Hne. cbn [orb].
  destruct src; rewrite Hatob, pcmToWav_eq; destruct ctx as [[]|];
    rewrite Hdec; eexists; (split; [reflexivity|]); cbn;
    by rewrite <- ?app_assoc.
Qed.

(** X15. Every run of [handleListen] past its guard issues exactly one
    speech request, for the text it was given and in the language of the
    lesson, and before it only the stop of the source still referenced:
    this holds however the run ends. *)
Theorem handleListen_one_request (textToListen : string)
    (speech : Settled (option string)) (w : World) (current : Lesson) :
  lesson (appState w) = Some current →
  isAudioLoading (appState w) = false →
  isAudioPlaying (appState w) = false →
  ∃ w' later,
    handleListen atob decodeAudioData textToListen speech w = (inr tt, w')
    ∧ effects w' = effects w ++ listen_prelude w textToListen current ++ later
    ∧ Forall (λ e, ¬ is_speech_request e) later.
Proof.
  intros Hl Hload Hplay. destruct w as [st ctx src eff].
  cbn in Hl, Hload, Hplay. unfold listen_prelude.
  listen_cases st ctx src speech;
    (eexists _, _; split; [reflexivity|]);
    cbn [effects audioSourceRef];
    (split; [rewrite <- ?app_assoc; cbn [app]; repeat f_equal; reflexivity|]);
    repeat constructor; by intros [].
Qed.

(** X16. [handleListen] touches three cells only, the error and the
    two audio flags: for every world and every outcome the language,
    topic and difficulty, the lesson and its image, the answers, the
    results, the word bank and the cooldown are after the run what they
    were before it. *)
Theorem handleListen_frame (textToListen : string)
    (speech : Settled (option string)) (w : World) :
  ∃ w',
    handleListen atob decodeAudioData textToListen speech w = (inr tt, w')
    ∧ language (appState w') = language (appState w)
    ∧ topic (appState w') = topic (appState w)
    ∧ difficulty (appState w') = difficulty (appState w)
    ∧ isLoading (appState w') = isLoading (appState w)
    ∧ lesson (appState w') = lesson (appState w)
    ∧ lessonImage (appState w') = lessonImage (appState w)
    ∧ userAnswers (appState w') = userAnswers (appState w)
    ∧ isCorrect (appState w') = isCorrect (appState w)
    ∧ showResults (appState w') = showResults (appState w)
    ∧ shuffledWords (appState w') = shuffledWords (appState w)
    ∧ nextTopicCooldown (appState w') = nextTopicCooldown (appState w).
Proof.
  destruct w as [st ctx src eff].
  destruct (lesson st) as [current|] eqn:Hl.
  - destruct (isAudioLoading st) eqn:Hload.
    { exists (Build_World st ctx src eff).
      split; [apply handleListen_guard; by left | done]. }
    destruct (isAudioPlaying st) eqn:Hplay.
    { exists (Build_World st ctx src eff).
      split; [apply handleListen_guard; by right | done]. }
    listen_cases st ctx src speech;
      (eexists; split; [reflexivity|]); cbn; by rewrite Hl.
  - exists (Build_World st ctx src eff). split; [|done].
    unfold handleListen. run_handler. by rewrite Hl.
Qed.

(** X17. While the audio of a run plays, a second call of
    [handleListen] changes nothing; when the audio ends, the playing
    flag and the handle are cleared and no error is shown. *)
Theorem handleListen_then_ended (textToListen b64 : string)
    (pcmData audioBuffer : list Z) (w : World) (current : Lesson) :
  lesson (appState w) = Some current →
  isAudioLoading (appState w) = false →
  isAudioPlaying (appState w) = false →
  b64 ≠ "" →
  atob b64 = Resolves pcmData →
  decodeAudioData (wav_header (Z.of_nat (length pcmData))
                     (num 24000) (num 1) (num 16) ++ pcmData)
  = Resolves audioBuffer →
  ∃ w' w'',
    handleListen atob decodeAudioData textToListen (Resolves (Some b64)) w
    = (inr tt, w')
    ∧ (∀ text' speech',
         handleListen atob decodeAudioData text' speech' w' = (inr tt, w'))
    ∧ source_onended w' = (inr tt, w'')
    ∧ isAudioPlaying (appState w'') = false
    ∧ isAudioLoading (appState w'') = false
    ∧ audioSourceRef w'' = None
    ∧ error (appState w'') = None
    ∧ lesson (appState w'') = Some current.
Proof.
  intros Hl Hload Hplay Hne Hatob Hdec. destruct w as [st ctx src eff].
  cbn in Hl, Hload, Hplay. apply String.eqb_neq in Hne.
  unfold handleListen at 1. run_handler.
  rewrite Hl, Hload, Hplay, Hne. cbn [orb].
  destruct src; rewrite Hatob, pcmToWav_eq; destruct ctx as [[]|];
    rewrite Hdec; eexists _, _;
    (split; [reflexivity|]);
    (split; [intros text' speech'; apply handleListen_guard; by right|]);
    unfold source_onended; run_handler; (split; [reflexivity|]); done.
Qed.
End listen_facts.

Lemma handleListen_outcomes_witness :
  ∃ w',
    handleListen (λ _, Resolves [0; 1]) (λ wav, Resolves wav) "bread"
      (Resolves (Some "AAE=")) bread_world = (inr tt, w')
    ∧ isAudioLoading (appState w') = false
    ∧ ((∃ message,
          error (appState w') = Some ("Failed to play audio: " +:+ message)
          ∧ isAudioPlaying (appState w') = false
          ∧ audioSourceRef w' = audioSourceRef bread_world)
       ∨ (error (appState w') = None
          ∧ isAudioPlaying (appState w') = true
          ∧ ∃ audioBuffer earlier,
              audioSourceRef w' = Some audioBuffer
              ∧ effects w' = earlier ++ [SourceStart audioBuffer])).
Proof.
  apply (handleListen_outcomes (λ _, Resolves [0; 1]) (λ wav, Resolves wav)
           "bread" (Resolves (Some "AAE=")) bread_world bread_lesson);
    reflexivity.
Defined.

Lemma handleListen_success_effects_witness :
  ∃ w',
    handleListen (λ _, Resolves [0; 1]) (λ wav, Resolves wav) "bread"
      (Resolves (Some "AAE=")) bread_world = (inr tt, w')
    ∧ effects w'
      = effects bread_world
        ++ listen_prelude bread_world "bread" bread_lesson
        ++ context_effects bread_world
        ++ [DecodeAudioData (wav_header (Z.of_nat (length [0; 1]))
                               (num 24000) (num 1) (num 16) ++ [0; 1]);
            SourceStart (wav_header (Z.of_nat (length [0; 1]))
                           (num 24000) (num 1) (num 16) ++ [0; 1])]
    ∧ audioContextRef w' = Some Running
    ∧ audioSourceRef w'
      = Some (wav_header (Z.of_nat (length [0; 1]))
                (num 24000) (num 1) (num 16) ++ [0; 1]).
Proof.
  apply (handleListen_success_effects (λ _, Resolves [0; 1]) (λ wav, Resolves wav)
           "bread" "AAE=" [0; 1]
           (wav_header (Z.of_nat (length [0; 1]))
              (num 24000) (num 1) (num 16) ++ [0; 1])
           bread_world bread_lesson);
    [reflexivity | reflexivity | reflexivity | discriminate | reflexivity
    | reflexivity].
Defined.

Lemma handleListen_one_request_witness :
  ∃ w' later,
    handleListen (λ _, Rejects "not base64") (λ _, Rejects "not audio") "bread"
      (Resolves None) bread_world = (inr tt, w')
    ∧ effects w'
      = effects bread_world ++ listen_prelude bread_world "bread" bread_lesson
        ++ later
    ∧ Forall (λ e, ¬ is_speech_request e) later.
Proof.
  apply (handleListen_one_request (λ _, Rejects "not base64")
           (λ _, Rejects "not audio") "bread" (Resolves None) bread_world
           bread_lesson); reflexivity.
Defined.

Lemma handleListen_then_ended_witness :
  ∃ w' w'',
    handleListen (λ _, Resolves [0; 1]) (λ wav, Resolves wav) "bread"
      (Resolves (Some "AAE=")) bread_world = (inr tt, w')
    ∧ (∀ text' speech',
         handleListen (λ _, Resolves [0; 1]) (λ wav, Resolves wav) text' speech' w'
         = (inr tt, w'))
    ∧ source_onended w' = (inr tt, w'')
    ∧ isAudioPlaying (appState w'') = false
    ∧ isAudioLoading (appState w'') = false
    ∧ audioSourceRef w'' = None
    ∧ error (appState w'') = None
    ∧ lesson (appState w'') = Some bread_lesson.
Proof.
  apply (handleListen_then_ended (λ _, Resolves [0; 1]) (λ wav, Resolves wav)
           "bread" "AAE=" [0; 1]
           (wav_header (Z.of_nat (length [0; 1]))
              (num 24000) (num 1) (num 16) ++ [0; 1])
           bread_world bread_lesson);
    [reflexivity | reflexivity | reflexivity | discriminate | reflexivity
    | reflexivity].
Defined.

(* ===================================================================== *)
(** * Further properties of the split and of the article *)
(* ===================================================================== *)

(** X18. The second alternative of the split pattern, the literal
    [{{word}}], plays no part: on every string the pattern matches
    exactly where, and exactly what, its first alternative matches, so
    the split and the text read aloud, which uses the first alternative
    alone, find the same markers. *)
Theorem match_placeholder_first_alternative (s : string) :
  match_placeholder s = match_braces s
  ∧ ∀ m rest, match_word s = Some (m, rest) → match_braces s = Some (m, rest).
Proof. split; [apply match_placeholder_braces | apply match_word_braces]. Qed.

Lemma concat_cons2 (x y : string) (l : list string) :
  String.concat "" (x :: y :: l) = x +:+ String.concat "" (y :: l).
Proof. reflexivity. Qed.

Lemma split_from_concat (s : string) (skip : nat) (segment : string) :
  (skip ≤ String.length s)%nat →
  String.concat "" (split_from s skip segment) = segment +:+ string_drop skip s.
Proof.
  revert skip segment. induction s as [|c s IH]; intros skip segment Hskip.
  - cbn in Hskip. assert (skip = 0%nat) as -> by lia. cbn.
    by rewrite string_app_empty_r.
  - cbn [split_from]. destruct skip as [|k].
    + destruct (match_placeholder (String c s)) as [[m rest]|] eqn:Hm.
      * pose proof (match_placeholder_app _ _ _ Hm) as Hs.
        destruct m as [|c' m']; [by apply match_placeholder_isPlaceholder in Hm|].
        rewrite append_cons in Hs. injection Hs as <- Hs.
        replace (String.length (String c m') - 1)%nat with (String.length m')
          by (cbn [String.length]; lia).
        destruct (split_from_cons s (String.length m') "") as (t & l & Hl).
        rewrite concat_cons2. rewrite Hl, concat_cons2, <- Hl.
        rewrite IH by (rewrite Hs, string_length_app; lia).
        assert (string_drop (String.length m') s = rest) as ->
          by (rewrite Hs; apply string_drop_app).
        cbn [string_drop]. rewrite Hs. by rewrite append_cons.
      * rewrite IH by lia. cbn [string_drop]. rewrite string_app_assoc.
        by rewrite append_cons.
    + cbn [String.length] in Hskip. rewrite IH by lia. done.
Qed.

(** X19. The split loses and adds nothing: the parts of an article,
    joined in order, are the article. *)
Theorem split_placeholders_concat (article : string) :
  String.concat "" (split_placeholders article) = article.
Proof.
  unfold split_placeholders. rewrite split_from_concat by lia. by destruct article.
Qed.

Lemma split_from_length (s : string) (skip : nat) (segment : string) :
  length (split_from s skip segment)
  = (2 * length (marker_parts (split_from s skip segment)) + 1)%nat.
Proof.
  revert skip segment. induction s as [|c s IH]; intros skip segment; [done|].
  cbn [split_from]. destruct skip as [|k]; [|apply IH].
  destruct (match_placeholder (String c s)) as [[m rest]|]; [|apply IH].
  rewrite marker_parts_cons. cbn [length]. rewrite IH. lia.
Qed.

Lemma match_run_close_self (s m rest : string) :
  match_run_close s = Some (m, rest) → match_run_close m = Some (m, "").
Proof.
  revert m. induction s as [|c s IH]; intros m H; [discriminate H|].
  cbn [match_run_close] in H. destruct (notClose c) eqn:Hc.
  - destruct (match_run_close s) as [[m' rest']|]; [|discriminate H].
    injection H as <- <-. cbn [match_run_close]. rewrite Hc.
    by rewrite (IH m' eq_refl).
  - destruct s as [|c' s']; [discriminate H|].
    destruct (Ascii.eqb c' "}"); [|discriminate H]. by injection H as <- <-.
Qed.

Lemma match_braces_self (s m rest : string) :
  match_braces s = Some (m, rest) → match_braces m = Some (m, "").
Proof.
  unfold match_braces at 1. destruct s as [|c1 [|c2 [|c s]]]; try discriminate.
  destruct (Ascii.eqb c1 "{" && Ascii.eqb c2 "{" && notClose c) eqn:Hc; [|discriminate].
  destruct (match_run_close s) as [[m' rest']|] eqn:Hrun; [|discriminate].
  intros [= <- <-]. unfold match_braces. rewrite Hc.
  by rewrite (match_run_close_self _ _ _ Hrun).
Qed.

Lemma split_from_markers_match (s : string) (skip : nat) (segment : string) :
  Forall (λ m, match_braces m = Some (m, ""))
    (marker_parts (split_from s skip segment)).
Proof.
  revert skip segment. induction s as [|c s IH]; intros skip segment.
  - constructor.
  - cbn [split_from]. destruct skip as [|k]; [|apply IH].
    destruct (match_placeholder (String c s)) as [[m rest]|] eqn:Hm; [|apply IH].
    rewrite marker_parts_cons. constructor; [|apply IH].
    rewrite match_placeholder_braces in Hm. by apply match_braces_self in Hm.
Qed.

(** X20. A split is text, marker, text, ..., marker, text: an odd
    number of parts, of which those at odd positions are each, as a whole,
    one match of [\{\{[^}]+\}\}]. *)
Theorem split_placeholders_shape (article : string) :
  length (split_placeholders article)
  = (2 * length (marker_parts (split_placeholders article)) + 1)%nat
  ∧ Forall (λ m, match_braces m = Some (m, ""))
      (marker_parts (split_placeholders article)).
Proof.
  split; [apply split_from_length | apply split_from_markers_match].
Qed.

(** A string without an opening brace has no match, so it is its own
    only part. *)
Lemma split_from_no_brace (s segment : string) :
  Forall (λ c, c ≠ "{"%char) (list_ascii_of_string s) →
  split_from s 0 segment = [segment +:+ s].
Proof.
  revert segment. induction s as [|c s IH]; intros segment H.
  - by rewrite string_app_empty_r.
  - cbn [list_ascii_of_string] in H. apply Forall_cons_1 in H as [Hc H].
    cbn [split_from]. rewrite match_placeholder_braces.
    assert (match_braces (String c s) = None) as ->.
    { unfold match_braces. destruct s as [|c2 [|c3 s]]; try done.
      apply Ascii.eqb_neq in Hc. by rewrite Hc. }
    rewrite IH by done. by rewrite string_app_assoc, append_cons.
Qed.

(** X21. An article without an opening brace is rendered as its text
    alone, one fragment and no blank (and as nothing when it is
    empty). *)
Theorem renderArticle_no_brace (st : AppState) (current : Lesson) :
  lesson st = Some current →
  Forall (λ c, c ≠ "{"%char) (list_ascii_of_string (article current)) →
  renderArticle st
  = Some [if String.eqb (article current) "" then Null
          else Fragment 0 (article current)].
Proof.
  intros Hl H. unfold renderArticle, split_placeholders. rewrite Hl.
  rewrite split_from_no_brace by done.
  change ("" +:+ article current) with (article current).
  cbn [render_parts].
  assert (isPlaceholder (article current) = false) as ->; [|done].
  unfold isPlaceholder, startsWith.
  destruct (article current) as [|c s]; [done|].
  cbn [list_ascii_of_string] in H. apply Forall_cons_1 in H as [Hc _].
  cbn [String.prefix]. by destruct (ascii_dec "{" c) as [<-|].
Qed.

Lemma renderArticle_no_brace_witness :
  renderArticle (with_lesson
                   (Some {| title := "Food"; languageCode := "en-US";
                            article := "I eat bread."; targetWords := Some ["bread"];
                            nextTopicSuggestion := "Drinks" |}) initial_state)
  = Some [if String.eqb "I eat bread." "" then Null else Fragment 0 "I eat bread."].
Proof.
  apply (renderArticle_no_brace
           (with_lesson
              (Some {| title := "Food"; languageCode := "en-US";
                       article := "I eat bread."; targetWords := Some ["bread"];
                       nextTopicSuggestion := "Drinks" |}) initial_state)
           {| title := "Food"; languageCode := "en-US";
              article := "I eat bread."; targetWords := Some ["bread"];
              nextTopicSuggestion := "Drinks" |}).
  - reflexivity.
  - vm_compute. repeat (constructor; [discriminate|]). constructor.
Defined.

Lemma render_parts_length (st : AppState) (parts : list string) (i k : nat) :
  length (render_parts st parts i k) = length parts.
Proof.
  revert i k. induction parts as [|p parts IH]; intros i k; [done|].
  cbn [render_parts]. destruct (isPlaceholder p); cbn [length]; by rewrite IH.
Qed.

(** The node of each part: a blank for a part that passes the test,
    bound to the number of parts before it that pass it. *)
Lemma render_parts_lookup (st : AppState) (parts : list string)
    (i k p : nat) (part : string) :
  parts !! p = Some part →
  render_parts st parts i k !! p
  = Some (if isPlaceholder part
          then Input (article_input st (i + p)
                        (k + length (filter (λ q, isPlaceholder q = true)
                                       (take p parts))))
          else if String.eqb part "" then Null else Fragment (i + p) part).
Proof.
  revert i k p. induction parts as [|q parts IH]; intros i k p Hp; [done|].
  destruct p as [|p].
  - injection Hp as ->. cbn [render_parts take filter length].
    rewrite !Nat.add_0_r. by destruct (isPlaceholder part).
  - cbn in Hp. cbn [render_parts take]. rewrite filter_cons.
    assert (∀ (node : Node) (nodes : list Node),
              (node :: nodes) !! S p = nodes !! p) as Hcons by done.
    destruct (isPlaceholder q) eqn:Hq.
    + rewrite decide_True by done. cbn [length].
      rewrite Hcons, (IH (S i) (S k) p Hp).
      replace (S i + p)%nat with (i + S p)%nat by lia.
      set (n := length (filter (λ q, isPlaceholder q = true) (take p parts))).
      by replace (S k + n)%nat with (k + S n)%nat by lia.
    + rewrite decide_False by done.
      destruct (String.eqb q ""); rewrite Hcons, (IH (S i) k p Hp);
        by replace (S i + p)%nat with (i + S p)%nat by lia.
Qed.

Lemma text_parts_lookup (parts : list string) (K : nat) :
  text_parts parts !! K = parts !! (2 * K)%nat.
Proof.
  revert K. induction parts as [|t|t m parts IH] using list_pair_ind;
    intros K; [done| by destruct K |].
  rewrite text_parts_cons. destruct K as [|K]; [done|].
  replace (2 * S K)%nat with (S (S (2 * K))) by lia. apply IH.
Qed.

(** The markers of a split are its parts at the odd positions. *)
Lemma marker_parts_lookup (parts : list string) (K : nat) :
  marker_parts parts !! K = parts !! (2 * K + 1)%nat.
Proof.
  unfold marker_parts. rewrite text_parts_lookup.
  destruct parts; [done|]. by rewrite Nat.add_1_r.
Qed.

Lemma markers_before (parts : list string) (K : nat) :
  Forall (λ m, isPlaceholder m = true) (marker_parts parts) →
  is_Some (marker_parts parts !! K) →
  (K ≤ length (filter (λ q, isPlaceholder q = true) (take (2 * K + 1) parts)))%nat.
Proof.
  revert K. induction parts as [|t|t m parts IH] using list_pair_ind;
    intros K Hm HK; [by destruct HK | destruct K; [lia | by destruct HK] |].
  rewrite marker_parts_cons in Hm, HK. apply Forall_cons_1 in Hm as [Hm Hms].
  destruct K as [|K]; [lia|].
  replace (2 * S K + 1)%nat with (S (S (2 * K + 1))) by lia.
  cbn [take]. rewrite !filter_cons. rewrite (decide_True _ _ Hm).
  specialize (IH K Hms HK).
  case_decide; cbn [length]; lia.
Qed.

(** X22. For every article of a loaded lesson the parts rendered are
    those that [split] finds scanning the article for markers from left
    to right; the paragraph has one node per part; every marker is
    rendered as a blank, none as text, bound to an index that is at least
    its number; the blanks are bound to the indices 0, 1, 2, ... in
    document order without a gap; and when no text part starts with two
    opening and ends with two closing braces, the marker number [K] (from
    0) is the blank bound to index [K]. *)
Theorem renderArticle_blanks (st : AppState) (current : Lesson) :
  lesson st = Some current →
  ∃ nodes,
    renderArticle st = Some nodes
    ∧ splits (article current) "" (split_placeholders (article current))
    ∧ length nodes = length (split_placeholders (article current))
    ∧ (∀ K marker,
         marker_parts (split_placeholders (article current)) !! K = Some marker →
         is_marker marker
         ∧ ∃ k,
             nodes !! (2 * K + 1)%nat
             = Some (Input (article_input st (2 * K + 1) k))
             ∧ (K ≤ k)%nat)
    ∧ input_indices nodes = seq 0 (length (input_indices nodes))
    ∧ (Forall (λ t, isPlaceholder t = false)
         (text_parts (split_placeholders (article current))) →
       markers_bound_in_order st (article current)).
Proof.
  intros Hl. unfold renderArticle. rewrite Hl. eexists. split; [reflexivity|].
  set (parts := split_placeholders (article current)).
  pose proof (split_from_markers (article current) 0 "") as Hpass.
  pose proof (split_from_markers_match (article current) 0 "") as Hmatch.
  fold (split_placeholders (article current)) in Hpass, Hmatch.
  fold parts in Hpass, Hmatch.
  split; [apply split_placeholders_splits|].
  split; [apply render_parts_length|].
  split; [|split].
  - intros K marker HK.
    split.
    { rewrite Forall_lookup in Hmatch. specialize (Hmatch K marker HK).
      apply match_braces_spec in Hmatch. apply Hmatch. }
    pose proof HK as Hpart. rewrite marker_parts_lookup in Hpart.
    rewrite (render_parts_lookup st parts 0 0 _ marker Hpart).
    rewrite Forall_lookup in Hpass. rewrite (Hpass K marker HK).
    eexists. split; [reflexivity|]. cbn [Nat.add].
    apply markers_before; [by apply Forall_lookup | by exists marker].
  - by rewrite render_parts_input_indices, length_seq.
  - intros Htext K marker HK.
    destruct (render_parts_markers st parts Htext Hpass 0%nat 0%nat) as [HKs _].
    exact (HKs K marker HK).
Qed.

Lemma renderArticle_blanks_witness :
  ∃ nodes,
    renderArticle (appState bread_answered) = Some nodes
    ∧ splits (article bread_lesson) "" (split_placeholders (article bread_lesson))
    ∧ nodes !! 1%nat
      = Some (Input {| key := 1; className := "article-input "; value := "Bread";
                       onChange := 0; disabled := false; ariaLabel := 1 |}).
Proof.
  destruct (renderArticle_blanks (appState bread_answered) bread_lesson eq_refl)
    as (nodes & Hrun & Hsplit & _).
  exists nodes. split; [exact Hrun|]. split; [exact Hsplit|].
  vm_compute in Hrun. injection Hrun as <-. reflexivity.
Defined.

Lemma blanked_cons2 (t m : string) (parts : list string) :
  parts ≠ [] → blanked (t :: m :: parts) = t +:+ "blank" +:+ blanked parts.
Proof. reflexivity. Qed.

Lemma replace_from_split (s : string) (skip : nat) (segment : string) :
  blanked (split_from s skip segment) = segment +:+ replace_from s skip.
Proof.
  revert skip segment. induction s as [|c s IH]; intros skip segment.
  - cbn. by rewrite string_app_empty_r.
  - cbn [split_from replace_from]. destruct skip as [|k]; [|apply IH].
    rewrite match_placeholder_braces.
    destruct (match_braces (String c s)) as [[m rest]|].
    + cbn [blanked]. by rewrite IH.
    + rewrite IH. by rewrite string_app_assoc, append_cons.
Qed.

(** X23. The text that the Listen button reads aloud is the article
    with every marker replaced by the word [blank]: the parts of the
    split in order, the text parts as they are, so the markers read
    aloud are the markers the split finds. *)
Theorem listenArticleText_blanked (article : string) :
  listenArticleText article = blanked (split_placeholders article).
Proof.
  unfold listenArticleText, split_placeholders. by rewrite replace_from_split.
Qed.

Example listenArticleText_bread :
  listenArticleText (article bread_lesson) = "I eat blank every day.".
Proof. reflexivity. Qed.

(* ===================================================================== *)
(** * Further properties of the answers *)
(* ===================================================================== *)

Lemma handleAnswerChange_eq (index : nat) (value : string) (w : World) :
  handleAnswerChange index value w
  = (inr tt,
     if showResults (appState w) then w
     else {| appState :=
               with_userAnswers
                 (sparse_set (spread (userAnswers (appState w)))
                    (Z.of_nat index) (Value value))
                 (appState w);
             audioContextRef := audioContextRef w;
             audioSourceRef := audioSourceRef w;
             effects := effects w |}).
Proof.
  destruct w as [st ctx src eff]. unfold handleAnswerChange. run_handler.
  by destruct (showResults st).
Qed.

(** X24. An edit of a blank within the answers keeps their number, so
    they stay aligned with the target words; an edit at or past the end
    makes the array grow to end at the edited index. *)
Theorem handleAnswerChange_length (index : nat) (value : string) (w : World) :
  showResults (appState w) = false →
  ∃ w',
    handleAnswerChange index value w = (inr tt, w')
    ∧ length (userAnswers (appState w'))
      = Nat.max (length (userAnswers (appState w))) (S index)
    ∧ ((index < length (userAnswers (appState w)))%nat →
       length (userAnswers (appState w')) = length (userAnswers (appState w))).
Proof.
  intros Hs. rewrite handleAnswerChange_eq, Hs. eexists. split; [reflexivity|].
  cbn [appState].
  change (userAnswers (with_userAnswers ?a ?s)) with a.
  rewrite sparse_set_length, spread_length, Nat2Z.id by lia. split; [done | lia].
Qed.

Lemma handleAnswerChange_length_witness :
  ∃ w',
    handleAnswerChange 0 "Bread" bread_world = (inr tt, w')
    ∧ length (userAnswers (appState w'))
      = Nat.max (length (userAnswers (appState bread_world))) (S 0)
    ∧ ((0 < length (userAnswers (appState bread_world)))%nat →
       length (userAnswers (appState w'))
       = length (userAnswers (appState bread_world))).
Proof. apply (handleAnswerChange_length 0 "Bread" bread_world). reflexivity. Defined.

(** An edit within the array is an update in place of its copy. *)
Lemma edit_in_range (a : list (slot string)) (i : nat) (v : string) :
  (i < length a)%nat →
  sparse_set (spread a) (Z.of_nat i) (Value v) = <[i := Value v]> (spread a).
Proof.
  intros Hi. rewrite sparse_set_in_range by (rewrite spread_length; lia).
  by rewrite Nat2Z.id.
Qed.

(** X25. Edits of blanks that the array has compose as one expects: of
    two edits of the same blank the later one stands alone, and edits of
    two different blanks give the same world in either order. (Past the
    end of the array the order shows: the hole that a growing edit
    leaves is [undefined] in the copy of the next edit.) *)
Theorem handleAnswerChange_compose (i j : nat) (v u : string) (w : World) :
  (i < length (userAnswers (appState w)))%nat →
  (handleAnswerChange i v;; handleAnswerChange i u) w = handleAnswerChange i u w
  ∧ (i ≠ j → (j < length (userAnswers (appState w)))%nat →
     (handleAnswerChange i v;; handleAnswerChange j u) w
     = (handleAnswerChange j u;; handleAnswerChange i v) w).
Proof.
  intros Hi. unfold mbind, M_bind. destruct w as [st ctx src eff].
  cbn [appState] in Hi.
  rewrite !(handleAnswerChange_eq _ _ (Build_World st ctx src eff)).
  cbv beta iota. cbn [appState audioContextRef audioSourceRef effects].
  destruct (showResults st) eqn:Hs.
  { rewrite !handleAnswerChange_eq. cbn [appState]. by rewrite Hs. }
  rewrite !handleAnswerChange_eq.
  cbn [appState audioContextRef audioSourceRef effects].
  change (showResults (with_userAnswers ?a st)) with (showResults st).
  rewrite Hs.
  change (userAnswers (with_userAnswers ?a st)) with a.
  change (with_userAnswers ?a (with_userAnswers ?b st)) with (with_userAnswers a st).
  rewrite !(edit_in_range (userAnswers st)) by done.
  split.
  - rewrite spread_insert_value.
    rewrite sparse_set_in_range, Nat2Z.id
      by (rewrite length_insert, spread_length; lia).
    by rewrite list_insert_insert_eq.
  - intros Hij Hj. rewrite (edit_in_range (userAnswers st) j) by done.
    rewrite !spread_insert_value.
    rewrite !sparse_set_in_range, !Nat2Z.id
      by (rewrite length_insert, spread_length; lia).
    by rewrite list_insert_insert_ne by done.
Qed.

Lemma handleAnswerChange_compose_witness :
  (handleAnswerChange 0 "a";; handleAnswerChange 2 "d")
    (handleAnswerChange 2 "c" bread_world).2
  = (handleAnswerChange 2 "d";; handleAnswerChange 0 "a")
      (handleAnswerChange 2 "c" bread_world).2.
Proof.
  apply (handleAnswerChange_compose 0 2 "a" "d"
           (handleAnswerChange 2 "c" bread_world).2);
    [vm_compute; lia | discriminate | vm_compute; lia].
Defined.

(* ===================================================================== *)
(** * Further properties of the WAV encoder *)
(* ===================================================================== *)

(** X26. [pcmToWav] has no error path: for all samples and all numbers
    as parameters, zero, negative, fractional or huge, NaN or an infinity
    among them, it returns a container of 44 bytes and the samples, in
    which each numeric field holds the value that the code computes for
    it in double arithmetic, cut to an integer and reduced modulo 2^16 or
    2^32, the width of the field; NaN and the infinities are written
    as 0. *)
Theorem pcmToWav_no_error_path (pcmData : list Z) (sr nc bps : number) :
  ∃ out,
    pcmToWav pcmData sr nc bps = Some out
    ∧ WavLayout out pcmData
        (ToUint32 (num 36 + num (Z.of_nat (length pcmData)))%number) 16 1
        (ToUint16 nc) (ToUint32 sr)
        (ToUint32 (sr * (nc * bps / num 8))%number)
        (ToUint16 (nc * bps / num 8)%number)
        (ToUint16 bps) (ToUint32 (num (Z.of_nat (length pcmData))))
    ∧ ToUint16 NaN = 0 ∧ ToUint32 NaN = 0
    ∧ ∀ negative,
        ToUint16 (Infinity negative) = 0 ∧ ToUint32 (Infinity negative) = 0.
Proof.
  destruct (pcmToWav_fields_wrapped pcmData sr nc bps) as (out & Hout & W).
  exists out. split; [done|]. split; [exact W|]. done.
Qed.

(** With a parameter that is not a number, the fields computed from it
    are 0. *)
Example pcmToWav_NaN :
  pcmToWav [7] (num 24000) NaN (num 16)
  = Some [82; 73; 70; 70; 37; 0; 0; 0; 87; 65; 86; 69;
          102; 109; 116; 32; 16; 0; 0; 0; 1; 0; 0; 0;
          192; 93; 0; 0; 0; 0; 0; 0; 0; 0; 16; 0;
          100; 97; 116; 97; 1; 0; 0; 0; 7].
Proof. vm_compute. reflexivity. Qed.

(** X27. The container is an array of bytes whenever the samples are:
    every element that [pcmToWav] writes into the header is in
    [0, 256). Two runs with the same parameters that give the same
    container were given the same samples. *)
Theorem pcmToWav_bytes (pcmData out : list Z) (sr nc bps : number) :
  is_bytes pcmData →
  pcmToWav pcmData sr nc bps = Some out →
  is_bytes out
  ∧ ∀ pcmData', pcmToWav pcmData' sr nc bps = Some out → pcmData' = pcmData.
Proof.
  intros Hb Hout. split; [by eapply pcmToWav_is_bytes|].
  intros pcmData' Hout'. rewrite pcmToWav_eq in Hout, Hout'.
  assert (wav_header (Z.of_nat (length pcmData')) sr nc bps ++ pcmData'
          = wav_header (Z.of_nat (length pcmData)) sr nc bps ++ pcmData) as Heq
    by congruence.
  apply (f_equal (drop 44)) in Heq.
  rewrite <- (wav_header_length (Z.of_nat (length pcmData')) sr nc bps) in Heq at 1.
  rewrite <- (wav_header_length (Z.of_nat (length pcmData)) sr nc bps) in Heq.
  by rewrite !drop_app_length in Heq.
Qed.

Lemma pcmToWav_bytes_witness :
  is_bytes (wav_header 2 (num 24000) (num 1) (num 16) ++ [0; 255])
  ∧ ∀ pcmData',
      pcmToWav pcmData' (num 24000) (num 1) (num 16)
      = Some (wav_header 2 (num 24000) (num 1) (num 16) ++ [0; 255]) →
      pcmData' = [0; 255].
Proof.
  apply (pcmToWav_bytes [0; 255]
           (wav_header 2 (num 24000) (num 1) (num 16) ++ [0; 255])
           (num 24000) (num 1) (num 16)).
  - repeat (constructor; [split; [discriminate | reflexivity]|]). constructor.
  - apply pcmToWav_eq.
Defined.

(* ===================================================================== *)
(** * Properties of the saved preferences *)
(* ===================================================================== *)

Lemma getItem_or_insert (ls : gmap string string) (key item fallback : string) :
  getItem_or (<[key := item]> ls) key fallback
  = if String.eqb item "" then fallback else item.
Proof. unfold getItem_or. by rewrite lookup_insert_eq. Qed.

Lemma getItem_or_insert_ne (ls : gmap string string)
    (key key' item fallback : string) :
  key ≠ key' →
  getItem_or (<[key := item]> ls) key' fallback = getItem_or ls key' fallback.
Proof. intros H. unfold getItem_or. by rewrite lookup_insert_ne. Qed.

(** X28. The preferences survive a reload: the next first render takes
    the language, the topic and the difficulty that the effects saved,
    except that a field saved empty comes back as its default (Spanish,
    ordering food at a restaurant, normal). Nothing else of the session
    is restored, and no other item of the storage is written. *)
Theorem preferences_round_trip (st : AppState) (localStorage : gmap string string) :
  let st' := mount_state (save_preferences st localStorage) in
  language st' = (if String.eqb (language st) "" then "Spanish" else language st)
  ∧ topic st'
    = (if String.eqb (topic st) "" then "ordering food at a restaurant"
       else topic st)
  ∧ difficulty st'
    = (if String.eqb (difficulty st) "" then "normal" else difficulty st)
  ∧ lesson st' = None ∧ userAnswers st' = [] ∧ showResults st' = false
  ∧ nextTopicCooldown st' = 0%nat
  ∧ ∀ key,
      key ≠ "lastLanguage" → key ≠ "lastTopic" → key ≠ "lastDifficulty" →
      save_preferences st localStorage !! key = localStorage !! key.
Proof.
  cbn zeta. unfold mount_state, save_preferences. cbn [language topic difficulty
    lesson userAnswers showResults nextTopicCooldown].
  split; [|split; [|split]].
  - rewrite !getItem_or_insert_ne by done. apply getItem_or_insert.
  - rewrite getItem_or_insert_ne by done. apply getItem_or_insert.
  - apply getItem_or_insert.
  - do 4 (split; [done|]). intros key H1 H2 H3.
    by rewrite !lookup_insert_ne.
Qed.

(** With nothing stored the first render is [initial_state]. *)
Example mount_state_empty : mount_state ∅ = initial_state.
Proof. reflexivity. Qed.

(** The topic that [handleNextTopic] advances to is the topic of
    the next session: once the effects have saved it, a reload starts
    with the suggestion as its topic. *)
Lemma handleNextTopic_saved (w : World) (current : Lesson)
    (localStorage : gmap string string) :
  lesson (appState w) = Some current →
  nextTopicSuggestion current ≠ "" →
  nextTopicCooldown (appState w) = 0%nat →
  ∃ w',
    handleNextTopic w = (inr tt, w')
    ∧ topic (mount_state (save_preferences (appState w') localStorage))
      = nextTopicSuggestion current.
Proof.
  intros Hl Hs Hc.
  destruct (handleNextTopic_advances w current Hl Hs Hc) as (w' & Hrun & Ht & _).
  exists w'. split; [done|].
  unfold mount_state, save_preferences. cbn [topic].
  rewrite getItem_or_insert_ne by done. rewrite getItem_or_insert, Ht.
  apply String.eqb_neq in Hs. by rewrite Hs.
Qed.

(* ===================================================================== *)
(** * Further properties of the shuffle *)
(* ===================================================================== *)


Section shuffle_more.
Context {T : Type}.
Implicit Types (a b s t : list (option T)).




End shuffle_more.



(** An array of at most one element comes back as an equal copy,
    on every run of [Math.random]: the loop does not draw at all. *)
Lemma shuffleArray_short {T : Type} (rand : nat → Q)
    (h : gmap loc (list (option T))) (array : loc) (a : list (option T)) :
  h !! array = Some a → (length a ≤ 1)%nat →
  shuffleArray rand h array = Some (<[fresh (dom h) := a]> h, fresh (dom h)).
Proof.
  intros Ha Hlen. rewrite (shuffleArray_eq rand h array a Ha).
  destruct a as [|x [|y a]]; [done | done | cbn in Hlen; lia].
Qed.
